(** * The cbamf/peri optimisation engine ([cbamf/opt/optimize.py])

    A shallow embedding of the Levenberg-Marquardt drivers, the pixel
    budget, the single-particle update with its bounds fixing, the
    spatial partitioner, the multi-particle tile and the line search,
    together with the properties the specification states about them.

    Modelling conventions.
    - Python floats are modelled as exact rationals ([Q]); rounding, NaN
      and infinities are outside the model.  Python ints are [Z].
    - An exception is a value of [exn]; a function that can raise
      returns a [result].  Stateful drivers return the exception together
      with the state as the exception left it.
    - The external image-formation model (residual image, finite
      differences, the least-squares solve, the Brent minimiser) is taken
      abstractly, as Section variables. *)

From Stdlib Require Import ZArith QArith Qround Qminmax Lqa Lia List Bool.
Import ListNotations.

Local Open Scope Q_scope.

(** ** Exceptions and results *)

Inductive exn : Type :=
| RuntimeError
| ValueError
| ZeroDivisionError
| IndexError
| NameError.

Inductive result (A : Type) : Type :=
| Ok (a : A)
| Raise (e : exn).

Arguments Ok {A} a.
Arguments Raise {A} e.

Definition rbind {A B : Type} (r : result A) (k : A -> result B) : result B :=
  match r with
  | Ok a => k a
  | Raise e => Raise e
  end.

Notation "x <-r c ;; k" := (rbind c (fun x => k))
  (at level 61, c at next level, right associativity).

(** ** Comparisons and clipping on rationals *)

Definition Qleb (a b : Q) : bool := Qle_bool a b.
Definition Qltb (a b : Q) : bool := negb (Qle_bool b a).

(** [np.minimum], [np.maximum] and [np.clip] on scalars:
    [np.clip(x, lo, hi)] is [minimum(maximum(x, lo), hi)]. *)
Definition qmax (a b : Q) : Q := if Qltb a b then b else a.
Definition qmin (a b : Q) : Q := if Qltb b a then b else a.
Definition qclip (x lo hi : Q) : Q := qmin (qmax x lo) hi.

(** ** Python numbers

    [get_num_px_jtj] mixes ints and floats, and in Python 2 the operator
    [/] is floor division on two ints and true division otherwise. *)

Inductive num : Type :=
| Int (n : Z)
| Float (x : Q).

Definition to_Q (a : num) : Q :=
  match a with
  | Int n => inject_Z n
  | Float x => x
  end.

Definition num_is_zero (a : num) : bool :=
  match a with
  | Int n => Z.eqb n 0
  | Float x => Qeq_bool x 0
  end.

Definition py_div (a b : num) : result num :=
  if num_is_zero b then Raise ZeroDivisionError
  else match a, b with
       | Int x, Int y => Ok (Int (x / y)%Z)
       | _, _ => Ok (Float (to_Q a / to_Q b))
       end.

Definition py_mul (a b : num) : num :=
  match a, b with
  | Int x, Int y => Int (x * y)%Z
  | _, _ => Float (to_Q a * to_Q b)
  end.

(** [int(x)]: truncation towards zero. *)
Definition py_int (a : num) : Z :=
  match a with
  | Int n => n
  | Float x => Z.quot (Qnum x) (Zpos (Qden x))
  end.

Definition num_gtb (a b : num) : bool := Qltb (to_Q b) (to_Q a).

Definition num_max (a b : num) : num :=
  match a, b with
  | Int x, Int y => Int (Z.max x y)
  | _, _ => Float (qmax (to_Q a) (to_Q b))
  end.

Definition num_min (a b : num) : num :=
  match a, b with
  | Int x, Int y => Int (Z.min x y)
  | _, _ => Float (qmin (to_Q a) (to_Q b))
  end.

Definition np_clip (x lo hi : num) : num := num_min (num_max x lo) hi.

(** ** The pixel budget: [get_num_px_jtj]

    [size] is [s.image[s.inner].size], the number of interior pixels. *)

Definition get_num_px_jtj (size : Z) (nparams : Z)
    (decimate max_mem min_redundant : num) : result num :=
  m8 <-r py_div max_mem (Int 8) ;;
  m <-r py_div m8 (Int nparams) ;;
  let px_mem := Int (py_int m) in
  let px_red := py_mul min_redundant (Int nparams) in
  px_dec <-r py_div (Int size) decimate ;;
  if num_gtb px_red px_mem then Raise RuntimeError
  else Ok (np_clip px_dec px_red px_mem).

(** The defaults of the keyword arguments. *)
Definition default_decimate : num := Int 400.
Definition default_max_mem : num := Float 2000000000.
Definition default_min_redundant : num := Int 20.


(** ** Three-vectors *)

Inductive axis : Type := Ax0 | Ax1 | Ax2.

Definition vec3 : Type := (Q * Q * Q)%type.
Definition zvec3 : Type := (Z * Z * Z)%type.

Definition coord (k : axis) (v : vec3) : Q :=
  let '(a, b, c) := v in
  match k with Ax0 => a | Ax1 => b | Ax2 => c end.

Definition zcoord (k : axis) (v : zvec3) : Z :=
  let '(a, b, c) := v in
  match k with Ax0 => a | Ax1 => b | Ax2 => c end.

Definition v3map (f : Q -> Q) (v : vec3) : vec3 :=
  let '(a, b, c) := v in (f a, f b, f c).

Definition v3map2 (f : Q -> Q -> Q) (u v : vec3) : vec3 :=
  let '(a, b, c) := u in
  let '(a', b', c') := v in (f a a', f b b', f c c').

Definition v3any2 (f : Q -> Q -> bool) (u v : vec3) : bool :=
  let '(a, b, c) := u in
  let '(a', b', c') := v in f a a' || f b b' || f c c'.

Definition v3const (x : Q) : vec3 := (x, x, x).
Definition v3add : vec3 -> vec3 -> vec3 := v3map2 Qplus.
Definition v3sub : vec3 -> vec3 -> vec3 := v3map2 Qminus.
Definition v3_of_z (v : zvec3) : vec3 :=
  let '(a, b, c) := v in (inject_Z a, inject_Z b, inject_Z c).

(** [np.clip(v, lo, hi)] with array bounds, element by element. *)
Definition v3clip (v lo hi : vec3) : vec3 :=
  let '(a, b, c) := v in
  let '(l0, l1, l2) := lo in
  let '(h0, h1, h2) := hi in
  (qclip a l0 h0, qclip b l1 h1, qclip c l2 h2).

(** ** Particles and the model state seen by the particle routines

    [s.obj.pos], [s.obj.rad] and [s.obj.typ] are kept per particle; the
    image shape is [s.image.shape].  The warnings issued and the calls of
    [s.reset()] are recorded in [events], oldest first. *)

Record particle : Type := mkParticle {
  ppos : vec3;
  prad : Q;
  ptyp : Q
}.

Inductive event : Type :=
| Warned
| ResetCalled.

Record State : Type := mkState {
  image_shape : zvec3;
  obj : list particle;
  events : list event
}.

Definition set_obj (s : State) (o : list particle) : State :=
  mkState (image_shape s) o (events s).

Definition log_event (s : State) (e : event) : State :=
  mkState (image_shape s) (obj s) (events s ++ [e]).

Fixpoint list_set {A : Type} (l : list A) (i : nat) (x : A) : list A :=
  match l, i with
  | [], _ => []
  | _ :: t, O => x :: t
  | h :: t, S j => h :: list_set t j x
  end.

(** The clipping margin [1e-6] of [update_one_particle]. *)
Definition eps : Q := 1 # 1000000.

(** [is_bad_update = lambda p, r: np.any(p < 0) or
    np.any(p > np.array(s.image.shape)) or np.any(r < 0)] *)
Definition is_bad_update (shape : zvec3) (p : vec3) (r : Q) : bool :=
  v3any2 Qltb p (v3const 0) || v3any2 (fun x m => Qltb m x) p (v3_of_z shape)
  || Qltb r 0.

(** [update_one_particle(s, particle, pos, rad, typ, relative,
    do_update_tile, fix_errors)].  The tiles it returns and the update of
    the model image ([s._update_tile]) belong to the external model; the
    embedding keeps the effect on the particle table.  An index outside
    the table is Python's [IndexError]. *)
Definition update_one_particle (s : State) (i : nat) (pos : vec3) (rad : Q)
    (typ : option Q) (relative fix_errors : bool) : result State :=
  match nth_error (obj s) i with
  | None => Raise IndexError
  | Some pt =>
    let p0 := ppos pt in
    let r0 := prad pt in
    let t0 := ptyp pt in
    let shape := v3_of_z (image_shape s) in
    let '(pos, rad) :=
      if fix_errors then
        if relative then
          if is_bad_update (image_shape s) (v3add p0 pos) (r0 + rad) then
            (v3clip pos (v3sub (v3const eps) p0)
                        (v3sub (v3sub shape (v3const eps)) p0),
             qmax rad (eps - r0))
          else (pos, rad)
        else
          if is_bad_update (image_shape s) pos rad then
            (v3clip pos (v3const eps) (v3sub shape (v3const eps)),
             qmax rad eps)
          else (pos, rad)
      else (pos, rad) in
    let t1 := match typ with None => t0 | Some t => t end in
    let p1 := if relative then v3add p0 pos else pos in
    let r1 := if relative then r0 + rad else rad in
    if is_bad_update (image_shape s) p1 r1 then Raise ValueError
    else Ok (set_obj s (list_set (obj s) i (mkParticle p1 r1 t1)))
  end.

(** Where the caller asks the particle to go: the proposed position and
    radius, before any fixing. *)
Definition proposed_pos (pt : particle) (pos : vec3) (relative : bool) : vec3 :=
  if relative then v3add (ppos pt) pos else pos.
Definition proposed_rad (pt : particle) (rad : Q) (relative : bool) : Q :=
  if relative then prad pt + rad else rad.



Definition new_typ (pt : particle) (typ : option Q) : Q :=
  match typ with None => ptyp pt | Some t => t end.

(** ** A state-and-exception monad for the drivers

    A computation takes the model state and returns a value or an
    exception together with the state as it stands at that point: a
    raised exception does not undo the mutations made before it. *)

Definition M (S A : Type) : Type := S -> result A * S.

Definition ret {S A : Type} (a : A) : M S A := fun s => (Ok a, s).

Definition bind {S A B : Type} (m : M S A) (k : A -> M S B) : M S B :=
  fun s => match m s with
           | (Ok a, s') => k a s'
           | (Raise e, s') => (Raise e, s')
           end.

Definition raise {S A : Type} (e : exn) : M S A := fun s => (Raise e, s).
Definition get_state {S : Type} : M S S := fun s => (Ok s, s).
Definition lift {S A : Type} (f : S -> result A) : M S A := fun s => (f s, s).
Definition modify {S : Type} (f : S -> result S) : M S unit :=
  fun s => match f s with
           | Ok s' => (Ok tt, s')
           | Raise e => (Raise e, s)
           end.

Declare Scope monad_scope.
Delimit Scope monad_scope with monad.
Notation "x <- c ;; k" := (bind c (fun x => k))
  (at level 61, c at next level, right associativity) : monad_scope.
Notation "c ;;; k" := (bind c (fun _ => k))
  (at level 61, right associativity) : monad_scope.

(** ** Flat parameter vectors ([numpy] 1-d arrays) *)

Fixpoint vmap2 (f : Q -> Q -> Q) (u v : list Q) : list Q :=
  match u, v with
  | a :: u', b :: v' => f a b :: vmap2 f u' v'
  | _, _ => []
  end.

Definition vadd : list Q -> list Q -> list Q := vmap2 Qplus.
Definition vsub : list Q -> list Q -> list Q := vmap2 Qminus.
Definition vneg (v : list Q) : list Q := map Qopp v.

(** ** The global optimiser: [do_levmarq]

    The state of the external model, as far as [do_levmarq] on one block
    sees it: the current values of the block ([s.state[block]]), whether
    [s.param_order] is the set [update_state_global] supports, the size
    of the interior image, and the state of the random generator used to
    sample pixels.  [update_state_global] rebuilds every derived field,
    so the residual is a function of the block values. *)

Record GState (Rng : Type) : Type := mkGState {
  gparams : list Q;
  supported : bool;
  inner_size : Z;
  rng : Rng
}.

Arguments mkGState {Rng}.
Arguments gparams {Rng}.
Arguments supported {Rng}.
Arguments inner_size {Rng}.
Arguments rng {Rng}.

(** The local variables of the [while] loop. *)
Record lm_vars (Cache : Type) : Type := mkVars {
  damp : Q;
  ddamp : Q;
  recalc_J : bool;
  counter : Q;
  cache : option Cache
}.

Arguments mkVars {Cache}.
Arguments damp {Cache}.
Arguments ddamp {Cache}.
Arguments recalc_J {Cache}.
Arguments counter {Cache}.
Arguments cache {Cache}.

(** The keyword arguments [get_num_px_jtj] reads. *)
Record px_kwargs : Type := mkPxKwargs {
  decimate : num;
  max_mem : num;
  min_redundant : num
}.

Definition default_px_kwargs : px_kwargs :=
  mkPxKwargs default_decimate default_max_mem default_min_redundant.

(** The bookkeeping both drivers do after a bad step, once the parameters
    are back: [recalc_J = False], [counter += 0.1], and [ddamp] inverted
    when [err0 < err1], [damp] multiplied by [ddamp*ddamp] otherwise.
    [1.0/ddamp] raises [ZeroDivisionError] on a zero [ddamp].

    The counter is a float in the code and is exact here.  Ten
    additions of 0.1 give 1 here and 0.9999999999999999 in binary64, so
    the code can make a further pass of its loop where this counter has
    reached [num_iter]: what is stated below about the loops holds for
    every pass and for a call that has come to an end, and says nothing
    of how many passes that takes. *)
Definition after_bad_step {Cache : Type} (err0 err1 : Q) (c : Cache)
    (v : lm_vars Cache) : result (lm_vars Cache) :=
  let counter' := counter v + (1 # 10) in
  if Qltb err0 err1 then
    if Qeq_bool (ddamp v) 0 then Raise ZeroDivisionError
    else Ok (mkVars (damp v) (1 / ddamp v) false counter' (Some c))
  else
    Ok (mkVars (damp v * (ddamp v * ddamp v)) (ddamp v) false counter' (Some c)).

Section LevMarq.

Local Open Scope monad_scope.

(** The numerics of the external model and of [numpy]. *)
Variables Jac Inds JTJ Grad Rng : Type.

(** [get_err(s)] when the block holds the given values. *)
Variable err_of : list Q -> Q.

(** [get_rand_Japprox(s, blocks, num_inds, **kwargs)]: from the random
    state, the block values and the pixel count, the Jacobian and the
    sampled indices, the block values the finite differences leave
    behind (they are put back only with [be_nice]), and the new random
    state. *)
Variable get_rand_Japprox_ext :
  Rng -> list Q -> num -> (Jac * Inds) * list Q * Rng.

Variable j_to_jtj : Jac -> JTJ.

(** [calc_im_grad(s, J, inds)], a function of the current block values. *)
Variable calc_im_grad_ext : list Q -> Jac -> Inds -> Grad.

(** [find_LM_updates(JTJ, grad, damp=damp)]. *)
Variable find_LM_updates : JTJ -> Grad -> Q -> list Q.

Definition St : Type := GState Rng.
Definition Cache : Type := (Jac * Inds * JTJ * Grad)%type.
Definition Vars : Type := lm_vars Cache.

Definition get_err : M St Q := fun s => (Ok (err_of (gparams s)), s).

Definition get_block : M St (list Q) := fun s => (Ok (gparams s), s).

(** [update_state_global(s, block, data)]: refuses a state whose
    parameter set it does not know, before changing anything. *)
Definition update_state_global (data : list Q) : M St unit :=
  fun s =>
    if supported s
    then (Ok tt, mkGState data (supported s) (inner_size s) (rng s))
    else (Raise RuntimeError, s).

Definition get_rand_Japprox (num_px : num) : M St (Jac * Inds) :=
  fun s =>
    let '(ji, perturbed, g) := get_rand_Japprox_ext (rng s) (gparams s) num_px in
    (Ok ji, mkGState perturbed (supported s) (inner_size s) g).

Definition calc_im_grad (J : Jac) (inds : Inds) : M St Grad :=
  fun s => (Ok (calc_im_grad_ext (gparams s) J inds), s).

(** [do_internal_run(J, inds, damp)], the loop over [xrange(run_length)]. *)
Fixpoint do_internal_run (run_length : nat) (J : Jac) (inds : Inds) (jtj : JTJ)
    (damp : Q) : M St unit :=
  match run_length with
  | O => ret tt
  | S rest =>
    new_grad <- calc_im_grad J inds ;;
    p0 <- get_block ;;
    let dnew := find_LM_updates jtj new_grad damp in
    old_err <- get_err ;;
    update_state_global (vadd p0 dnew) ;;;
    new_err <- get_err ;;
    if Qltb old_err new_err
    then update_state_global p0
    else do_internal_run rest J inds jtj damp
  end.

(** Step 1 of an iteration: recompute J, JTJ and the gradient, or take
    the ones of the previous iteration. *)
Definition get_J_JTJ_grad (num_px : num) (v : Vars) : M St Cache :=
  if recalc_J v then
    ji <- get_rand_Japprox num_px ;;
    let '(J, inds) := ji in
    let jtj := j_to_jtj J in
    grad <- calc_im_grad J inds ;;
    ret (J, inds, jtj, grad)
  else
    match cache v with
    | Some c => ret c
    | None => raise NameError
    end.

(** The branch [if np.min([err0, err1]) > err_start]. *)
Definition bad_step (p0 : list Q) (err0 err1 : Q) (c : Cache) (v : Vars) : M St Vars :=
  update_state_global p0 ;;;
  lift (fun _ => after_bad_step err0 err1 c v).

(** The choice between the two trial steps in the [else] branch; the
    state holds [p0 + d1] when it starts.  Returns the new [damp]. *)
Definition keep_better (p0 d0 : list Q) (err0 err1 : Q) (v : Vars) : M St Q :=
  if Qltb err0 err1 then
    update_state_global (vadd p0 d0) ;;;
    ret (damp v)
  else
    ret (damp v * ddamp v).

Definition good_step (do_run : bool) (run_length : nat) (p0 d0 : list Q)
    (err0 err1 : Q) (c : Cache) (v : Vars) : M St Vars :=
  damp' <- keep_better p0 d0 err0 err1 v ;;
  let '(J, inds, jtj, _) := c in
  (if do_run then do_internal_run run_length J inds jtj damp' else ret tt) ;;;
  ret (mkVars damp' (ddamp v) true (counter v + 1) (Some c)).

(** The body of [while counter < num_iter]. *)
Definition levmarq_iteration (num_px : num) (do_run : bool) (run_length : nat)
    (v : Vars) : M St Vars :=
  p0 <- get_block ;;
  err_start <- get_err ;;
  c <- get_J_JTJ_grad num_px v ;;
  let '(J, inds, jtj, grad) := c in
  let d0 := find_LM_updates jtj grad (damp v) in
  let d1 := find_LM_updates jtj grad (damp v * ddamp v) in
  update_state_global (vadd p0 d0) ;;;
  err0 <- get_err ;;
  update_state_global (vadd p0 d1) ;;;
  err1 <- get_err ;;
  if Qltb err_start (qmin err0 err1)
  then bad_step p0 err0 err1 c v
  else good_step do_run run_length p0 d0 err0 err1 c v.

(** The [while] loop, with [fuel] bounding the number of iterations:
    [None] means the fuel ran out. *)
Fixpoint levmarq_loop (fuel : nat) (num_px : num) (num_iter : Z) (do_run : bool)
    (run_length : nat) (v : Vars) (s : St) : option (result unit * St) :=
  if Qltb (counter v) (inject_Z num_iter) then
    match fuel with
    | O => None
    | S fuel' =>
      match levmarq_iteration num_px do_run run_length v s with
      | (Ok v', s') => levmarq_loop fuel' num_px num_iter do_run run_length v' s'
      | (Raise e, s') => Some (Raise e, s')
      end
    end
  else Some (Ok tt, s).

(** [do_levmarq(s, block, damp, ddamp, num_iter, do_run, run_length,
    **kwargs)]; [block.sum()] is the number of block values. *)
Definition do_levmarq (fuel : nat) (damp ddamp : Q) (num_iter : Z) (do_run : bool)
    (run_length : Z) (kw : px_kwargs) (s : St) : option (result unit * St) :=
  match get_num_px_jtj (inner_size s) (Z.of_nat (length (gparams s)))
          (decimate kw) (max_mem kw) (min_redundant kw) with
  | Raise e => Some (Raise e, s)
  | Ok num_px =>
    levmarq_loop fuel num_px num_iter do_run (Z.to_nat run_length)
      (mkVars damp ddamp true 0 None) s
  end.

(** The quantities one iteration computes, named for the statements
    below. *)
Definition iteration_cache (num_px : num) (v : Vars) (s : St) : result Cache :=
  fst (get_J_JTJ_grad num_px v s).
Definition trial_d0 (c : Cache) (v : Vars) : list Q :=
  let '(_, _, jtj, grad) := c in find_LM_updates jtj grad (damp v).
Definition trial_d1 (c : Cache) (v : Vars) : list Q :=
  let '(_, _, jtj, grad) := c in find_LM_updates jtj grad (damp v * ddamp v).

End LevMarq.

(** ** The spatial partitioner *)

(** [np.nonzero(a)[0]] of a boolean array: the positions of its true
    entries, in increasing order. *)
Fixpoint nonzero_from (start : nat) (a : list bool) : list nat :=
  match a with
  | [] => []
  | b :: rest =>
    if b then start :: nonzero_from (S start) rest
    else nonzero_from (S start) rest
  end.

Definition np_nonzero (a : list bool) : list nat := nonzero_from 0 a.

(** Element-wise [&] of two boolean arrays. *)
Fixpoint band (a b : list bool) : list bool :=
  match a, b with
  | x :: a', y :: b' => (x && y) :: band a' b'
  | _, _ => []
  end.

(** [is_in_xi = lambda i: (s.obj.pos[:,i] > bounds[0][i]) &
    (s.obj.pos[:,i] <= bounds[1][i])] *)
Definition is_in_xi (s : State) (bounds : vec3 * vec3) (i : axis) : list bool :=
  map (fun pt => Qltb (coord i (fst bounds)) (coord i (ppos pt))
                 && Qleb (coord i (ppos pt)) (coord i (snd bounds)))
      (obj s).

Definition find_particles_in_box (s : State) (bounds : vec3 * vec3) : list nat :=
  let in_region :=
    band (band (is_in_xi s bounds Ax0) (is_in_xi s bounds Ax1))
         (is_in_xi s bounds Ax2) in
  np_nonzero in_region.

(** Python 2's [range(start, stop, step)]. *)
Definition py_range (start stop step : Z) : result (list Z) :=
  if (step =? 0)%Z then Raise ValueError
  else
    let n := if (0 <? step)%Z
             then ((stop - start + step - 1) / step)%Z
             else ((start - stop - step - 1) / (- step))%Z in
    Ok (map (fun k => (start + Z.of_nat k * step)%Z) (seq 0 (Z.to_nat n))).

(** [region_size] is an int or a 3-element list. *)
Inductive region_size_arg : Type :=
| RsInt (n : Z)
| RsList (rs : zvec3).

Definition default_region_size : region_size_arg := RsInt 40.

Definition zv3add (u v : zvec3) : zvec3 :=
  let '(a, b, c) := u in
  let '(a', b', c') := v in ((a + a')%Z, (b + b')%Z, (c + c')%Z).

Definition all_boxes_of (pts0 pts1 pts2 : list Z) (rs : zvec3) : list (zvec3 * zvec3) :=
  flat_map (fun start_0 =>
    flat_map (fun start_1 =>
      map (fun start_2 =>
             ((start_0, start_1, start_2), zv3add (start_0, start_1, start_2) rs))
          pts2)
      pts1)
    pts0.

Definition box_bounds (box : zvec3 * zvec3) : vec3 * vec3 :=
  (v3_of_z (fst box), v3_of_z (snd box)).

Definition nonempty {A : Type} (l : list A) : bool :=
  match l with [] => false | _ => true end.

Definition separate_particles_into_groups (s : State)
    (region_size : region_size_arg) (bounds : option (zvec3 * zvec3))
    : result (list (list nat)) :=
  let bounds := match bounds with
                | None => ((0, 0, 0)%Z, image_shape s)
                | Some b => b
                end in
  let rs := match region_size with
            | RsInt n => (n, n, n)
            | RsList rs => rs
            end in
  pts0 <-r py_range (zcoord Ax0 (fst bounds)) (zcoord Ax0 (snd bounds)) (zcoord Ax0 rs) ;;
  pts1 <-r py_range (zcoord Ax1 (fst bounds)) (zcoord Ax1 (snd bounds)) (zcoord Ax1 rs) ;;
  pts2 <-r py_range (zcoord Ax2 (fst bounds)) (zcoord Ax2 (snd bounds)) (zcoord Ax2 rs) ;;
  let all_boxes := all_boxes_of pts0 pts1 pts2 rs in
  Ok (filter nonempty
        (map (fun box => find_particles_in_box s (box_bounds box)) all_boxes)).

(** ** Tiles *)

(** Modelled from the spec: the class [cbamf.util.Tile] is not among the
    sources; the specification describes a tile as an ordered pair of
    integer 3-vectors, the left and the right corner. *)
Record Tile : Type := mkTile {
  tile_l : zvec3;
  tile_r : zvec3
}.

Definition zv3map2 (f : Z -> Z -> Z) (u v : zvec3) : zvec3 :=
  let '(a, b, c) := u in
  let '(a', b', c') := v in (f a a', f b b', f c c').

(** [np.min(rows, axis=0)] and [np.max(rows, axis=0)] of a list of
    3-vectors; [numpy] raises [ValueError] on an empty list. *)
Definition np_min_axis0 (rows : list zvec3) : result zvec3 :=
  match rows with
  | [] => Raise ValueError
  | h :: t => Ok (fold_left (zv3map2 Z.min) t h)
  end.

Definition np_max_axis0 (rows : list zvec3) : result zvec3 :=
  match rows with
  | [] => Raise ValueError
  | h :: t => Ok (fold_left (zv3map2 Z.max) t h)
  end.

Section Tiles.

(** [s._tile_from_particle_change(p0, r0, t0, p1, r1, t1)]: the outer
    tile, the inner tile and the slice of the external model. *)
Variable Slice : Type.
Variable tile_from_particle_change :
  State -> vec3 -> Q -> Q -> vec3 -> Q -> Q -> Tile * Tile * Slice.

(** The tile of the loop body of [get_tile_from_multiple_particle_change]
    for one particle. *)
Definition particle_change_tile (s : State) (pt : particle) : Tile :=
  let '(tile, _, _) :=
    tile_from_particle_change s (ppos pt) (prad pt) (ptyp pt)
                              (ppos pt) (prad pt) (ptyp pt) in
  tile.

Fixpoint collect_tiles (s : State) (inds : list nat) : result (list Tile) :=
  match inds with
  | [] => Ok []
  | i :: rest =>
    match nth_error (obj s) i with
    | None => Raise IndexError
    | Some pt =>
      tiles <-r collect_tiles s rest ;;
      Ok (particle_change_tile s pt :: tiles)
    end
  end.

Definition get_tile_from_multiple_particle_change (s : State) (inds : list nat)
    : result Tile :=
  tiles <-r collect_tiles s inds ;;
  let all_left := map tile_l tiles in
  let all_right := map tile_r tiles in
  left <-r np_min_axis0 all_left ;;
  right <-r np_max_axis0 all_right ;;
  Ok (mkTile left right).

End Tiles.

(** ** The particle-local optimiser: [do_levmarq_particles] *)

(** The keyword arguments [eval_one_particle_grad] reads. *)
Record grad_kwargs : Type := mkGradKwargs {
  dl : Q;
  threept : bool;
  be_nice : bool
}.

Definition default_grad_kwargs : grad_kwargs :=
  mkGradKwargs (1 # 1000000) false false.

Definition update_one_particle_m (i : nat) (pos : vec3) (rad : Q)
    (relative fix_errors : bool) : M State unit :=
  modify (fun s => update_one_particle s i pos rad None relative fix_errors).

Definition axis_unit (a : axis) (x : Q) : vec3 :=
  match a with
  | Ax0 => (x, 0, 0)
  | Ax1 => (0, x, 0)
  | Ax2 => (0, 0, x)
  end.

Local Open Scope monad_scope.

(** The updates [eval_one_particle_grad] makes for one position axis:
    [+dx], then [-2*dx] and ([be_nice]) [+dx] with the 3-point stencil,
    or ([be_nice]) [-dx] with the 2-point one. *)
Definition perturb_pos (kw : grad_kwargs) (i : nat) (a : axis) : M State unit :=
  let dx := axis_unit a (1 * dl kw) in
  update_one_particle_m i dx 0 true false ;;;
  if threept kw then
    update_one_particle_m i (v3map (Qmult (-2)) dx) 0 true false ;;;
    if be_nice kw then update_one_particle_m i dx 0 true false else ret tt
  else
    if be_nice kw then update_one_particle_m i (v3map Qopp dx) 0 true false
    else ret tt.

(** The same for the radius. *)
Definition perturb_rad (kw : grad_kwargs) (i : nat) : M State unit :=
  let dr := dl kw in
  update_one_particle_m i (v3const 0) (1 * dr) true false ;;;
  if threept kw then
    update_one_particle_m i (v3const 0) (-2 * dr) true false ;;;
    if be_nice kw then update_one_particle_m i (v3const 0) dr true false else ret tt
  else
    if be_nice kw then update_one_particle_m i (v3const 0) (- dr) true false
    else ret tt.

(** The effect of [eval_one_particle_grad] on the particle table.
    [slicer_given] tells whether the caller passed a [slicer].  Without
    one, [mask] is bound only after the first update, and the 2-point
    stencil reads it before that, in
    [i0 = get_slicered_difference(s, slicer, mask)]: Python's
    [UnboundLocalError], which is a [NameError], raised before any
    update.  With the 3-point stencil the first update comes first and
    binds both.  The relative updates add [dl] and its multiples exactly
    here and with rounding in the code, so that the steps of [be_nice]
    cancel here and up to rounding there. *)
Definition eval_one_particle_grad_effect (kw : grad_kwargs) (slicer_given : bool)
    (i : nat) : M State unit :=
  if negb slicer_given && negb (threept kw) then raise NameError
  else
    perturb_pos kw i Ax0 ;;;
    perturb_pos kw i Ax1 ;;;
    perturb_pos kw i Ax2 ;;;
    perturb_rad kw i.

(** [eval_many_particle_grad(s, particles, **kwargs)]: the [slicer], if
    any, is among the keyword arguments handed on to every call. *)
Fixpoint eval_many_particle_grad_effect (kw : grad_kwargs) (slicer_given : bool)
    (particles : list nat) : M State unit :=
  match particles with
  | [] => ret tt
  | p :: rest =>
    eval_one_particle_grad_effect kw slicer_given p ;;;
    eval_many_particle_grad_effect kw slicer_given rest
  end.

(** [params[4*a:4*a+3]] and [params[4*a+3:4*a+4]]; the solver returns
    four entries per particle, and an entry that is missing reads as 0
    here. *)
Definition param_pos (params : list Q) (a : nat) : vec3 :=
  (nth (4 * a) params 0, nth (4 * a + 1) params 0, nth (4 * a + 2) params 0).
Definition param_rad (params : list Q) (a : nat) : Q :=
  nth (4 * a + 3) params 0.

(** The loop of [update_particles] over [xrange(particles.size)]. *)
Fixpoint update_particles_from (a : nat) (particles : list nat) (params : list Q)
    (relative fix_errors : bool) : M State unit :=
  match particles with
  | [] => ret tt
  | p :: rest =>
    update_one_particle_m p (param_pos params a) (param_rad params a)
                          relative fix_errors ;;;
    update_particles_from (S a) rest params relative fix_errors
  end.

(** [update_particles(s, particles, params, **kwargs)]: the particle
    updates, then the tile of the field update, whose [np.min] over an
    empty list raises; [s._update_tile] belongs to the external model. *)
Definition update_particles (particles : list nat) (params : list Q)
    (relative fix_errors : bool) : M State unit :=
  update_particles_from 0 particles params relative fix_errors ;;;
  match particles with
  | [] => raise ValueError
  | _ => ret tt
  end.

Definition warn : M State unit := fun s => (Ok tt, log_event s Warned).
Definition reset : M State unit := fun s => (Ok tt, log_event s ResetCalled).

(** The tolerance [1e-3] of the check after the rollback. *)
Definition rollback_tol : Q := 1 # 1000.

Section LevMarqParticles.

Variables Jac JTJ Grad Slice : Type.

(** [get_err(s)] as a function of the particle table: the model image
    is taken to follow the particles exactly. *)
Variable err_of : list particle -> Q.

Variable tile_from_particle_change :
  State -> vec3 -> Q -> Q -> vec3 -> Q -> Q -> Tile * Tile * Slice.

(** The matrix [eval_many_particle_grad] returns, from the particle
    table it starts from. *)
Variable eval_many_particle_grad_ext :
  list particle -> list nat -> Tile -> grad_kwargs -> Jac.

Variable j_to_jtj : Jac -> JTJ.

(** [np.dot(J, get_slicered_difference(s, dif_tile.slicer, mask))]. *)
Variable calc_grad_ext : list particle -> Jac -> Tile -> Grad.

Variable find_LM_updates : JTJ -> Grad -> Q -> list Q.

Definition PCache : Type := (Tile * Jac * JTJ)%type.
Definition PVars : Type := lm_vars PCache.

Definition get_err_p : M State Q := fun s => (Ok (err_of (obj s)), s).

(** [eval_many_particle_grad(s, particles, slicer=dif_tile.slicer,
    **kwargs)], as [do_levmarq_particles] calls it. *)
Definition eval_many_particle_grad (kw : grad_kwargs) (particles : list nat)
    (dif_tile : Tile) : M State Jac :=
  s0 <- get_state ;;
  eval_many_particle_grad_effect kw true particles ;;;
  ret (eval_many_particle_grad_ext (obj s0) particles dif_tile kw).

Definition calc_grad (J : Jac) (dif_tile : Tile) : M State Grad :=
  fun s => (Ok (calc_grad_ext (obj s) J dif_tile), s).

(** The nested [do_internal_run()] of [do_levmarq_particles]. *)
Fixpoint do_internal_run_p (run_length : nat) (particles : list nat) (c : PCache)
    (damp : Q) : M State unit :=
  match run_length with
  | O => ret tt
  | S rest =>
    let '(dif_tile, J, jtj) := c in
    new_grad <- calc_grad J dif_tile ;;
    let dnew := find_LM_updates jtj new_grad damp in
    old_err <- get_err_p ;;
    update_particles particles dnew true true ;;;
    new_err <- get_err_p ;;
    if Qltb old_err new_err
    then update_particles particles (vneg dnew) true true
    else do_internal_run_p rest particles c damp
  end.

Definition get_J_JTJ_p (kw : grad_kwargs) (particles : list nat) (v : PVars)
    : M State PCache :=
  if recalc_J v then
    dif_tile <- lift (fun s =>
                  get_tile_from_multiple_particle_change Slice
                    tile_from_particle_change s particles) ;;
    J <- eval_many_particle_grad kw particles dif_tile ;;
    ret (dif_tile, J, j_to_jtj J)
  else
    match cache v with
    | Some c => ret c
    | None => raise NameError
    end.

(** The bad-step branch: undo both updates with [-d1md0-d0], check the
    error, then the bookkeeping. *)
Definition bad_step_p (particles : list nat) (err_start err0 err1 : Q)
    (d0 d1md0 : list Q) (c : PCache) (v : PVars) : M State PVars :=
  update_particles particles (vsub (vneg d1md0) d0) true false ;;;
  err_back <- get_err_p ;;
  (if Qltb (err_start + rollback_tol) err_back
   then warn ;;; reset
   else ret tt) ;;;
  lift (fun _ => after_bad_step err0 err1 c v).

(** The choice between the two trial steps in the [else] branch. *)
Definition keep_better_p (particles : list nat) (d1md0 : list Q) (err0 err1 : Q)
    (v : PVars) : M State Q :=
  if Qltb err0 err1 then
    update_particles particles d1md0 true false ;;;
    ret (damp v)
  else
    ret (damp v * ddamp v).

Definition good_step_p (do_run : bool) (run_length : nat) (particles : list nat)
    (d1md0 : list Q) (err0 err1 : Q) (c : PCache) (v : PVars) : M State PVars :=
  damp' <- keep_better_p particles d1md0 err0 err1 v ;;
  (if do_run then do_internal_run_p run_length particles c damp' else ret tt) ;;;
  ret (mkVars damp' (ddamp v) true (counter v + 1) (Some c)).

(** The body of [while counter < num_iter]. *)
Definition particles_iteration (kw : grad_kwargs) (do_run : bool)
    (run_length : nat) (particles : list nat) (v : PVars) : M State PVars :=
  err_start <- get_err_p ;;
  c <- get_J_JTJ_p kw particles v ;;
  let '(dif_tile, J, jtj) := c in
  grad <- calc_grad J dif_tile ;;
  let d0 := find_LM_updates jtj grad (damp v) in
  let d1 := find_LM_updates jtj grad (damp v * ddamp v) in
  update_particles particles d0 true true ;;;
  err0 <- get_err_p ;;
  let d1md0 := vsub d1 d0 in
  update_particles particles d1md0 true true ;;;
  err1 <- get_err_p ;;
  if Qltb err_start (qmin err0 err1)
  then bad_step_p particles err_start err0 err1 d0 d1md0 c v
  else good_step_p do_run run_length particles d1md0 err0 err1 c v.

Fixpoint particles_loop (fuel : nat) (kw : grad_kwargs) (num_iter : Z)
    (do_run : bool) (run_length : nat) (particles : list nat) (v : PVars)
    (s : State) : option (result unit * State) :=
  if Qltb (counter v) (inject_Z num_iter) then
    match fuel with
    | O => None
    | S fuel' =>
      match particles_iteration kw do_run run_length particles v s with
      | (Ok v', s') =>
        particles_loop fuel' kw num_iter do_run run_length particles v' s'
      | (Raise e, s') => Some (Raise e, s')
      end
    end
  else Some (Ok tt, s).

(** [do_levmarq_particles(s, particles, damp, ddamp, num_iter, do_run,
    run_length, **kwargs)]. *)
Definition do_levmarq_particles (fuel : nat) (particles : list nat)
    (damp ddamp : Q) (num_iter : Z) (do_run : bool) (run_length : Z)
    (kw : grad_kwargs) (s : State) : option (result unit * State) :=
  particles_loop fuel kw num_iter do_run (Z.to_nat run_length) particles
    (mkVars damp ddamp true 0 None) s.

End LevMarqParticles.

(** ** The line search: [do_line_min] *)

(** What [scipy.optimize.minimize_scalar] did: the steps at which it
    called the objective, in order, and [res.x], [res.fun] or the
    exception it raised. *)
Record brent_run : Type := mkBrentRun {
  brent_evals : list Q;
  brent_res : result (Q * Q)
}.

(** The state of the model together with the steps at which [for_min]
    has been called, oldest first. *)
Record LState (Rng : Type) : Type := mkLState {
  model : GState Rng;
  evaluated : list Q
}.

Arguments mkLState {Rng}.
Arguments model {Rng}.
Arguments evaluated {Rng}.

Section LineMin.

Variable Rng : Type.
Variable err_of : list Q -> Q.

(** [minimize_scalar(for_min, bracket=bracket, method='Brent',
    options={'maxiter': maxiter})], given the objective as a function of
    the step. *)
Variable minimize_scalar_ext : (Q -> Q) -> list Q -> Z -> brent_run.

Definition vscale (x : Q) (v : list Q) : list Q := map (Qmult x) v.

(** [for_min(x)]: [update_state_global(s, block, p0 + x*vec)] and then
    [get_err(s)]. *)
Definition for_min (p0 vec : list Q) (x : Q) : M (LState Rng) Q :=
  fun ls =>
    match update_state_global Rng (vadd p0 (vscale x vec)) (model ls) with
    | (Ok _, m) => (Ok (err_of (gparams m)), mkLState m (evaluated ls ++ [x]))
    | (Raise e, m) => (Raise e, mkLState m (evaluated ls))
    end.

(** The objective as a function of the step alone. *)
Definition line_objective (p0 vec : list Q) (x : Q) : Q :=
  err_of (vadd p0 (vscale x vec)).

(** The loops [while run: start *= 3; new = for_min(start);
    run = new < old]; the result is the final [start], or [None] when
    the fuel runs out. *)
Fixpoint extend_bracket (fuel : nat) (p0 vec : list Q) (start old : Q)
    (ls : LState Rng) : option (result Q * LState Rng) :=
  match fuel with
  | O => None
  | S fuel' =>
    let start' := start * 3 in
    match for_min p0 vec start' ls with
    | (Ok new, ls') =>
      if Qltb new old then extend_bracket fuel' p0 vec start' old ls'
      else Some (Ok start', ls')
    | (Raise e, ls') => Some (Raise e, ls')
    end
  end.

(** The search for a bracket, from the three first evaluations on. *)
Definition find_bracket (fuel : nat) (p0 vec : list Q) (b0 b1 cnt_val : Q)
    (ls : LState Rng) : option (result (list Q) * LState Rng) :=
  if Qltb (qmin b0 b1) cnt_val then
    if Qltb b0 b1 then
      match extend_bracket fuel p0 vec (-2) b0 ls with
      | Some (Ok start, ls') => Some (Ok [start; -2; 0], ls')
      | Some (Raise e, ls') => Some (Raise e, ls')
      | None => None
      end
    else
      match extend_bracket fuel p0 vec 2 b1 ls with
      | Some (Ok start, ls') => Some (Ok [0; 2; start], ls')
      | Some (Raise e, ls') => Some (Raise e, ls')
      | None => None
      end
  else Some (Ok [-2; 0; 2], ls).

(** The calls of [for_min] the minimiser makes. *)
Fixpoint replay_evals (p0 vec : list Q) (xs : list Q) : M (LState Rng) unit :=
  match xs with
  | [] => ret tt
  | x :: rest => for_min p0 vec x ;;; replay_evals p0 vec rest
  end.

(** The minimisation and the final test on [res.fun]. *)
Definition minimize_and_check (p0 vec : list Q) (start_err : Q) (bracket : list Q)
    (maxiter : Z) : M (LState Rng) unit :=
  let run := minimize_scalar_ext (line_objective p0 vec) bracket maxiter in
  replay_evals p0 vec (brent_evals run) ;;;
  match brent_res run with
  | Raise e => raise e
  | Ok (res_x, res_fun) =>
    if Qleb res_fun start_err
    then for_min p0 vec res_x ;;; ret tt
    else raise RuntimeError
  end.

Definition first_three (p0 vec : list Q) : M (LState Rng) (Q * Q * Q) :=
  b0 <- for_min p0 vec (-2) ;;
  b1 <- for_min p0 vec 2 ;;
  cnt_val <- for_min p0 vec 0 ;;
  ret (b0, b1, cnt_val).

(** [do_line_min(s, block, vec, maxiter)]. *)
Definition do_line_min (fuel : nat) (vec : list Q) (maxiter : Z)
    (ls : LState Rng) : option (result unit * LState Rng) :=
  let start_err := err_of (gparams (model ls)) in
  let p0 := gparams (model ls) in
  match first_three p0 vec ls with
  | (Raise e, ls1) => Some (Raise e, ls1)
  | (Ok (b0, b1, cnt_val), ls1) =>
    match find_bracket fuel p0 vec b0 b1 cnt_val ls1 with
    | None => None
    | Some (Raise e, ls2) => Some (Raise e, ls2)
    | Some (Ok bracket, ls2) =>
      Some (minimize_and_check p0 vec start_err bracket maxiter ls2)
    end
  end.

End LineMin.

(** ** Finite differences and the normal equations

    The functions [do_levmarq] and [do_conj_grad_jtj] take their
    Jacobian and their update from.  The state is the parameter vector
    [s.state]; the difference image is a function of it, given
    flattened.  A block of [s.explode(block)] is a mask with one entry
    set and is given by the index of that entry; an index outside the
    vector stands for a mask with no entry set, which selects and
    updates nothing. *)

Module Numerics.

(** [np.dot] of two vectors and [np.sum]. *)
Fixpoint dot (u v : list Q) : Q :=
  match u, v with
  | a :: u', b :: v' => a * b + dot u' v'
  | _, _ => 0
  end.

Definition np_sum (v : list Q) : Q := fold_right Qplus 0 v.

(** [j_to_jtj(J) = np.dot(J, J.T)], [J] given by its rows, one per
    parameter. *)
Definition j_to_jtj (J : list (list Q)) : list (list Q) :=
  map (fun row_i => map (fun row_j => dot row_i row_j) J) J.

(** [np.dot(J, err)]. *)
Definition mat_vec (J : list (list Q)) (v : list Q) : list Q :=
  map (fun row => dot row v) J.

(** The keyword defaults of [eval_deriv]: [dl=1e-8], 2-point, not
    [be_nice]. *)
Definition default_deriv_kwargs : grad_kwargs :=
  mkGradKwargs (1 # 100000000) false false.

Section Model.

Variable Inds : Type.

(** [s.get_difference_image()] for the state vector given. *)
Variable difference_image : list Q -> list Q.

(** [im[inds[0], inds[1], inds[2]].ravel()]. *)
Variable take : Inds -> list Q -> list Q.

(** [get_err(s)]. *)
Definition get_err (p : list Q) : Q :=
  let d := difference_image p in
  np_sum (vmap2 Qmult d d).

(** [eval_deriv(s, block, dl, be_nice, threept)]. *)
Definition eval_deriv (kw : grad_kwargs) (b : nat) : M (list Q) (list Q) :=
  fun p =>
    let i0 := difference_image p in
    let p0 := nth b p 0 in
    let p1 := list_set p b (p0 + dl kw) in
    let i1 := difference_image p1 in
    if threept kw then
      let p2 := list_set p1 b (p0 - dl kw) in
      let i2 := difference_image p2 in
      let deriv := map (fun x => (1 # 2) * x / dl kw) (vsub i1 i2) in
      (Ok deriv, if be_nice kw then list_set p2 b p0 else p2)
    else
      let deriv := map (fun x => x / dl kw) (vsub i1 i0) in
      (Ok deriv, if be_nice kw then list_set p1 b p0 else p1).

(** [calculate_J_approx(s, blocks, inds, **kwargs)]. *)
Fixpoint calculate_J_approx (kw : grad_kwargs) (blocks : list nat) (inds : Inds)
    : M (list Q) (list (list Q)) :=
  match blocks with
  | [] => ret []
  | b :: rest =>
    bind (eval_deriv kw b) (fun a_der =>
    bind (calculate_J_approx kw rest inds) (fun rows =>
    ret (take inds a_der :: rows)))
  end.

End Model.

(** [np.diag(JTJ)] and the matrix [JTJ + damp*np.diagflat(np.diag(JTJ))]
    that [find_LM_updates] hands to [np.linalg.lstsq]. *)
Fixpoint diag_from (i : nat) (A : list (list Q)) : list Q :=
  match A with
  | [] => []
  | row :: rest => nth i row 0 :: diag_from (S i) rest
  end.

Definition np_diag (A : list (list Q)) : list Q := diag_from 0 A.

Definition damped_entry (damp : Q) (d : list Q) (i j : nat) (x : Q) : Q :=
  x + damp * (if Nat.eqb i j then nth i d 0 else 0).

Fixpoint mapi_from {A B : Type} (f : nat -> A -> B) (i : nat) (l : list A) : list B :=
  match l with
  | [] => []
  | x :: rest => f i x :: mapi_from f (S i) rest
  end.

Definition damped_matrix (JTJ : list (list Q)) (damp : Q) : list (list Q) :=
  let d := np_diag JTJ in
  mapi_from (fun i row => mapi_from (fun j x => damped_entry damp d i j x) 0 row)
            0 JTJ.

Section Solve.

(** [np.linalg.lstsq(A, b, rcond)[0]]. *)
Variable lstsq : list (list Q) -> list Q -> Q -> list Q.

(** [find_LM_updates(JTJ, grad, damp, min_eigval)]. *)
Definition find_LM_updates (JTJ : list (list Q)) (grad : list Q) (damp min_eigval : Q)
    : list Q :=
  lstsq (damped_matrix JTJ damp) (vneg grad) min_eigval.

End Solve.

End Numerics.

(** ** Conjugate-gradient descent: [do_conj_grad_jtj] *)

(** [evals.max()]; [numpy] raises [ValueError] on an empty array. *)
Definition np_max_list (l : list Q) : result Q :=
  match l with
  | [] => Raise ValueError
  | h :: t => Ok (fold_left qmax t h)
  end.

(** [xrange(n-1, -1, -1)]. *)
Definition xrange_down (n : nat) : list nat := rev (seq 0 n).

Section ConjGrad.

Variables Jac Inds JTJ Rng : Type.
Variable err_of : list Q -> Q.
Variable get_rand_Japprox_ext :
  Rng -> list Q -> num -> (Jac * Inds) * list Q * Rng.
Variable j_to_jtj : Jac -> JTJ.

(** [calc_im_grad(s, J, inds)], here with its entries. *)
Variable calc_im_grad_ext : list Q -> Jac -> Inds -> list Q.

(** [np.linalg.eigh(JTJ)]: the eigenvalues, and the eigenvectors
    [evecs[:,a]] in the same order. *)
Variable eigh : JTJ -> list Q * list (list Q).

Variable minimize_scalar_ext : (Q -> Q) -> list Q -> Z -> brent_run.

(** [evecs[:,a] * 0.5*np.dot(-grad, evecs[:,a])/evals[a]].  In floats a
    zero eigenvalue that passes the test gives a direction that is not a
    number; the division here is the one of [Q]. *)
Definition cur_vec (grad : list Q) (evals : list Q) (evecs : list (list Q))
    (a : nat) : list Q :=
  let col := nth a evecs [] in
  map (fun e => e * (1 # 2) * Numerics.dot (vneg grad) col / nth a evals 0) col.

(** The loop over [a] of one sweep. *)
Fixpoint sweep_directions (fuel : nat) (idxs : list nat) (grad evals : list Q)
    (evecs : list (list Q)) (min_eigval : Q) (maxiter : Z) (ls : LState Rng)
    : option (result unit * LState Rng) :=
  match idxs with
  | [] => Some (Ok tt, ls)
  | a :: rest =>
    match np_max_list evals with
    | Raise e => Some (Raise e, ls)
    | Ok evals_max =>
      if Qltb (nth a evals 0) (min_eigval * evals_max) then
        sweep_directions fuel rest grad evals evecs min_eigval maxiter ls
      else
        match do_line_min Rng err_of minimize_scalar_ext fuel
                (cur_vec grad evals evecs a) maxiter ls with
        | None => None
        | Some (Raise e, ls') => Some (Raise e, ls')
        | Some (Ok _, ls') =>
          sweep_directions fuel rest grad evals evecs min_eigval maxiter ls'
        end
    end
  end.

(** The loop over [xrange(num_sweeps)]. *)
Fixpoint conj_grad_sweeps (fuel : nat) (num_sweeps : nat) (grad evals : list Q)
    (evecs : list (list Q)) (min_eigval : Q) (maxiter : Z) (ls : LState Rng)
    : option (result unit * LState Rng) :=
  match num_sweeps with
  | O => Some (Ok tt, ls)
  | S rest =>
    match sweep_directions fuel (xrange_down (length evals)) grad evals evecs
            min_eigval maxiter ls with
    | None => None
    | Some (Raise e, ls') => Some (Raise e, ls')
    | Some (Ok _, ls') =>
      conj_grad_sweeps fuel rest grad evals evecs min_eigval maxiter ls'
    end
  end.

(** The state [get_rand_Japprox] leaves, and the quantities
    [do_conj_grad_jtj] computes from it before the sweeps. *)
Definition after_Japprox (num_px : num) (s : GState Rng) : GState Rng :=
  snd (get_rand_Japprox Jac Inds Rng get_rand_Japprox_ext num_px s).

(** [do_conj_grad_jtj(s, block, min_eigval, num_sweeps, **kwargs)];
    [fuel] bounds the bracket search of every line minimisation. *)
Definition do_conj_grad_jtj (fuel : nat) (min_eigval : Q) (num_sweeps : Z)
    (kw : px_kwargs) (maxiter : Z) (ls : LState Rng)
    : option (result unit * LState Rng) :=
  let s := model ls in
  match get_num_px_jtj (inner_size s) (Z.of_nat (length (gparams s)))
          (decimate kw) (max_mem kw) (min_redundant kw) with
  | Raise e => Some (Raise e, ls)
  | Ok num_px =>
    match get_rand_Japprox Jac Inds Rng get_rand_Japprox_ext num_px s with
    | (Raise e, s1) => Some (Raise e, mkLState s1 (evaluated ls))
    | (Ok (J, inds), s1) =>
      let jtj := j_to_jtj J in
      let grad := calc_im_grad_ext (gparams s1) J inds in
      let '(evals, evecs) := eigh jtj in
      conj_grad_sweeps fuel (Z.to_nat num_sweeps) grad evals evecs min_eigval
        maxiter (mkLState s1 (evaluated ls))
    end
  end.

End ConjGrad.

(** ** The tile of the field update of [update_particles] *)

(** A corner of a tile as [update_particles] reads it: an entry may be
    [None]. *)
Definition ozvec3 : Type := (option Z * option Z * option Z)%type.

Definition or_default (d : Z) (x : option Z) : Z :=
  match x with Some v => v | None => d end.

(** [clean_up_tile(ar, left)]: a missing entry of a left corner becomes
    0, one of a right corner the extent of the image on that axis. *)
Definition clean_up_tile (shape : zvec3) (ar : ozvec3) (left : bool) : zvec3 :=
  let '(a, b, c) := ar in
  let '(s0, s1, s2) := shape in
  if left then (or_default 0 a, or_default 0 b, or_default 0 c)
  else (or_default s0 a, or_default s1 b, or_default s2 c).

Definition zv3map (f : Z -> Z) (v : zvec3) : zvec3 :=
  let '(a, b, c) := v in (f a, f b, f c).

(** [np.clip(x, lo, hi)] on integers. *)
Definition zclip (x lo hi : Z) : Z := Z.min (Z.max x lo) hi.

(** The outer and the inner tile [update_particles] hands to
    [s._update_tile], from the corners of the tiles the particle updates
    returned: [left = np.min(all_left, axis=0) - 1; left += left % 2;
    right = np.max(all_right, axis=0) + 1; right += right % 2], both
    clipped to [0, s.image.shape], and the inner tile one pixel inside. *)
Definition update_particles_tiles (shape : zvec3) (tiles : list (ozvec3 * ozvec3))
    : result (Tile * Tile) :=
  let all_left := map (fun t => clean_up_tile shape (fst t) true) tiles in
  let all_right := map (fun t => clean_up_tile shape (snd t) false) tiles in
  left <-r np_min_axis0 all_left ;;
  let left := zv3map (fun x => (x - 1)%Z) left in
  let left := zv3map (fun x => (x + x mod 2)%Z) left in
  right <-r np_max_axis0 all_right ;;
  let right := zv3map (fun x => (x + 1)%Z) right in
  let right := zv3map (fun x => (x + x mod 2)%Z) right in
  let left := zv3map2 (fun x s => zclip x 0 s) left shape in
  let right := zv3map2 (fun x s => zclip x 0 s) right shape in
  Ok (mkTile left right,
      mkTile (zv3map (fun x => (x + 1)%Z) left) (zv3map (fun x => (x - 1)%Z) right)).

(** ** All the particles, group by group: [do_levmarq_all_particle_groups] *)

(** [np.max(map(np.size, particle_groups))]; [numpy] raises [ValueError]
    when there is no group. *)
Definition np_max_sizes (groups : list (list nat)) : result Z :=
  match groups with
  | [] => Raise ValueError
  | g :: rest =>
    Ok (fold_left Z.max (map (fun h => Z.of_nat (length h)) rest)
          (Z.of_nat (length g)))
  end.

(** [region_size] as three numbers, [region_size -= 1] and
    [region_size += 1], [np.any(region_size > 2)] and
    [np.all(region_size < np.array(s.image.shape))], for an int and for
    a 3-element array. *)
Definition rs_vector (region_size : region_size_arg) : zvec3 :=
  match region_size with
  | RsInt n => (n, n, n)
  | RsList rs => rs
  end.

Definition rs_add (region_size : region_size_arg) (d : Z) : region_size_arg :=
  match region_size with
  | RsInt n => RsInt (n + d)
  | RsList (a, b, c) => RsList ((a + d)%Z, (b + d)%Z, (c + d)%Z)
  end.

Definition rs_any_gt (region_size : region_size_arg) (x : Z) : bool :=
  let '(a, b, c) := rs_vector region_size in
  (x <? a)%Z || (x <? b)%Z || (x <? c)%Z.

Definition rs_all_lt (region_size : region_size_arg) (shape : zvec3) : bool :=
  let '(a, b, c) := rs_vector region_size in
  let '(s0, s1, s2) := shape in
  (a <? s0)%Z && (b <? s1)%Z && (c <? s2)%Z.

Section AllParticleGroups.

Variables Jac JTJ Grad Slice : Type.
Variable err_of : list particle -> Q.
Variable tile_from_particle_change :
  State -> vec3 -> Q -> Q -> vec3 -> Q -> Q -> Tile * Tile * Slice.
Variable eval_many_particle_grad_ext :
  list particle -> list nat -> Tile -> grad_kwargs -> Jac.
Variable j_to_jtj : Jac -> JTJ.
Variable calc_grad_ext : list particle -> Jac -> Tile -> Grad.
Variable find_LM_updates : JTJ -> Grad -> Q -> list Q.

(** [s.pad], per axis (a number stands for three equal entries). *)
Variable pad : zvec3.

(** The nested [calc_mem_usage(region_size)]. *)
Definition calc_mem_usage (s : State) (bounds : option (zvec3 * zvec3))
    (region_size : region_size_arg) : result Q :=
  particle_groups <-r separate_particles_into_groups s region_size bounds ;;
  num_particles <-r np_max_sizes particle_groups ;;
  let '(a, b, c) := rs_vector region_size in
  let '(p0, p1, p2) := pad in
  let mem_per_part :=
    32 * (inject_Z (a + 2 * p0) * inject_Z (b + 2 * p1) * inject_Z (c + 2 * p2)) in
  Ok (inject_Z num_particles * mem_per_part).

(** [while calc_mem_usage(region_size) and np.any(region_size > 2):
    region_size -= 1]. *)
Fixpoint shrink_region (fuel : nat) (s : State) (bounds : option (zvec3 * zvec3))
    (region_size : region_size_arg) : option (result region_size_arg) :=
  match calc_mem_usage s bounds region_size with
  | Raise e => Some (Raise e)
  | Ok m =>
    if negb (Qeq_bool m 0) && rs_any_gt region_size 2 then
      match fuel with
      | O => None
      | S fuel' => shrink_region fuel' s bounds (rs_add region_size (-1))
      end
    else Some (Ok region_size)
  end.

(** [while calc_mem_usage(region_size) and np.all(region_size <
    np.array(s.image.shape)): region_size += 1]. *)
Fixpoint grow_region (fuel : nat) (s : State) (bounds : option (zvec3 * zvec3))
    (region_size : region_size_arg) : option (result region_size_arg) :=
  match calc_mem_usage s bounds region_size with
  | Raise e => Some (Raise e)
  | Ok m =>
    if negb (Qeq_bool m 0) && rs_all_lt region_size (image_shape s) then
      match fuel with
      | O => None
      | S fuel' => grow_region fuel' s bounds (rs_add region_size 1)
      end
    else Some (Ok region_size)
  end.

(** The block [if calc_region_size: ...]: the region size the groups are
    made with. *)
Definition choose_region_size (fuel : nat) (s : State)
    (bounds : option (zvec3 * zvec3)) (region_size : region_size_arg)
    (calc_region_size : bool) (max_mem : Q) : option (result region_size_arg) :=
  if calc_region_size then
    match calc_mem_usage s bounds region_size with
    | Raise e => Some (Raise e)
    | Ok m =>
      if Qltb max_mem m then shrink_region fuel s bounds region_size
      else
        match grow_region fuel s bounds region_size with
        | Some (Ok r) => Some (Ok (rs_add r (-1)))
        | other => other
        end
    end
  else Some (Ok region_size).

(** [for group in particle_groups: do_levmarq_particles(s, group,
    **kwargs); s.reset()]. *)
Fixpoint optimise_groups (fuel : nat) (groups : list (list nat))
    (damp ddamp : Q) (num_iter : Z) (do_run : bool) (run_length : Z)
    (kw : grad_kwargs) (s : State) : option (result unit * State) :=
  match groups with
  | [] => Some (Ok tt, s)
  | group :: rest =>
    match do_levmarq_particles Jac JTJ Grad Slice err_of tile_from_particle_change
            eval_many_particle_grad_ext j_to_jtj calc_grad_ext find_LM_updates
            fuel group damp ddamp num_iter do_run run_length kw s with
    | None => None
    | Some (Raise e, s') => Some (Raise e, s')
    | Some (Ok _, s') =>
      optimise_groups fuel rest damp ddamp num_iter do_run run_length kw
        (log_event s' ResetCalled)
    end
  end.

(** [do_levmarq_all_particle_groups(s, region_size, calc_region_size,
    max_mem, **kwargs)]; [fuel] bounds every loop.  The keyword
    arguments go to [separate_particles_into_groups] ([bounds]) and to
    [do_levmarq_particles]. *)
Definition do_levmarq_all_particle_groups (fuel : nat)
    (region_size : region_size_arg) (calc_region_size : bool) (max_mem : Q)
    (bounds : option (zvec3 * zvec3)) (damp ddamp : Q) (num_iter : Z)
    (do_run : bool) (run_length : Z) (kw : grad_kwargs) (s : State)
    : option (result unit * State) :=
  match choose_region_size fuel s bounds region_size calc_region_size max_mem with
  | None => None
  | Some (Raise e) => Some (Raise e, s)
  | Some (Ok region_size') =>
    match separate_particles_into_groups s region_size' bounds with
    | Raise e => Some (Raise e, s)
    | Ok particle_groups =>
      optimise_groups fuel particle_groups damp ddamp num_iter do_run run_length
        kw s
    end
  end.

End AllParticleGroups.

(** * Properties *)

(** ** Basic facts about the numeric helpers and containers *)

Lemma Qleb_le a b : Qleb a b = true <-> a <= b.
Proof. unfold Qleb. apply Qle_bool_iff. Qed.

Lemma Qltb_lt a b : Qltb a b = true <-> a < b.
Proof.
  unfold Qltb. rewrite negb_true_iff. split; intro H.
  - apply Qnot_le_lt. intro Hle. apply Qle_bool_iff in Hle. congruence.
  - destruct (Qle_bool b a) eqn:E; [|reflexivity].
    apply Qle_bool_iff in E. lra.
Qed.

Lemma Qltb_ge a b : Qltb a b = false <-> b <= a.
Proof.
  unfold Qltb. rewrite negb_false_iff. apply Qle_bool_iff.
Qed.

Lemma Qleb_gt a b : Qleb a b = false <-> b < a.
Proof.
  unfold Qleb. split; intro H.
  - apply Qnot_le_lt. intro Hle. apply Qle_bool_iff in Hle. congruence.
  - destruct (Qle_bool a b) eqn:E; [|reflexivity].
    apply Qle_bool_iff in E. lra.
Qed.

Lemma qmax_cases a b : (a < b /\ qmax a b = b) \/ (b <= a /\ qmax a b = a).
Proof.
  unfold qmax. destruct (Qltb a b) eqn:E.
  - left. apply Qltb_lt in E. auto.
  - right. apply Qltb_ge in E. auto.
Qed.

Lemma qmin_cases a b : (b < a /\ qmin a b = b) \/ (a <= b /\ qmin a b = a).
Proof.
  unfold qmin. destruct (Qltb b a) eqn:E.
  - left. apply Qltb_lt in E. auto.
  - right. apply Qltb_ge in E. auto.
Qed.


Lemma qclip_id x lo hi : lo <= x -> x <= hi -> qclip x lo hi = x.
Proof.
  intros H1 H2. unfold qclip.
  destruct (qmax_cases x lo) as [[? E]|[? E]]; rewrite E.
  - lra.
  - destruct (qmin_cases x hi) as [[? E2]|[? E2]]; rewrite E2; [lra|reflexivity].
Qed.


Lemma qclip_high x lo hi : lo <= hi -> hi < x -> qclip x lo hi = hi.
Proof.
  intros H1 H2. unfold qclip.
  destruct (qmax_cases x lo) as [[? E]|[? E]]; rewrite E.
  - destruct (qmin_cases lo hi) as [[? E2]|[? E2]]; rewrite E2; [reflexivity|].
    lra.
  - destruct (qmin_cases x hi) as [[? E2]|[? E2]]; rewrite E2; [reflexivity|lra].
Qed.

(** *** Facts about the pixel budget *)


Lemma inject_Z_pos (z : Z) : (0 < z)%Z -> 0 < inject_Z z.
Proof. intro H. unfold Qlt, inject_Z. simpl. lia. Qed.











(** What Python 2's [/] computes, against exact division. *)
Lemma py_div_spec (a b c : num) :
  py_div a b = Ok c ->
  ~ to_Q b == 0 /\
  match a, b with
  | Int x, Int y => c = Int (Qfloor (to_Q a / to_Q b))
  | _, _ => c = Float (to_Q a / to_Q b)
  end.
Proof.
  unfold py_div. destruct (num_is_zero b) eqn:Z0; [discriminate|].
  intro H. split.
  - destruct b as [y|y]; simpl in *.
    + apply Z.eqb_neq in Z0. intro E. apply Z0.
      unfold Qeq in E. simpl in E. lia.
    + intro E. apply Qeq_bool_iff in E. congruence.
  - destruct a as [x|x], b as [y|y]; inversion H; try reflexivity.
    simpl. rewrite Zdiv_Qdiv. reflexivity.
Qed.



Lemma coord_v3const x k : coord k (v3const x) = x.
Proof. destruct k; reflexivity. Qed.

Lemma coord_v3_of_z v k : coord k (v3_of_z v) = inject_Z (zcoord k v).
Proof. destruct v as [[? ?] ?], k; reflexivity. Qed.

Lemma v3any2_true f u v :
  v3any2 f u v = true <-> exists k, f (coord k u) (coord k v) = true.
Proof.
  destruct u as [[a b] c], v as [[a' b'] c']. simpl.
  rewrite !orb_true_iff. split.
  - intros [[H|H]|H]; [exists Ax0 | exists Ax1 | exists Ax2]; exact H.
  - intros [[| |] H]; simpl in H; auto.
Qed.

Lemma list_set_same {A} (l : list A) i x y :
  nth_error l i = Some y -> nth_error (list_set l i x) i = Some x.
Proof.
  revert i. induction l as [|h t IH]; intros [|j] H; simpl in *;
    try discriminate; auto.
Qed.

Lemma list_set_other {A} (l : list A) i j x :
  i <> j -> nth_error (list_set l i x) j = nth_error l j.
Proof.
  revert i j. induction l as [|h t IH]; intros [|i] [|j] H; simpl;
    try reflexivity; try congruence.
  apply IH. congruence.
Qed.

Lemma list_set_length {A} (l : list A) i x : length (list_set l i x) = length l.
Proof.
  revert i. induction l as [|h t IH]; intros [|i]; simpl; auto.
Qed.

(** *** Facts about [is_bad_update] and the clamping *)

Lemma is_bad_update_true shape p r :
  is_bad_update shape p r = true <->
  (exists k, coord k p < 0) \/ (exists k, inject_Z (zcoord k shape) < coord k p)
  \/ r < 0.
Proof.
  unfold is_bad_update. rewrite !orb_true_iff, !v3any2_true, Qltb_lt.
  split.
  - intros [[[k H]|[k H]]|H].
    + left. exists k. rewrite coord_v3const in H. apply Qltb_lt in H. exact H.
    + right. left. exists k. rewrite coord_v3_of_z in H. apply Qltb_lt in H. exact H.
    + right. right. exact H.
  - intros [[k H]|[[k H]|H]].
    + left. left. exists k. rewrite coord_v3const. apply Qltb_lt. exact H.
    + left. right. exists k. rewrite coord_v3_of_z. apply Qltb_lt. exact H.
    + right. exact H.
Qed.

Lemma is_bad_update_false shape p r :
  is_bad_update shape p r = false <->
  (forall k, 0 <= coord k p /\ coord k p <= inject_Z (zcoord k shape)) /\ 0 <= r.
Proof.
  split.
  - intro H. split; [intro k; split|].
    + apply Qnot_lt_le. intro C.
      assert (B : is_bad_update shape p r = true)
        by (apply is_bad_update_true; left; exists k; exact C).
      congruence.
    + apply Qnot_lt_le. intro C.
      assert (B : is_bad_update shape p r = true)
        by (apply is_bad_update_true; right; left; exists k; exact C).
      congruence.
    + apply Qnot_lt_le. intro C.
      assert (B : is_bad_update shape p r = true)
        by (apply is_bad_update_true; right; right; exact C).
      congruence.
  - intros [Hp Hr]. destruct (is_bad_update shape p r) eqn:B; [|reflexivity].
    apply is_bad_update_true in B.
    destruct B as [[k H]|[[k H]|H]]; try (destruct (Hp k)); lra.
Qed.



Lemma eps_pos : 0 < eps.
Proof. reflexivity. Qed.



Lemma update_one_particle_nofix s i pt pos rad typ relative :
  nth_error (obj s) i = Some pt ->
  update_one_particle s i pos rad typ relative false =
  if is_bad_update (image_shape s) (proposed_pos pt pos relative)
                   (proposed_rad pt rad relative)
  then Raise ValueError
  else Ok (set_obj s (list_set (obj s) i
             (mkParticle (proposed_pos pt pos relative)
                         (proposed_rad pt rad relative) (new_typ pt typ)))).
Proof.
  intro H. unfold update_one_particle. rewrite H.
  unfold proposed_pos, proposed_rad, new_typ. destruct relative; reflexivity.
Qed.


Lemma zcoord_zv3map2 f u v k :
  zcoord k (zv3map2 f u v) = f (zcoord k u) (zcoord k v).
Proof. destruct u as [[? ?] ?], v as [[? ?] ?], k; reflexivity. Qed.

(** ** The update of one particle and its errors *)


Definition one_particle_state : State :=
  mkState (10, 10, 10)%Z [mkParticle (5, 5, 5) 1 1] [].



(** End-to-end scenario 4: the position [(-1,5,5)] is refused without
    [fix_errors] and clipped to [1e-6] on the first axis with it. *)
Lemma update_one_particle_scenario4 :
  update_one_particle one_particle_state 0 (-1, 5, 5) 1 None false false
    = Raise ValueError
  /\ update_one_particle one_particle_state 0 (-1, 5, 5) 1 None false true
    = Ok (mkState (10, 10, 10)%Z [mkParticle (eps, 5, 5) 1 1] []).
Proof. split; reflexivity. Qed.


(** ** The pixel budget *)






(** End-to-end scenario 3: [maxMem=1e3, minRedundant=1e6, nparams=10]. *)
Lemma get_num_px_jtj_scenario3 :
  get_num_px_jtj 1000 10 default_decimate (Float 1000) (Float 1000000)
  = Raise RuntimeError.
Proof. reflexivity. Qed.

(** ** The global optimiser *)

Section LevMarqFacts.

Variables Jac Inds JTJ Grad Rng : Type.
Variable err_of : list Q -> Q.
Variable get_rand_Japprox_ext :
  Rng -> list Q -> num -> (Jac * Inds) * list Q * Rng.
Variable j_to_jtj : Jac -> JTJ.
Variable calc_im_grad_ext : list Q -> Jac -> Inds -> Grad.
Variable find_LM_updates : JTJ -> Grad -> Q -> list Q.

Definition set_gparams (s : GState Rng) (p : list Q) : GState Rng :=
  mkGState p (supported s) (inner_size s) (rng s).

Definition lm_iteration :=
  levmarq_iteration Jac Inds JTJ Grad Rng err_of get_rand_Japprox_ext j_to_jtj
    calc_im_grad_ext find_LM_updates.
Definition lm_loop :=
  levmarq_loop Jac Inds JTJ Grad Rng err_of get_rand_Japprox_ext j_to_jtj
    calc_im_grad_ext find_LM_updates.
Definition lm_cache :=
  get_J_JTJ_grad Jac Inds JTJ Grad Rng get_rand_Japprox_ext j_to_jtj
    calc_im_grad_ext.
Definition lm_run :=
  do_internal_run Jac Inds JTJ Grad Rng err_of calc_im_grad_ext find_LM_updates.
Definition lm_d0 := trial_d0 Jac Inds JTJ Grad find_LM_updates.
Definition lm_d1 := trial_d1 Jac Inds JTJ Grad find_LM_updates.

Lemma update_state_global_ok (s : GState Rng) (data : list Q) :
  supported s = true ->
  update_state_global Rng data s = (Ok tt, set_gparams s data).
Proof.
  intro H. destruct s as [p b n g]. simpl in H. subst b. reflexivity.
Qed.

Lemma lm_cache_supported num_px v s c s1 :
  lm_cache num_px v s = (Ok c, s1) ->
  supported s1 = supported s /\ inner_size s1 = inner_size s.
Proof.
  unfold lm_cache, get_J_JTJ_grad. destruct (recalc_J v).
  - unfold bind, get_rand_Japprox, calc_im_grad, ret.
    destruct (get_rand_Japprox_ext (rng s) (gparams s) num_px) as [[[J inds] p] g].
    intro H. inversion H. subst. split; reflexivity.
  - destruct (cache v); unfold ret, raise; intro H; inversion H; subst.
    split; reflexivity.
Qed.

(** One iteration, once the Jacobian is at hand: the two trial errors
    are the errors at [p0 + d0] and [p0 + d1], and the branch is taken
    from the state that holds [p0 + d1]. *)
Lemma lm_iteration_unfold num_px do_run run_length v s c s1 :
  supported s = true ->
  lm_cache num_px v s = (Ok c, s1) ->
  let p0 := gparams s in
  let err_start := err_of p0 in
  let err0 := err_of (vadd p0 (lm_d0 c v)) in
  let err1 := err_of (vadd p0 (lm_d1 c v)) in
  lm_iteration num_px do_run run_length v s =
  if Qltb err_start (qmin err0 err1)
  then (after_bad_step err0 err1 c v, set_gparams s1 p0)
  else good_step Jac Inds JTJ Grad Rng err_of calc_im_grad_ext find_LM_updates
         do_run run_length p0 (lm_d0 c v) err0 err1 c v
         (set_gparams s1 (vadd p0 (lm_d1 c v))).
Proof.
  intros Hs Hc p0 err_start err0 err1.
  destruct (lm_cache_supported _ _ _ _ _ Hc) as [Hs1 _].
  rewrite Hs in Hs1.
  unfold lm_iteration, levmarq_iteration.
  unfold bind at 1. unfold get_block at 1. cbv iota beta.
  unfold bind at 1. unfold get_err at 1. cbv iota beta.
  unfold bind at 1. fold lm_cache. rewrite Hc.
  destruct c as [[[J inds] jtj] grad]. cbv iota beta.
  unfold bind at 1. rewrite (update_state_global_ok s1 _ Hs1).
  unfold bind at 1. unfold get_err at 1. cbv iota beta.
  unfold bind at 1. rewrite update_state_global_ok by exact Hs1.
  unfold bind at 1. unfold get_err at 1. cbv iota beta.
  change ((if Qltb err_start (qmin err0 err1)
           then bad_step Jac Inds JTJ Grad Rng p0 err0 err1 (J, inds, jtj, grad) v
           else good_step Jac Inds JTJ Grad Rng err_of calc_im_grad_ext
                  find_LM_updates do_run run_length p0
                  (lm_d0 (J, inds, jtj, grad) v) err0 err1 (J, inds, jtj, grad) v)
            (set_gparams s1 (vadd p0 (lm_d1 (J, inds, jtj, grad) v))) =
          (if Qltb err_start (qmin err0 err1)
           then (after_bad_step err0 err1 (J, inds, jtj, grad) v, set_gparams s1 p0)
           else good_step Jac Inds JTJ Grad Rng err_of calc_im_grad_ext
                  find_LM_updates do_run run_length p0
                  (lm_d0 (J, inds, jtj, grad) v) err0 err1 (J, inds, jtj, grad) v
                  (set_gparams s1 (vadd p0 (lm_d1 (J, inds, jtj, grad) v))))).
  destruct (Qltb err_start (qmin err0 err1)); [|reflexivity].
  unfold bad_step, bind, lift.
  rewrite update_state_global_ok by exact Hs1. reflexivity.
Qed.

Lemma keep_better_unfold p0 d0 err0 err1 (v : Vars Jac Inds JTJ Grad) (s2 : GState Rng) :
  supported s2 = true ->
  keep_better Jac Inds JTJ Grad Rng p0 d0 err0 err1 v s2 =
  if Qltb err0 err1 then (Ok (damp v), set_gparams s2 (vadd p0 d0))
  else (Ok (damp v * ddamp v), s2).
Proof.
  intro H. unfold keep_better. destruct (Qltb err0 err1); [|reflexivity].
  unfold bind. rewrite update_state_global_ok by exact H. reflexivity.
Qed.

(** The internal run never raises on a supported state, keeps the
    random state, and leaves an error no larger than the one it found:
    a step that increases the error is put back. *)
Lemma lm_run_descends n J inds jtj dmp (s : GState Rng) :
  supported s = true ->
  exists s', lm_run n J inds jtj dmp s = (Ok tt, s')
             /\ supported s' = true
             /\ inner_size s' = inner_size s
             /\ err_of (gparams s') <= err_of (gparams s).
Proof.
  revert s. induction n as [|n IH]; intros s Hs.
  - exists s. repeat split; try assumption. apply Qle_refl.
  - unfold lm_run in *. simpl.
    unfold bind at 1. unfold calc_im_grad at 1. cbv iota beta.
    unfold bind at 1. unfold get_block at 1. cbv iota beta.
    unfold bind at 1. unfold get_err at 1. cbv iota beta.
    unfold bind at 1. rewrite update_state_global_ok by exact Hs.
    unfold bind at 1. unfold get_err at 1. cbv iota beta.
    set (dnew := find_LM_updates jtj _ dmp).
    change (gparams (set_gparams s (vadd (gparams s) dnew)))
      with (vadd (gparams s) dnew).
    destruct (Qltb (err_of (gparams s)) (err_of (vadd (gparams s) dnew))) eqn:C.
    + rewrite update_state_global_ok by exact Hs.
      eexists. split; [reflexivity|]. repeat split; try assumption.
      simpl. apply Qle_refl.
    + apply Qltb_ge in C.
      destruct (IH (set_gparams s (vadd (gparams s) dnew)) Hs)
        as (s' & E & Hs' & Hn & Hle).
      exists s'. split; [exact E|]. repeat split; try assumption.
      simpl in Hle. lra.
Qed.

(** Whatever one iteration returns, on a supported state it leaves an
    error no larger than the one it started from. *)
Lemma lm_iteration_descends num_px do_run run_length v (s : GState Rng) r s' :
  supported s = true ->
  lm_iteration num_px do_run run_length v s = (r, s') ->
  supported s' = true /\ err_of (gparams s') <= err_of (gparams s).
Proof.
  intros Hs H.
  destruct (lm_cache num_px v s) as [[c|e] s1] eqn:Hc.
  - rewrite (lm_iteration_unfold _ _ _ _ _ _ _ Hs Hc) in H.
    destruct (lm_cache_supported _ _ _ _ _ Hc) as [Hs1 _]. rewrite Hs in Hs1.
    cbv zeta in H.
    destruct (Qltb (err_of (gparams s))
                (qmin (err_of (vadd (gparams s) (lm_d0 c v)))
                      (err_of (vadd (gparams s) (lm_d1 c v))))) eqn:C.
    + inversion H; subst. split; [exact Hs1|]. simpl. apply Qle_refl.
    + apply Qltb_ge in C.
      unfold good_step in H. unfold bind at 1 in H.
      rewrite keep_better_unfold in H by exact Hs1.
      destruct c as [[[J inds] jtj] grad].
      set (err0 := err_of (vadd (gparams s) (lm_d0 (J, inds, jtj, grad) v))) in *.
      set (err1 := err_of (vadd (gparams s) (lm_d1 (J, inds, jtj, grad) v))) in *.
      assert (K : exists dmp s2, supported s2 = true
                  /\ err_of (gparams s2) <= err_of (gparams s)
                  /\ bind (if do_run
                           then do_internal_run Jac Inds JTJ Grad Rng err_of
                                  calc_im_grad_ext find_LM_updates run_length
                                  J inds jtj dmp
                           else ret tt)
                          (fun _ => ret (mkVars dmp (ddamp v) true (counter v + 1)
                                           (Some (J, inds, jtj, grad)))) s2
                      = (r, s')).
      { destruct (Qltb err0 err1) eqn:D.
        - apply Qltb_lt in D. eexists. eexists. split; [|split; [|exact H]].
          + exact Hs1.
          + change (err0 <= err_of (gparams s)).
            destruct (qmin_cases err0 err1) as [[? E]|[? E]]; rewrite E in C; lra.
        - apply Qltb_ge in D. eexists. eexists. split; [|split; [|exact H]].
          + exact Hs1.
          + change (err1 <= err_of (gparams s)).
            destruct (qmin_cases err0 err1) as [[? E]|[? E]]; rewrite E in C; lra. }
      destruct K as (dmp & s2 & Hs2 & Hle & K).
      unfold bind in K. destruct do_run.
      * destruct (lm_run_descends run_length J inds jtj dmp s2 Hs2)
          as (s3 & E & Hs3 & _ & Hle3).
        unfold lm_run in E. rewrite E in K. unfold ret in K.
        inversion K; subst. split; [exact Hs3 | lra].
      * unfold ret in K. inversion K; subst. split; [exact Hs2 | exact Hle].
  - unfold lm_iteration, levmarq_iteration in H.
    unfold bind at 1 in H. unfold get_block at 1 in H. cbv iota beta in H.
    unfold bind at 1 in H. unfold get_err at 1 in H. cbv iota beta in H.
    unfold bind at 1 in H. fold lm_cache in H. rewrite Hc in H.
    inversion H; subst.
    unfold lm_cache, get_J_JTJ_grad in Hc.
    destruct (recalc_J v).
    + unfold bind, get_rand_Japprox, calc_im_grad, ret in Hc.
      destruct (get_rand_Japprox_ext (rng s) (gparams s) num_px) as [[[J inds] p] g].
      discriminate.
    + destruct (cache v); unfold ret, raise in Hc; inversion Hc; subst.
      split; [exact Hs | apply Qle_refl].
Qed.

Lemma lm_loop_descends num_px num_iter do_run run_length fuel v (s : GState Rng) r s' :
  supported s = true ->
  lm_loop fuel num_px num_iter do_run run_length v s = Some (r, s') ->
  err_of (gparams s') <= err_of (gparams s).
Proof.
  revert v s. induction fuel as [|fuel IH]; intros v s Hs H.
  - simpl in H. destruct (Qltb (counter v) (inject_Z num_iter)); [discriminate|].
    inversion H; subst. apply Qle_refl.
  - unfold lm_loop in *. simpl in H.
    destruct (Qltb (counter v) (inject_Z num_iter)).
    + fold lm_iteration in H.
      destruct (lm_iteration num_px do_run run_length v s) as [[v'|e] s1] eqn:E.
      * destruct (lm_iteration_descends _ _ _ _ _ _ _ Hs E) as [Hs1 Hle].
        pose proof (IH v' s1 Hs1 H). lra.
      * destruct (lm_iteration_descends _ _ _ _ _ _ _ Hs E) as [Hs1 Hle].
        inversion H; subst. exact Hle.
    + inversion H; subst. apply Qle_refl.
Qed.

Lemma lm_good_step_returns do_run run_length p0 d0 err0 err1 c v (s2 : GState Rng) :
  supported s2 = true ->
  exists s', good_step Jac Inds JTJ Grad Rng err_of calc_im_grad_ext find_LM_updates
               do_run run_length p0 d0 err0 err1 c v s2
             = (Ok (mkVars (if Qltb err0 err1 then damp v else damp v * ddamp v)
                           (ddamp v) true (counter v + 1) (Some c)), s').
Proof.
  intro Hs. unfold good_step. unfold bind at 1.
  rewrite keep_better_unfold by exact Hs.
  destruct c as [[[J inds] jtj] grad].
  destruct (Qltb err0 err1); unfold bind; destruct do_run.
  - destruct (lm_run_descends run_length J inds jtj (damp v)
                (set_gparams s2 (vadd p0 d0)) Hs) as (s3 & E & _).
    unfold lm_run in E. rewrite E. eexists. reflexivity.
  - eexists. reflexivity.
  - destruct (lm_run_descends run_length J inds jtj (damp v * ddamp v) s2 Hs)
      as (s3 & E & _).
    unfold lm_run in E. rewrite E. eexists. reflexivity.
  - eexists. reflexivity.
Qed.

Lemma qmin_gt_iff a b c : c < qmin a b <-> c < a /\ c < b.
Proof.
  destruct (qmin_cases a b) as [[? ->]|[? ->]]; split; intros; try split; lra.
Qed.

(** C4: in [do_levmarq], on a state whose parameter set is supported and
    with the Jacobian at hand, an iteration whose two trial errors both
    exceed [err_start] puts the free parameters back to the snapshot
    [p0], sets [recalc_J] to false (so that the next iteration reuses the
    same J, JTJ and gradient without touching the state), adds 0.1 to the
    counter, and replaces [ddamp] by [1/ddamp] when [err0 < err1] and
    multiplies [damp] by [ddamp*ddamp] otherwise; every other iteration
    adds 1 to the counter and sets [recalc_J]; the loop body runs exactly
    when the counter is below [num_iter]. *)
Theorem do_levmarq_bad_step_bookkeeping
    num_px num_iter do_run run_length v (s : GState Rng) c s1 :
  supported s = true ->
  lm_cache num_px v s = (Ok c, s1) ->
  let p0 := gparams s in
  let err_start := err_of p0 in
  let err0 := err_of (vadd p0 (lm_d0 c v)) in
  let err1 := err_of (vadd p0 (lm_d1 c v)) in
  (err_start < err0 -> err_start < err1 ->
   exists s',
     gparams s' = p0
     /\ (err0 < err1 -> ~ ddamp v == 0 ->
         lm_iteration num_px do_run run_length v s =
         (Ok (mkVars (damp v) (1 / ddamp v) false (counter v + (1 # 10)) (Some c)),
          s'))
     /\ (err1 <= err0 ->
         lm_iteration num_px do_run run_length v s =
         (Ok (mkVars (damp v * (ddamp v * ddamp v)) (ddamp v) false
                     (counter v + (1 # 10)) (Some c)), s')))
  /\ (forall v' s2, recalc_J v' = false -> cache v' = Some c ->
      lm_cache num_px v' s2 = (Ok c, s2))
  /\ (~ (err_start < err0 /\ err_start < err1) ->
      exists v' s',
        lm_iteration num_px do_run run_length v s = (Ok v', s')
        /\ counter v' = counter v + 1 /\ recalc_J v' = true)
  /\ (forall fuel,
      lm_loop (S fuel) num_px num_iter do_run run_length v s =
      if Qltb (counter v) (inject_Z num_iter) then
        match lm_iteration num_px do_run run_length v s with
        | (Ok v', s') => lm_loop fuel num_px num_iter do_run run_length v' s'
        | (Raise e, s') => Some (Raise e, s')
        end
      else Some (Ok tt, s))
  /\ (forall fuel, inject_Z num_iter <= counter v ->
      lm_loop fuel num_px num_iter do_run run_length v s = Some (Ok tt, s)).
Proof.
  intros Hs Hc p0 err_start err0 err1.
  pose proof (lm_iteration_unfold num_px do_run run_length v s c s1 Hs Hc) as U.
  cbv zeta in U. fold p0 err_start err0 err1 in U.
  destruct (lm_cache_supported _ _ _ _ _ Hc) as [Hs1 _]. rewrite Hs in Hs1.
  split; [|split; [|split; [|split]]].
  - intros H0 H1. exists (set_gparams s1 p0). split; [reflexivity|].
    assert (B : Qltb err_start (qmin err0 err1) = true)
      by (apply Qltb_lt, qmin_gt_iff; split; assumption).
    rewrite B in U. rewrite U. unfold after_bad_step. split.
    + intros Hlt Hd. apply Qltb_lt in Hlt. rewrite Hlt.
      destruct (Qeq_bool (ddamp v) 0) eqn:Z0; [|reflexivity].
      apply Qeq_bool_iff in Z0. contradiction.
    + intro Hge. apply Qltb_ge in Hge. rewrite Hge. reflexivity.
  - intros v' s2 Hr Hv. unfold lm_cache, get_J_JTJ_grad. rewrite Hr, Hv.
    reflexivity.
  - intro Hn.
    assert (B : Qltb err_start (qmin err0 err1) = false).
    { destruct (Qltb err_start (qmin err0 err1)) eqn:B; [|reflexivity].
      apply Qltb_lt, qmin_gt_iff in B. contradiction. }
    rewrite B in U. rewrite U.
    destruct (lm_good_step_returns do_run run_length p0 (lm_d0 c v) err0 err1 c v
                (set_gparams s1 (vadd p0 (lm_d1 c v))) Hs1) as (s' & E).
    rewrite E. eexists. eexists. split; [reflexivity|]. split; reflexivity.
  - intro fuel. reflexivity.
  - intros fuel Hge. apply Qltb_ge in Hge.
    destruct fuel; unfold lm_loop; simpl; rewrite Hge; reflexivity.
Qed.

(** The decision of a good step: the state after it holds [p0 + d0]
    with [damp] unchanged when [err0 < err1], and [p0 + d1] with [damp]
    multiplied by [ddamp] otherwise; the optional internal run starts
    from that state with that [damp]. *)
Lemma lm_good_step_decision num_px do_run run_length v (s : GState Rng) c s1 :
  supported s = true ->
  lm_cache num_px v s = (Ok c, s1) ->
  let p0 := gparams s in
  let err0 := err_of (vadd p0 (lm_d0 c v)) in
  let err1 := err_of (vadd p0 (lm_d1 c v)) in
  qmin err0 err1 <= err_of p0 ->
  exists s_kept damp',
    (err0 < err1 -> gparams s_kept = vadd p0 (lm_d0 c v) /\ damp' = damp v)
    /\ (err1 <= err0 ->
        gparams s_kept = vadd p0 (lm_d1 c v) /\ damp' = damp v * ddamp v)
    /\ lm_iteration num_px do_run run_length v s =
       bind (if do_run
             then lm_run run_length (fst (fst (fst c))) (snd (fst (fst c)))
                         (snd (fst c)) damp'
             else ret tt)
            (fun _ => ret (mkVars damp' (ddamp v) true (counter v + 1) (Some c)))
            s_kept.
Proof.
  intros Hs Hc p0 err0 err1 Hgood.
  pose proof (lm_iteration_unfold num_px do_run run_length v s c s1 Hs Hc) as U.
  cbv zeta in U. fold p0 err0 err1 in U.
  destruct (lm_cache_supported _ _ _ _ _ Hc) as [Hs1 _]. rewrite Hs in Hs1.
  apply Qltb_ge in Hgood. rewrite Hgood in U. rewrite U.
  unfold good_step. unfold bind at 1.
  rewrite keep_better_unfold by exact Hs1.
  destruct c as [[[J inds] jtj] grad]. simpl fst. simpl snd.
  destruct (Qltb err0 err1) eqn:D.
  - apply Qltb_lt in D. eexists. eexists. split; [|split; [|reflexivity]].
    + intros _. split; reflexivity.
    + intro Hle. lra.
  - apply Qltb_ge in D. eexists. eexists. split; [|split; [|reflexivity]].
    + intro Hlt. lra.
    + intros _. split; reflexivity.
Qed.

(** A whole call of [do_levmarq] on a supported state never ends with a
    larger error than it started with, whatever the solver proposes. *)
Lemma do_levmarq_descends fuel damp0 ddamp0 num_iter do_run run_length kw
    (s : GState Rng) r s' :
  supported s = true ->
  do_levmarq Jac Inds JTJ Grad Rng err_of get_rand_Japprox_ext j_to_jtj
    calc_im_grad_ext find_LM_updates fuel damp0 ddamp0 num_iter do_run
    run_length kw s = Some (r, s') ->
  err_of (gparams s') <= err_of (gparams s).
Proof.
  intros Hs H. unfold do_levmarq in H.
  destruct (get_num_px_jtj _ _ _ _ _) as [num_px|e].
  - eapply lm_loop_descends; [exact Hs | exact H].
  - inversion H; subst. apply Qle_refl.
Qed.

End LevMarqFacts.

(** *** A one-parameter instance

    One free parameter [x], one pixel with residual [x - target], and a
    finite-difference estimate [slope] of its derivative: [J = slope],
    [JTJ = slope^2], [grad = slope * (x - target)], and the damped solve
    [(JTJ + damp * JTJ) * delta = -grad].  The derivatives are taken
    with [be_nice], so the parameters are back in place afterwards. *)

Definition toy_err (target : Q) (p : list Q) : Q :=
  (hd 0 p - target) * (hd 0 p - target).

Definition toy_Japprox (slope : Q) (g : unit) (p : list Q) (num_px : num)
    : (Q * unit) * list Q * unit :=
  ((slope, tt), p, g).

Definition toy_jtj (J : Q) : Q := J * J.

Definition toy_grad (target : Q) (p : list Q) (J : Q) (inds : unit) : Q :=
  J * (hd 0 p - target).

Definition toy_solve (jtj grad damp : Q) : list Q :=
  [ - grad / (jtj + damp * jtj) ].

Definition toy_state (x : Q) : GState unit := mkGState [x] true 1000 tt.

Definition toy_iteration (slope target : Q) :=
  lm_iteration Q unit Q Q unit (toy_err target) (toy_Japprox slope) toy_jtj
    (toy_grad target) toy_solve.

Definition toy_do_levmarq (slope target : Q) :=
  do_levmarq Q unit Q Q unit (toy_err target) (toy_Japprox slope) toy_jtj
    (toy_grad target) toy_solve.

Definition toy_cache (slope target x : Q) : Q * unit * Q * Q :=
  (slope, tt, toy_jtj slope, toy_grad target [x] slope tt).

(** With the slope underestimated as 0.3 both trial steps overshoot the
    minimum at 3: the step is rejected and, as [err0 < err1], [ddamp] is
    inverted. *)
Lemma do_levmarq_bad_step_bookkeeping_witness :
  exists s',
    gparams s' = [0]
    /\ toy_iteration (3 # 10) 3 (Int 20) false 5%nat
         (mkVars (1 # 10) (1 # 10) true 0 None) (toy_state 0)
       = (Ok (mkVars (1 # 10) (1 / (1 # 10)) false (0 + (1 # 10))
                     (Some (toy_cache (3 # 10) 3 0))), s').
Proof.
  destruct (do_levmarq_bad_step_bookkeeping Q unit Q Q unit (toy_err 3)
              (toy_Japprox (3 # 10)) toy_jtj (toy_grad 3) toy_solve
              (Int 20) 5 false 5%nat (mkVars (1 # 10) (1 # 10) true 0 None)
              (toy_state 0) (toy_cache (3 # 10) 3 0) (toy_state 0))
    as (Hbad & _).
  - reflexivity.
  - reflexivity.
  - destruct Hbad as (s' & Hp & Hlt & _).
    + vm_compute. reflexivity.
    + vm_compute. reflexivity.
    + exists s'. split; [exact Hp|]. apply Hlt.
      * vm_compute. reflexivity.
      * discriminate.
Defined.

(** ** The particle-local optimiser *)

Lemma update_one_particle_frame s i pos rad typ relative fix_errors s' :
  update_one_particle s i pos rad typ relative fix_errors = Ok s' ->
  events s' = events s /\ image_shape s' = image_shape s
  /\ length (obj s') = length (obj s).
Proof.
  unfold update_one_particle. destruct (nth_error (obj s) i); [|discriminate].
  repeat match goal with
         | |- context [if ?c then _ else _] => destruct c
         end; intro H; inversion H; subst; simpl;
    rewrite list_set_length; auto.
Qed.

Lemma update_one_particle_m_frame i pos rad relative fix_errors s r s' :
  update_one_particle_m i pos rad relative fix_errors s = (r, s') ->
  events s' = events s /\ image_shape s' = image_shape s
  /\ length (obj s') = length (obj s).
Proof.
  unfold update_one_particle_m, modify.
  destruct (update_one_particle s i pos rad None relative fix_errors) eqn:E;
    intro H; inversion H; subst.
  - eapply update_one_particle_frame. exact E.
  - auto.
Qed.

Lemma update_particles_from_frame particles : forall a params relative fix_errors s r s',
  update_particles_from a particles params relative fix_errors s = (r, s') ->
  events s' = events s /\ image_shape s' = image_shape s
  /\ length (obj s') = length (obj s).
Proof.
  induction particles as [|p rest IH]; intros a params relative fix_errors s r s' H.
  - inversion H; subst. auto.
  - simpl in H. unfold bind in H.
    destruct (update_one_particle_m p (param_pos params a) (param_rad params a)
                relative fix_errors s) as [[[]|e] s1] eqn:E.
    + apply update_one_particle_m_frame in E. apply IH in H.
      destruct E as (E1 & E2 & E3), H as (H1 & H2 & H3).
      repeat split; congruence.
    + inversion H; subst. eapply update_one_particle_m_frame. exact E.
Qed.

Lemma update_particles_frame particles params relative fix_errors s r s' :
  update_particles particles params relative fix_errors s = (r, s') ->
  events s' = events s /\ image_shape s' = image_shape s
  /\ length (obj s') = length (obj s).
Proof.
  unfold update_particles, bind.
  destruct (update_particles_from 0 particles params relative fix_errors s)
    as [[[]|e] s1] eqn:E; intro H.
  - apply update_particles_from_frame in E.
    destruct particles; unfold raise, ret in H; inversion H; subst; exact E.
  - inversion H; subst. eapply update_particles_from_frame. exact E.
Qed.

(** The three relative updates of a rejected iteration, [d0], [d1 - d0]
    and [-(d1 - d0) - d0], cancel entry by entry. *)
Lemma rollback_cancels (d0 : list Q) : forall d1,
  Forall (fun x => x == 0)
         (vadd (vadd d0 (vsub d1 d0)) (vsub (vneg (vsub d1 d0)) d0)).
Proof.
  induction d0 as [|a d0 IH]; intros [|b d1]; simpl; try constructor.
  - ring.
  - apply IH.
Qed.

(** Computations that leave the event log and the image shape alone. *)
Definition keeps_frame {A : Type} (m : M State A) : Prop :=
  forall s r s', m s = (r, s') ->
                 events s' = events s /\ image_shape s' = image_shape s.

Lemma keeps_frame_ret {A} (a : A) : keeps_frame (ret a).
Proof. intros s r s' H. inversion H; subst. auto. Qed.

Lemma keeps_frame_raise {A} e : keeps_frame (@raise State A e).
Proof. intros s r s' H. inversion H; subst. auto. Qed.

Lemma keeps_frame_bind {A B} (m : M State A) (k : A -> M State B) :
  keeps_frame m -> (forall a, keeps_frame (k a)) -> keeps_frame (bind m k).
Proof.
  intros Hm Hk s r s' H. unfold bind in H.
  destruct (m s) as [[a|e] s1] eqn:E.
  - destruct (Hm _ _ _ E) as [E1 E2]. destruct (Hk a _ _ _ H) as [H1 H2].
    split; congruence.
  - inversion H; subst. exact (Hm _ _ _ E).
Qed.

Lemma keeps_frame_if {A} (b : bool) (m1 m2 : M State A) :
  keeps_frame m1 -> keeps_frame m2 -> keeps_frame (if b then m1 else m2).
Proof. destruct b; auto. Qed.

Lemma keeps_frame_update_one i pos rad relative fix_errors :
  keeps_frame (update_one_particle_m i pos rad relative fix_errors).
Proof.
  intros s r s' H. apply update_one_particle_m_frame in H. tauto.
Qed.

Lemma keeps_frame_update_particles particles params relative fix_errors :
  keeps_frame (update_particles particles params relative fix_errors).
Proof.
  intros s r s' H. apply update_particles_frame in H. tauto.
Qed.

Create HintDb frame.

#[local] Hint Resolve keeps_frame_ret keeps_frame_raise keeps_frame_bind
  keeps_frame_if keeps_frame_update_one keeps_frame_update_particles : frame.

Lemma keeps_frame_eval_one kw sl p :
  keeps_frame (eval_one_particle_grad_effect kw sl p).
Proof.
  unfold eval_one_particle_grad_effect, perturb_pos, perturb_rad.
  apply keeps_frame_if; [apply keeps_frame_raise|].
  repeat (apply keeps_frame_bind; [|intros _]);
    repeat (apply keeps_frame_if);
    repeat (apply keeps_frame_bind; [|intros _]);
    repeat (apply keeps_frame_if);
    auto with frame.
Qed.

Lemma keeps_frame_eval_many kw sl particles :
  keeps_frame (eval_many_particle_grad_effect kw sl particles).
Proof.
  induction particles as [|p rest IH]; simpl.
  - apply keeps_frame_ret.
  - apply keeps_frame_bind; [apply keeps_frame_eval_one | intros _; exact IH].
Qed.

Section LevMarqParticlesFacts.

Variables Jac JTJ Grad Slice : Type.
Variable err_of : list particle -> Q.
Variable tile_from_particle_change :
  State -> vec3 -> Q -> Q -> vec3 -> Q -> Q -> Tile * Tile * Slice.
Variable eval_many_particle_grad_ext :
  list particle -> list nat -> Tile -> grad_kwargs -> Jac.
Variable j_to_jtj : Jac -> JTJ.
Variable calc_grad_ext : list particle -> Jac -> Tile -> Grad.
Variable find_LM_updates : JTJ -> Grad -> Q -> list Q.

Definition lmp_iteration :=
  particles_iteration Jac JTJ Grad Slice err_of tile_from_particle_change
    eval_many_particle_grad_ext j_to_jtj calc_grad_ext find_LM_updates.
Definition lmp_cache :=
  get_J_JTJ_p Jac JTJ Slice tile_from_particle_change
    eval_many_particle_grad_ext j_to_jtj.
Definition lmp_run :=
  do_internal_run_p Jac JTJ Grad err_of calc_grad_ext find_LM_updates.

(** The two trial steps, from the cache and the particle table the
    gradient is taken on. *)
Definition lmp_d0 (c : Tile * Jac * JTJ) (o : list particle)
    (v : lm_vars (Tile * Jac * JTJ)) : list Q :=
  let '(dif_tile, J, jtj) := c in
  find_LM_updates jtj (calc_grad_ext o J dif_tile) (damp v).
Definition lmp_d1 (c : Tile * Jac * JTJ) (o : list particle)
    (v : lm_vars (Tile * Jac * JTJ)) : list Q :=
  let '(dif_tile, J, jtj) := c in
  find_LM_updates jtj (calc_grad_ext o J dif_tile) (damp v * ddamp v).

Lemma lmp_cache_frame kw particles v s c s1 :
  lmp_cache kw particles v s = (Ok c, s1) ->
  events s1 = events s /\ image_shape s1 = image_shape s.
Proof.
  assert (F : keeps_frame (lmp_cache kw particles v)).
  { unfold lmp_cache, get_J_JTJ_p. apply keeps_frame_if.
    - apply keeps_frame_bind.
      + intros s0 r s' H. unfold lift in H. inversion H; subst. auto.
      + intro t. unfold eval_many_particle_grad.
        apply keeps_frame_bind; [|intro J; apply keeps_frame_ret].
        apply keeps_frame_bind.
        * intros s0 r s' H. inversion H; subst. auto.
        * intro s0. apply keeps_frame_bind; [apply keeps_frame_eval_many|].
          intros _. apply keeps_frame_ret.
    - destruct (cache v); [apply keeps_frame_ret | apply keeps_frame_raise]. }
  intro H. exact (F _ _ _ H).
Qed.

(** One iteration, once the Jacobian is at hand and the two trial
    updates have gone through: the branch is taken on the errors
    measured after each of them. *)
Lemma lmp_iteration_unfold kw do_run run_length particles v s c s1 s2 s3 :
  lmp_cache kw particles v s = (Ok c, s1) ->
  let d0 := lmp_d0 c (obj s1) v in
  let d1md0 := vsub (lmp_d1 c (obj s1) v) d0 in
  update_particles particles d0 true true s1 = (Ok tt, s2) ->
  update_particles particles d1md0 true true s2 = (Ok tt, s3) ->
  lmp_iteration kw do_run run_length particles v s =
  if Qltb (err_of (obj s)) (qmin (err_of (obj s2)) (err_of (obj s3)))
  then bad_step_p Jac JTJ err_of particles (err_of (obj s)) (err_of (obj s2))
         (err_of (obj s3)) d0 d1md0 c v s3
  else good_step_p Jac JTJ Grad err_of calc_grad_ext find_LM_updates
         do_run run_length particles d1md0 (err_of (obj s2)) (err_of (obj s3))
         c v s3.
Proof.
  intros Hc d0 d1md0 H0 H1.
  unfold lmp_iteration, particles_iteration.
  unfold bind at 1. unfold get_err_p at 1. cbv iota beta.
  unfold bind at 1. fold lmp_cache. rewrite Hc.
  destruct c as [[dif_tile J] jtj]. cbv iota beta.
  unfold bind at 1. unfold calc_grad at 1. cbv iota beta.
  unfold bind at 1.
  change (find_LM_updates jtj (calc_grad_ext (obj s1) J dif_tile) (damp v))
    with d0.
  rewrite H0.
  unfold bind at 1. unfold get_err_p at 1. cbv iota beta.
  unfold bind at 1.
  change (vsub (find_LM_updates jtj (calc_grad_ext (obj s1) J dif_tile)
                  (damp v * ddamp v)) d0) with d1md0.
  rewrite H1.
  unfold bind at 1. unfold get_err_p at 1. cbv iota beta.
  destruct (Qltb (err_of (obj s)) (qmin (err_of (obj s2)) (err_of (obj s3))));
    reflexivity.
Qed.

(** In a good step whose second trial is at least as good as the first,
    the particles stay where the second trial update left them, and
    [damp] becomes [damp * ddamp]; the internal run starts from there. *)
Lemma lmp_good_step_keeps_d1 kw do_run run_length particles v s c s1 s2 s3 :
  lmp_cache kw particles v s = (Ok c, s1) ->
  update_particles particles (lmp_d0 c (obj s1) v) true true s1 = (Ok tt, s2) ->
  update_particles particles (vsub (lmp_d1 c (obj s1) v) (lmp_d0 c (obj s1) v))
    true true s2 = (Ok tt, s3) ->
  qmin (err_of (obj s2)) (err_of (obj s3)) <= err_of (obj s) ->
  err_of (obj s3) <= err_of (obj s2) ->
  lmp_iteration kw do_run run_length particles v s =
  bind (if do_run then lmp_run run_length particles c (damp v * ddamp v)
        else ret tt)
       (fun _ => ret (mkVars (damp v * ddamp v) (ddamp v) true (counter v + 1)
                        (Some c))) s3.
Proof.
  intros Hc H0 H1 Hgood Hle.
  rewrite (lmp_iteration_unfold kw do_run run_length particles v s c s1 s2 s3
             Hc H0 H1).
  apply Qltb_ge in Hgood. rewrite Hgood.
  unfold good_step_p. unfold bind at 1. unfold keep_better_p.
  apply Qltb_ge in Hle. rewrite Hle. reflexivity.
Qed.

(** C3 (amended): in [do_levmarq_particles], when both trial errors
    exceed [err_start], the iteration applies the relative update
    [-(d1-d0)-d0] (the three relative updates [d0], [d1-d0] and
    [-(d1-d0)-d0] sum to zero entry by entry).  This update is made
    without [fix_errors]: if it raises, the iteration raises.  If it goes
    through and the error measured afterwards is above
    [err_start + 1e-3], a warning is issued and [s.reset()] is called,
    and the iteration goes on to the damping bookkeeping instead of
    raising; if the error is at most [err_start + 1e-3] - in particular
    when it is below [err_start] - there is no warning and no reset. *)
Theorem do_levmarq_particles_rollback
    kw do_run run_length particles v s c s1 s2 s3 :
  lmp_cache kw particles v s = (Ok c, s1) ->
  let d0 := lmp_d0 c (obj s1) v in
  let d1 := lmp_d1 c (obj s1) v in
  let d1md0 := vsub d1 d0 in
  let rollback := vsub (vneg d1md0) d0 in
  let err_start := err_of (obj s) in
  let err0 := err_of (obj s2) in
  let err1 := err_of (obj s3) in
  update_particles particles d0 true true s1 = (Ok tt, s2) ->
  update_particles particles d1md0 true true s2 = (Ok tt, s3) ->
  err_start < err0 -> err_start < err1 ->
  Forall (fun x => x == 0) (vadd (vadd d0 d1md0) rollback)
  /\ (forall s4,
      update_particles particles rollback true false s3 = (Ok tt, s4) ->
      (err_start + rollback_tol < err_of (obj s4) ->
       lmp_iteration kw do_run run_length particles v s =
       (after_bad_step err0 err1 c v,
        mkState (image_shape s4) (obj s4) (events s ++ [Warned; ResetCalled])))
      /\ (err_of (obj s4) <= err_start + rollback_tol ->
          lmp_iteration kw do_run run_length particles v s =
          (after_bad_step err0 err1 c v, s4)
          /\ events s4 = events s))
  /\ (forall e s4,
      update_particles particles rollback true false s3 = (Raise e, s4) ->
      lmp_iteration kw do_run run_length particles v s = (Raise e, s4)).
Proof.
  intros Hc d0 d1 d1md0 rollback err_start err0 err1 H0 H1 Hb0 Hb1.
  assert (Hev3 : events s3 = events s).
  { destruct (update_particles_frame _ _ _ _ _ _ _ H0) as (E0 & _).
    destruct (update_particles_frame _ _ _ _ _ _ _ H1) as (E1 & _).
    assert (E : events s1 = events s) by (apply (lmp_cache_frame _ _ _ _ _ _ Hc)).
    congruence. }
  pose proof (lmp_iteration_unfold kw do_run run_length particles v s c s1 s2 s3
                Hc H0 H1) as U.
  assert (B : Qltb err_start (qmin err0 err1) = true)
    by (apply Qltb_lt, qmin_gt_iff; split; assumption).
  subst d0 d1 d1md0 rollback err_start err0 err1.
  rewrite B in U.
  split; [apply rollback_cancels|]. split.
  - intros s4 H4.
    destruct (update_particles_frame _ _ _ _ _ _ _ H4) as (E4 & _).
    split.
    + intro Hhi. rewrite U. unfold bad_step_p.
      unfold bind at 1. rewrite H4.
      unfold bind at 1. unfold get_err_p at 1. cbv iota beta.
      apply Qltb_lt in Hhi. rewrite Hhi.
      unfold bind, warn, reset, lift, log_event. simpl.
      rewrite E4, Hev3, <- app_assoc. reflexivity.
    + intro Hlo. split; [|congruence]. rewrite U. unfold bad_step_p.
      unfold bind at 1. rewrite H4.
      unfold bind at 1. unfold get_err_p at 1. cbv iota beta.
      apply Qltb_ge in Hlo. rewrite Hlo.
      unfold bind, ret, lift. reflexivity.
  - intros e s4 H4. rewrite U. unfold bad_step_p.
    unfold bind at 1. rewrite H4. reflexivity.
Qed.

(** In a good step with [err0 < err1] the code applies [d1 - d0] a second
    time, on top of the state that already holds both trial updates. *)
Lemma lmp_good_step_repeats_d1md0 kw do_run run_length particles v s c s1 s2 s3 :
  lmp_cache kw particles v s = (Ok c, s1) ->
  update_particles particles (lmp_d0 c (obj s1) v) true true s1 = (Ok tt, s2) ->
  update_particles particles (vsub (lmp_d1 c (obj s1) v) (lmp_d0 c (obj s1) v))
    true true s2 = (Ok tt, s3) ->
  qmin (err_of (obj s2)) (err_of (obj s3)) <= err_of (obj s) ->
  err_of (obj s2) < err_of (obj s3) ->
  lmp_iteration kw do_run run_length particles v s =
  bind (update_particles particles
          (vsub (lmp_d1 c (obj s1) v) (lmp_d0 c (obj s1) v)) true false)
       (fun _ =>
          bind (if do_run then lmp_run run_length particles c (damp v)
                else ret tt)
               (fun _ => ret (mkVars (damp v) (ddamp v) true (counter v + 1)
                                (Some c)))) s3.
Proof.
  intros Hc H0 H1 Hgood Hlt.
  rewrite (lmp_iteration_unfold kw do_run run_length particles v s c s1 s2 s3
             Hc H0 H1).
  apply Qltb_ge in Hgood. rewrite Hgood.
  unfold good_step_p. unfold bind at 1. unfold keep_better_p.
  apply Qltb_lt in Hlt. rewrite Hlt.
  unfold bind.
  destruct (update_particles particles _ true false s3) as [[[]|e] s4];
    reflexivity.
Qed.

End LevMarqParticlesFacts.

(** *** A one-particle instance

    One particle whose residual depends on its first coordinate [x] as
    [x - target]; [slope] is the finite-difference estimate of the
    derivative, and the solve is the damped one on the [x] entry. *)

Definition toyp_err (target : Q) (o : list particle) : Q :=
  match o with
  | pt :: _ => (coord Ax0 (ppos pt) - target) * (coord Ax0 (ppos pt) - target)
  | [] => 0
  end.

Definition toyp_tile (s : State) (p0 : vec3) (r0 t0 : Q) (p1 : vec3) (r1 t1 : Q)
    : Tile * Tile * unit :=
  (mkTile (0, 0, 0)%Z (image_shape s), mkTile (1, 1, 1)%Z (image_shape s), tt).

Definition toyp_eval_J (slope : Q) (o : list particle) (particles : list nat)
    (dif_tile : Tile) (kw : grad_kwargs) : Q := slope.

Definition toyp_grad (target : Q) (o : list particle) (J : Q) (dif_tile : Tile) : Q :=
  match o with
  | pt :: _ => J * (coord Ax0 (ppos pt) - target)
  | [] => 0
  end.

Definition toyp_solve (jtj grad damp : Q) : list Q :=
  [ - grad / (jtj + damp * jtj); 0; 0; 0 ].

Definition toyp_state (x : Q) : State :=
  mkState (100, 100, 100)%Z [mkParticle (x, 50, 50) 5 1] [].

Definition toyp_iteration (slope target : Q) :=
  lmp_iteration Q Q Q unit (toyp_err target) toyp_tile (toyp_eval_J slope)
    toy_jtj (toyp_grad target) toyp_solve.

Definition toyp_do_levmarq_particles (slope target : Q) :=
  do_levmarq_particles Q Q Q unit (toyp_err target) toyp_tile (toyp_eval_J slope)
    toy_jtj (toyp_grad target) toyp_solve.

(** ** Which trial step a good iteration keeps *)

Section GoodStepChoice.

Variables Jac Inds JTJ Grad Rng : Type.
Variable err_of : list Q -> Q.
Variable get_rand_Japprox_ext :
  Rng -> list Q -> num -> (Jac * Inds) * list Q * Rng.
Variable j_to_jtj : Jac -> JTJ.
Variable calc_im_grad_ext : list Q -> Jac -> Inds -> Grad.
Variable find_LM_updates : JTJ -> Grad -> Q -> list Q.

Variables PJac PJTJ PGrad Slice : Type.
Variable perr_of : list particle -> Q.
Variable tile_from_particle_change :
  State -> vec3 -> Q -> Q -> vec3 -> Q -> Q -> Tile * Tile * Slice.
Variable eval_many_particle_grad_ext :
  list particle -> list nat -> Tile -> grad_kwargs -> PJac.
Variable pj_to_jtj : PJac -> PJTJ.
Variable calc_grad_ext : list particle -> PJac -> Tile -> PGrad.
Variable pfind_LM_updates : PJTJ -> PGrad -> Q -> list Q.

Let g_iteration :=
  lm_iteration Jac Inds JTJ Grad Rng err_of get_rand_Japprox_ext j_to_jtj
    calc_im_grad_ext find_LM_updates.
Let g_cache :=
  lm_cache Jac Inds JTJ Grad Rng get_rand_Japprox_ext j_to_jtj calc_im_grad_ext.
Let g_run := lm_run Jac Inds JTJ Grad Rng err_of calc_im_grad_ext find_LM_updates.
Let g_d0 := lm_d0 Jac Inds JTJ Grad find_LM_updates.
Let g_d1 := lm_d1 Jac Inds JTJ Grad find_LM_updates.

Let p_iteration :=
  lmp_iteration PJac PJTJ PGrad Slice perr_of tile_from_particle_change
    eval_many_particle_grad_ext pj_to_jtj calc_grad_ext pfind_LM_updates.
Let p_cache :=
  lmp_cache PJac PJTJ Slice tile_from_particle_change
    eval_many_particle_grad_ext pj_to_jtj.
Let p_run := lmp_run PJac PJTJ PGrad perr_of calc_grad_ext pfind_LM_updates.
Let p_d0 := lmp_d0 PJac PJTJ PGrad calc_grad_ext pfind_LM_updates.
Let p_d1 := lmp_d1 PJac PJTJ PGrad calc_grad_ext pfind_LM_updates.

(** C2 (amended): in a good-step iteration ([min(err0, err1) <=
    err_start]) of [do_levmarq], on a supported state, the free
    parameters are set to [p0 + d0] with [damp] unchanged when
    [err0 < err1], and otherwise - also when [err0 == err1] - they stay
    at [p0 + d1] and [damp] becomes [damp * ddamp]; the optional
    internal run then starts from that state with that [damp].  In a
    good-step iteration of [do_levmarq_particles] with
    [err1 <= err0] the particles stay where the second trial update
    left them and [damp] becomes [damp * ddamp]. *)
Theorem good_step_keeps_d0_only_when_strictly_better :
  (forall num_px do_run run_length v (s : GState Rng) c s1,
      supported s = true ->
      g_cache num_px v s = (Ok c, s1) ->
      let p0 := gparams s in
      let err0 := err_of (vadd p0 (g_d0 c v)) in
      let err1 := err_of (vadd p0 (g_d1 c v)) in
      qmin err0 err1 <= err_of p0 ->
      exists s_kept damp',
        (err0 < err1 -> gparams s_kept = vadd p0 (g_d0 c v) /\ damp' = damp v)
        /\ (err1 <= err0 ->
            gparams s_kept = vadd p0 (g_d1 c v) /\ damp' = damp v * ddamp v)
        /\ g_iteration num_px do_run run_length v s =
           bind (if do_run
                 then g_run run_length (fst (fst (fst c))) (snd (fst (fst c)))
                            (snd (fst c)) damp'
                 else ret tt)
                (fun _ => ret (mkVars damp' (ddamp v) true (counter v + 1) (Some c)))
                s_kept)
  /\ (forall kw do_run run_length particles v s c s1 s2 s3,
      p_cache kw particles v s = (Ok c, s1) ->
      update_particles particles (p_d0 c (obj s1) v) true true s1 = (Ok tt, s2) ->
      update_particles particles (vsub (p_d1 c (obj s1) v) (p_d0 c (obj s1) v))
        true true s2 = (Ok tt, s3) ->
      qmin (perr_of (obj s2)) (perr_of (obj s3)) <= perr_of (obj s) ->
      perr_of (obj s3) <= perr_of (obj s2) ->
      p_iteration kw do_run run_length particles v s =
      bind (if do_run then p_run run_length particles c (damp v * ddamp v)
            else ret tt)
           (fun _ => ret (mkVars (damp v * ddamp v) (ddamp v) true (counter v + 1)
                            (Some c))) s3).
Proof.
  split.
  - intros num_px do_run run_length v s c s1 Hs Hc p0 err0 err1 Hgood.
    exact (lm_good_step_decision Jac Inds JTJ Grad Rng err_of get_rand_Japprox_ext
             j_to_jtj calc_im_grad_ext find_LM_updates num_px do_run run_length
             v s c s1 Hs Hc Hgood).
  - intros kw do_run run_length particles v s c s1 s2 s3 Hc H0 H1 Hgood Hle.
    exact (lmp_good_step_keeps_d1 PJac PJTJ PGrad Slice perr_of
             tile_from_particle_change eval_many_particle_grad_ext pj_to_jtj
             calc_grad_ext pfind_LM_updates kw do_run run_length particles
             v s c s1 s2 s3 Hc H0 H1 Hgood Hle).
Qed.

End GoodStepChoice.

(** The tie clause of the specification for [do_levmarq]: when the two
    trial errors are equal in a good step, the [d0] step is the one kept
    and [damp] is left alone. *)
Definition tie_keeps_d0_claim (slope target : Q) (v : lm_vars (Q * unit * Q * Q))
    (s : GState unit) : Prop :=
  let c := toy_cache slope target (hd 0 (gparams s)) in
  let d0 := lm_d0 Q unit Q Q toy_solve c v in
  let d1 := lm_d1 Q unit Q Q toy_solve c v in
  toy_err target (vadd (gparams s) d0) == toy_err target (vadd (gparams s) d1) ->
  toy_err target (vadd (gparams s) d0) <= toy_err target (gparams s) ->
  forall v' s',
    toy_iteration slope target (Int 20) false 5%nat v s = (Ok v', s') ->
    gparams s' = vadd (gparams s) d0 /\ damp v' = damp v.

(** With [damp = 1], [ddamp = 9/13] and the minimum at 3, the steps are
    [d0 = 11/4] and [d1 = 13/4], at equal error 1/16: the code keeps
    [d1] and multiplies [damp] by [ddamp]. *)
Lemma levmarq_tie_keeps_d1 :
  let v := mkVars 1 (9 # 13) true 0 None in
  let c := toy_cache (6 # 11) 3 0 in
  Forall2 Qeq (lm_d0 Q unit Q Q toy_solve c v) [11 # 4]
  /\ Forall2 Qeq (lm_d1 Q unit Q Q toy_solve c v) [13 # 4]
  /\ toy_err 3 [11 # 4] == toy_err 3 [13 # 4]
  /\ (exists v' s',
        toy_iteration (6 # 11) 3 (Int 20) false 5%nat v (toy_state 0) = (Ok v', s')
        /\ Forall2 Qeq (gparams s') [13 # 4]
        /\ damp v' == 9 # 13)
  /\ ~ tie_keeps_d0_claim (6 # 11) 3 v (toy_state 0).
Proof.
  cbv zeta. split; [|split; [|split; [|split]]].
  - constructor; [vm_compute; reflexivity | constructor].
  - constructor; [vm_compute; reflexivity | constructor].
  - vm_compute. reflexivity.
  - eexists. eexists. split; [vm_compute; reflexivity|]. split.
    + constructor; [vm_compute; reflexivity | constructor].
    + vm_compute. reflexivity.
  - unfold tie_keeps_d0_claim. cbv zeta. intro H.
    assert (E : exists v' s',
               toy_iteration (6 # 11) 3 (Int 20) false 5%nat
                 (mkVars 1 (9 # 13) true 0 None) (toy_state 0) = (Ok v', s')
               /\ ~ damp v' == 1).
    { eexists. eexists. split; [vm_compute; reflexivity|].
      vm_compute. discriminate. }
    destruct E as (v' & s' & E & Hd).
    destruct (H ltac:(vm_compute; reflexivity) ltac:(vm_compute; discriminate)
                v' s' E) as [_ Hdamp].
    apply Hd. rewrite Hdamp. reflexivity.
Qed.

Lemma good_step_keeps_d0_only_when_strictly_better_witness :
  exists s_kept damp',
    gparams s_kept = vadd [0] (lm_d1 Q unit Q Q toy_solve (toy_cache (6 # 11) 3 0)
                                 (mkVars 1 (9 # 13) true 0 None))
    /\ damp' = 1 * (9 # 13)
    /\ toy_iteration (6 # 11) 3 (Int 20) false 5%nat
         (mkVars 1 (9 # 13) true 0 None) (toy_state 0)
       = (Ok (mkVars damp' (9 # 13) true (0 + 1)
                     (Some (toy_cache (6 # 11) 3 0))), s_kept).
Proof.
  destruct (good_step_keeps_d0_only_when_strictly_better
              Q unit Q Q unit (toy_err 3) (toy_Japprox (6 # 11)) toy_jtj
              (toy_grad 3) toy_solve
              Q Q Q unit (toyp_err 3) toyp_tile (toyp_eval_J (6 # 11)) toy_jtj
              (toyp_grad 3) toyp_solve) as [HA _].
  destruct (HA (Int 20) false 5%nat (mkVars 1 (9 # 13) true 0 None) (toy_state 0)
               (toy_cache (6 # 11) 3 0) (toy_state 0))
    as (s_kept & damp' & _ & Hge & Hit).
  - reflexivity.
  - reflexivity.
  - vm_compute. discriminate.
  - destruct Hge as [Hp Hd]; [vm_compute; discriminate|].
    exists s_kept, damp'. split; [exact Hp|]. split; [exact Hd|].
    exact Hit.
Defined.

(** ** The accepted step of [do_levmarq_particles] that raises the error *)

(** C1, at an input where the code breaks it: an accepted step of
    [do_levmarq_particles] after which the error is larger than before.
    One particle at [x = 10] in a 100^3 image, the minimum of the error
    at [x = 13], the slope underestimated by a half, the default
    [damp = 0.1], [ddamp = 0.2] and derivative settings, one iteration
    without internal run.  The trial steps are about 5.45 and 5.88, with
    [err0 < err1 <= err_start = 9], so the step is accepted; the code
    then applies [d1 - d0] once more (see [lmp_good_step_repeats_d1md0]),
    and the call ends at [x] about 16.31 with an error of about 10.96.
    For [do_levmarq] the property holds: [do_levmarq_descends]. *)
Lemma do_levmarq_particles_accepted_step_raises_error :
  exists s',
    toyp_do_levmarq_particles (1 # 2) 13 10 [0%nat] (1 # 10) (2 # 10) 1 false 5
      default_grad_kwargs (toyp_state 10) = Some (Ok tt, s')
    /\ toyp_err 13 (obj (toyp_state 10)) == 9
    /\ 10 < toyp_err 13 (obj s')
    /\ (exists pt, obj s' = [pt] /\ 16 < coord Ax0 (ppos pt)).
Proof.
  eexists. split; [vm_compute; reflexivity|].
  split; [vm_compute; reflexivity|].
  split; [vm_compute; reflexivity|].
  eexists. split; [reflexivity|]. vm_compute. reflexivity.
Qed.

(** ** The rollback of [do_levmarq_particles] *)

(** The specification's reading of the check after the rollback: an
    error that is not within the tolerance of [err_start], on either
    side, brings the warning and the reset. *)
Definition rollback_two_sided_claim (err_start err_back : Q)
    (events_before events_after : list event) : Prop :=
  (err_back < err_start - rollback_tol \/ err_start + rollback_tol < err_back) ->
  events_after = events_before ++ [Warned; ResetCalled].

(** A steeper residual, [gain * (x - target)], for the same particle. *)
Definition toyp_err_gain (gain target : Q) (o : list particle) : Q :=
  match o with
  | pt :: _ => (gain * (coord Ax0 (ppos pt) - target))
               * (gain * (coord Ax0 (ppos pt) - target))
  | [] => 0
  end.

Definition toyp_grad_gain (gain target : Q) (o : list particle) (J : Q)
    (dif_tile : Tile) : Q :=
  match o with
  | pt :: _ => J * (gain * (coord Ax0 (ppos pt) - target))
  | [] => 0
  end.

(** A particle at [x = 10] with residual [10^4 * (x - 13)], so
    [err_start = 9 * 10^8], the derivative underestimated as 3000, and
    the default settings.  Both trial steps overshoot (to about 19.1 and
    19.8) and are rejected; no update is clamped, and the rollback
    cancels them exactly.  The derivatives were taken without [be_nice],
    so the particle is left at [x = 10 + 1e-6], where the error is about
    600 below [err_start]: outside the tolerance, but no warning and no
    reset. *)
Lemma rollback_lower_error_no_reset :
  exists v' s',
    lmp_iteration Q Q Q unit (toyp_err_gain 10000 13) toyp_tile (toyp_eval_J 3000)
      toy_jtj (toyp_grad_gain 10000 13) toyp_solve
      default_grad_kwargs false 5%nat [0%nat]
      (mkVars (1 # 10) (2 # 10) true 0 None) (toyp_state 10) = (Ok v', s')
    /\ recalc_J v' = false
    /\ counter v' == 1 # 10
    /\ (exists pt, obj s' = [pt] /\ coord Ax0 (ppos pt) == 10 + (1 # 1000000))
    /\ toyp_err_gain 10000 13 (obj s')
       < toyp_err_gain 10000 13 (obj (toyp_state 10)) - 500
    /\ events s' = []
    /\ ~ rollback_two_sided_claim (toyp_err_gain 10000 13 (obj (toyp_state 10)))
           (toyp_err_gain 10000 13 (obj s')) (events (toyp_state 10)) (events s').
Proof.
  eexists. eexists. split; [vm_compute; reflexivity|].
  split; [reflexivity|]. split; [vm_compute; reflexivity|].
  split; [eexists; split; [reflexivity | vm_compute; reflexivity]|].
  split; [vm_compute; reflexivity|]. split; [reflexivity|].
  unfold rollback_two_sided_claim. intro H.
  assert (C : @nil event = [] ++ [Warned; ResetCalled]).
  { apply H. left. vm_compute. reflexivity. }
  discriminate C.
Qed.

(** A particle at [x = 5] with the minimum at [x = 4]: both trial steps
    are clamped to [1e-6], and the rollback lands near [x = 10.78],
    where the error exceeds [err_start + 1e-3]: warning and reset. *)
Definition c3_vars : lm_vars (Tile * Q * Q) := mkVars (1 # 10) (2 # 10) true 0 None.
Definition c3_cache : Tile * Q * Q :=
  (mkTile (0, 0, 0)%Z (100, 100, 100)%Z, 1 # 11, toy_jtj (1 # 11)).
Definition c3_s1 : State :=
  Eval vm_compute in
    snd (lmp_cache Q Q unit toyp_tile (toyp_eval_J (1 # 11)) toy_jtj
           default_grad_kwargs [0%nat] c3_vars (toyp_state 5)).
Definition c3_d0 : list Q :=
  lmp_d0 Q Q Q (toyp_grad 4) toyp_solve c3_cache (obj c3_s1) c3_vars.
Definition c3_d1 : list Q :=
  lmp_d1 Q Q Q (toyp_grad 4) toyp_solve c3_cache (obj c3_s1) c3_vars.
Definition c3_s2 : State :=
  Eval vm_compute in snd (update_particles [0%nat] c3_d0 true true c3_s1).
Definition c3_s3 : State :=
  Eval vm_compute in
    snd (update_particles [0%nat] (vsub c3_d1 c3_d0) true true c3_s2).
Definition c3_s4 : State :=
  Eval vm_compute in
    snd (update_particles [0%nat] (vsub (vneg (vsub c3_d1 c3_d0)) c3_d0)
           true false c3_s3).

Lemma do_levmarq_particles_rollback_witness :
  exists r s',
    toyp_iteration (1 # 11) 4 default_grad_kwargs false 5%nat [0%nat] c3_vars
      (toyp_state 5) = (r, s')
    /\ events s' = [Warned; ResetCalled]
    /\ toyp_err 4 (obj (toyp_state 5)) + rollback_tol < toyp_err 4 (obj s').
Proof.
  destruct (do_levmarq_particles_rollback Q Q Q unit (toyp_err 4) toyp_tile
              (toyp_eval_J (1 # 11)) toy_jtj (toyp_grad 4) toyp_solve
              default_grad_kwargs false 5%nat [0%nat] c3_vars (toyp_state 5)
              c3_cache c3_s1 c3_s2 c3_s3) as (_ & Hroll & _).
  - vm_compute. reflexivity.
  - vm_compute. reflexivity.
  - vm_compute. reflexivity.
  - vm_compute. reflexivity.
  - vm_compute. reflexivity.
  - destruct (Hroll c3_s4) as (Hhi & _).
    + vm_compute. reflexivity.
    + eexists. eexists. split; [apply Hhi; vm_compute; reflexivity|].
      split; [reflexivity|]. vm_compute. reflexivity.
Defined.

(** ** The tile of a change of several particles *)

Definition is_min_of (m : Z) (l : list Z) : Prop :=
  In m l /\ forall x, In x l -> (m <= x)%Z.

Definition is_max_of (m : Z) (l : list Z) : Prop :=
  In m l /\ forall x, In x l -> (x <= m)%Z.

Lemma fold_min_axis0 (k : axis) (t : list zvec3) : forall h,
  is_min_of (zcoord k (fold_left (zv3map2 Z.min) t h)) (map (zcoord k) (h :: t)).
Proof.
  induction t as [|a t IH]; intro h.
  - simpl. split; [left; reflexivity|]. intros x [<-|[]]. lia.
  - simpl fold_left. destruct (IH (zv3map2 Z.min h a)) as [Hin Hle].
    rewrite map_cons, zcoord_zv3map2 in Hin, Hle.
    split.
    + simpl. simpl in Hin. destruct Hin as [E|Hin].
      * rewrite <- E.
        destruct (Z.min_spec (zcoord k h) (zcoord k a)) as [[_ ->]|[_ ->]]; auto.
      * auto.
    + intros x Hx. simpl in Hx.
      assert (M : (zcoord k (fold_left (zv3map2 Z.min) t (zv3map2 Z.min h a))
                   <= Z.min (zcoord k h) (zcoord k a))%Z)
        by (apply Hle; left; reflexivity).
      destruct Hx as [<-|[<-|Hx]]; try lia.
      apply Hle. right. exact Hx.
Qed.

Lemma fold_max_axis0 (k : axis) (t : list zvec3) : forall h,
  is_max_of (zcoord k (fold_left (zv3map2 Z.max) t h)) (map (zcoord k) (h :: t)).
Proof.
  induction t as [|a t IH]; intro h.
  - simpl. split; [left; reflexivity|]. intros x [<-|[]]. lia.
  - simpl fold_left. destruct (IH (zv3map2 Z.max h a)) as [Hin Hle].
    rewrite map_cons, zcoord_zv3map2 in Hin, Hle.
    split.
    + simpl. simpl in Hin. destruct Hin as [E|Hin].
      * rewrite <- E.
        destruct (Z.max_spec (zcoord k h) (zcoord k a)) as [[_ ->]|[_ ->]]; auto.
      * auto.
    + intros x Hx. simpl in Hx.
      assert (M : (Z.max (zcoord k h) (zcoord k a)
                   <= zcoord k (fold_left (zv3map2 Z.max) t (zv3map2 Z.max h a)))%Z)
        by (apply Hle; left; reflexivity).
      destruct Hx as [<-|[<-|Hx]]; try lia.
      apply Hle. right. exact Hx.
Qed.

Section TileFacts.

Variable Slice : Type.
Variable tile_from_particle_change :
  State -> vec3 -> Q -> Q -> vec3 -> Q -> Q -> Tile * Tile * Slice.

Definition change_tile := particle_change_tile Slice tile_from_particle_change.

(** The tiles of the individual particles, in the order of [inds]. *)
Definition tiles_of (s : State) (inds : list nat) (tiles : list Tile) : Prop :=
  Forall2 (fun i tile => exists pt, nth_error (obj s) i = Some pt
                                    /\ tile = change_tile s pt)
          inds tiles.

Lemma collect_tiles_ok (s : State) (inds : list nat) :
  (forall i, In i inds -> (i < length (obj s))%nat) ->
  exists tiles, collect_tiles Slice tile_from_particle_change s inds = Ok tiles
                /\ tiles_of s inds tiles.
Proof.
  induction inds as [|i rest IH]; intro Hv.
  - exists []. split; [reflexivity | constructor].
  - destruct IH as (tiles & E & F).
    { intros j Hj. apply Hv. right. exact Hj. }
    assert (Hi : (i < length (obj s))%nat) by (apply Hv; left; reflexivity).
    apply nth_error_Some in Hi.
    destruct (nth_error (obj s) i) as [pt|] eqn:N; [|congruence].
    exists (change_tile s pt :: tiles). split.
    + simpl. rewrite N, E. reflexivity.
    + constructor; [|exact F]. exists pt. split; [exact N | reflexivity].
Qed.

(** C9: for a non-empty list of indices of particles of the state,
    [get_tile_from_multiple_particle_change] returns the tile whose left
    corner is, on each axis, the minimum of the left corners of the
    particles' own change tiles, and whose right corner is the maximum
    of their right corners. *)
Theorem get_tile_from_multiple_particle_change_bounding
    (s : State) (inds : list nat) :
  inds <> [] ->
  (forall i, In i inds -> (i < length (obj s))%nat) ->
  exists tiles t,
    tiles_of s inds tiles
    /\ get_tile_from_multiple_particle_change Slice tile_from_particle_change
         s inds = Ok t
    /\ forall k,
         is_min_of (zcoord k (tile_l t)) (map (fun x => zcoord k (tile_l x)) tiles)
         /\ is_max_of (zcoord k (tile_r t)) (map (fun x => zcoord k (tile_r x)) tiles).
Proof.
  intros Hne Hv.
  destruct (collect_tiles_ok s inds Hv) as (tiles & E & F).
  destruct tiles as [|h t].
  - inversion F; subst. contradiction.
  - exists (h :: t). eexists. split; [exact F|].
    unfold get_tile_from_multiple_particle_change. rewrite E. simpl.
    split; [reflexivity|]. intro k. simpl tile_l. simpl tile_r. split.
    + pose proof (fold_min_axis0 k (map tile_l t) (tile_l h)) as M.
      rewrite <- map_cons, map_map in M. exact M.
    + pose proof (fold_max_axis0 k (map tile_r t) (tile_r h)) as M.
      rewrite <- map_cons, map_map in M. exact M.
Qed.

End TileFacts.

(** An instance: the outer tile of a particle is the box of the voxels
    within its radius, padded by one voxel. *)
Definition box_tile (s : State) (p0 : vec3) (r0 t0 : Q) (p1 : vec3) (r1 t1 : Q)
    : Tile * Tile * unit :=
  let lo k := (Qfloor (coord k p0 - r0) - 1)%Z in
  let hi k := (Qceiling (coord k p0 + r0) + 1)%Z in
  (mkTile (lo Ax0, lo Ax1, lo Ax2) (hi Ax0, hi Ax1, hi Ax2),
   mkTile (lo Ax0 + 1, lo Ax1 + 1, lo Ax2 + 1)%Z
          (hi Ax0 - 1, hi Ax1 - 1, hi Ax2 - 1)%Z, tt).

Definition two_particle_state : State :=
  mkState (64, 64, 64)%Z
          [mkParticle (10, 40, 20) 5 1; mkParticle (30, 12, 22) 4 1] [].

Lemma get_tile_from_multiple_particle_change_bounding_witness :
  get_tile_from_multiple_particle_change unit box_tile two_particle_state
    [0%nat; 1%nat]
  = Ok (mkTile (4, 7, 14)%Z (35, 46, 27)%Z).
Proof.
  destruct (get_tile_from_multiple_particle_change_bounding unit box_tile
              two_particle_state [0%nat; 1%nat]) as (tiles & t & _ & E & _).
  - discriminate.
  - intros i [<-|[<-|[]]]; simpl; lia.
  - rewrite E. f_equal.
    assert (E' : get_tile_from_multiple_particle_change unit box_tile
                   two_particle_state [0%nat; 1%nat]
                 = Ok (mkTile (4, 7, 14)%Z (35, 46, 27)%Z)) by reflexivity.
    rewrite E' in E. inversion E. reflexivity.
Defined.

(** ** The spatial partitioner *)

Lemma nonzero_from_In (a : list bool) : forall start i,
  In i (nonzero_from start a) <->
  exists j, i = (start + j)%nat /\ nth_error a j = Some true.
Proof.
  induction a as [|b a IH]; intros start i.
  - simpl. split; [intros []|]. intros (j & _ & H). destruct j; discriminate.
  - simpl. destruct b.
    + simpl. rewrite IH. split.
      * intros [<-|(j & -> & H)].
        -- exists 0%nat. split; [lia | reflexivity].
        -- exists (S j). split; [lia | exact H].
      * intros ([|j] & -> & H).
        -- left. lia.
        -- right. exists j. split; [lia | exact H].
    + rewrite IH. split.
      * intros (j & -> & H). exists (S j). split; [lia | exact H].
      * intros ([|j] & -> & H); [discriminate|].
        exists j. split; [lia | exact H].
Qed.

Lemma nonzero_from_ge (a : list bool) : forall start i,
  In i (nonzero_from start a) -> (start <= i)%nat.
Proof.
  intros start i H. apply nonzero_from_In in H. destruct H as (j & -> & _). lia.
Qed.

Lemma nonzero_from_NoDup (a : list bool) : forall start, NoDup (nonzero_from start a).
Proof.
  induction a as [|b a IH]; intro start; simpl.
  - constructor.
  - destruct b; [|apply IH]. constructor; [|apply IH].
    intro H. apply nonzero_from_ge in H. lia.
Qed.

Lemma band_nth (a : list bool) : forall b j,
  nth_error (band a b) j = Some true <->
  nth_error a j = Some true /\ nth_error b j = Some true.
Proof.
  induction a as [|x a IH]; intros [|y b] [|j]; simpl;
    try (split; [discriminate | intros [? ?]; discriminate]).
  - split.
    + intro H. inversion H as [E]. apply andb_true_iff in E. destruct E; subst. auto.
    + intros [H1 H2]. inversion H1; inversion H2; subst. reflexivity.
  - apply IH.
Qed.

Lemma is_in_xi_nth (s : State) (bounds : vec3 * vec3) (k : axis) (j : nat) :
  nth_error (is_in_xi s bounds k) j = Some true <->
  exists pt, nth_error (obj s) j = Some pt
             /\ coord k (fst bounds) < coord k (ppos pt)
             /\ coord k (ppos pt) <= coord k (snd bounds).
Proof.
  unfold is_in_xi. rewrite nth_error_map.
  destruct (nth_error (obj s) j) as [pt|]; simpl.
  - split.
    + intro H. inversion H as [E]. apply andb_true_iff in E. destruct E as [E1 E2].
      apply Qltb_lt in E1. apply Qleb_le in E2. exists pt. auto.
    + intros (pt' & E & H1 & H2). inversion E; subst pt'.
      apply Qltb_lt in H1. apply Qleb_le in H2. rewrite H1, H2. reflexivity.
  - split; [discriminate|]. intros (pt & E & _). discriminate.
Qed.

(** The particles [find_particles_in_box] returns. *)
Lemma find_particles_in_box_In (s : State) (bounds : vec3 * vec3) (i : nat) :
  In i (find_particles_in_box s bounds) <->
  exists pt, nth_error (obj s) i = Some pt
             /\ forall k, coord k (fst bounds) < coord k (ppos pt)
                          /\ coord k (ppos pt) <= coord k (snd bounds).
Proof.
  unfold find_particles_in_box, np_nonzero. rewrite nonzero_from_In. split.
  - intros (j & -> & H). simpl.
    apply band_nth in H. destruct H as [H01 H2].
    apply band_nth in H01. destruct H01 as [H0 H1].
    apply is_in_xi_nth in H0, H1, H2.
    destruct H0 as (pt & E & A0 & B0).
    destruct H1 as (pt1 & E1 & A1 & B1).
    destruct H2 as (pt2 & E2 & A2 & B2).
    rewrite E in E1, E2. inversion E1; inversion E2; subst pt1 pt2.
    exists pt. split; [exact E|]. intros [| |]; auto.
  - intros (pt & E & H). exists i. split; [reflexivity|].
    apply band_nth. split; [apply band_nth; split|];
      apply is_in_xi_nth; exists pt; (split; [exact E|]); apply H.
Qed.

Lemma py_range_In (start stop step : Z) (pts : list Z) (x : Z) :
  py_range start stop step = Ok pts -> In x pts ->
  step <> 0%Z /\ exists j : nat, x = (start + Z.of_nat j * step)%Z.
Proof.
  unfold py_range. destruct (step =? 0)%Z eqn:E; [discriminate|].
  apply Z.eqb_neq in E. intros H Hx. inversion H; subst pts. split; [exact E|].
  apply in_map_iff in Hx. destruct Hx as (j & <- & _). exists j. reflexivity.
Qed.

Lemma all_boxes_of_In (pts0 pts1 pts2 : list Z) (rs : zvec3) (box : zvec3 * zvec3) :
  In box (all_boxes_of pts0 pts1 pts2 rs) <->
  exists s0 s1 s2, In s0 pts0 /\ In s1 pts1 /\ In s2 pts2
                   /\ box = ((s0, s1, s2), zv3add (s0, s1, s2) rs).
Proof.
  unfold all_boxes_of. rewrite in_flat_map. split.
  - intros (s0 & H0 & H). apply in_flat_map in H. destruct H as (s1 & H1 & H).
    apply in_map_iff in H. destruct H as (s2 & <- & H2).
    exists s0, s1, s2. auto.
  - intros (s0 & s1 & s2 & H0 & H1 & H2 & ->).
    exists s0. split; [exact H0|]. apply in_flat_map.
    exists s1. split; [exact H1|]. apply in_map_iff.
    exists s2. split; [reflexivity | exact H2].
Qed.

(** The lower corner of the region [separate_particles_into_groups]
    searches. *)
Definition region_lower (bounds : option (zvec3 * zvec3)) : zvec3 :=
  match bounds with
  | None => (0, 0, 0)%Z
  | Some b => fst b
  end.

Definition region_upper (s : State) (bounds : option (zvec3 * zvec3)) : zvec3 :=
  match bounds with
  | None => image_shape s
  | Some b => snd b
  end.

Definition region_step (region_size : region_size_arg) : zvec3 :=
  match region_size with
  | RsInt n => (n, n, n)
  | RsList rs => rs
  end.

(** Every group is the content of a box of the grid. *)
Lemma separate_groups_are_boxes s region_size bounds groups g :
  separate_particles_into_groups s region_size bounds = Ok groups ->
  In g groups ->
  g <> [] /\
  exists start : zvec3,
    g = find_particles_in_box s
          (box_bounds (start, zv3add start (region_step region_size)))
    /\ forall k, zcoord k (region_step region_size) <> 0%Z
                 /\ exists j : nat,
                      zcoord k start =
                      (zcoord k (region_lower bounds)
                       + Z.of_nat j * zcoord k (region_step region_size))%Z.
Proof.
  unfold separate_particles_into_groups.
  change (match region_size with RsInt n => (n, n, n) | RsList rs => rs end)
    with (region_step region_size).
  set (b := match bounds with None => ((0, 0, 0)%Z, image_shape s) | Some b => b end).
  assert (Hb : fst b = region_lower bounds) by (destruct bounds; reflexivity).
  destruct (py_range (zcoord Ax0 (fst b)) _ _) as [pts0|] eqn:R0; [|discriminate].
  destruct (py_range (zcoord Ax1 (fst b)) _ _) as [pts1|] eqn:R1; [|discriminate].
  destruct (py_range (zcoord Ax2 (fst b)) _ _) as [pts2|] eqn:R2; [|discriminate].
  simpl. intros H Hg. inversion H; subst groups. clear H.
  apply filter_In in Hg. destruct Hg as [Hg Hne].
  split; [destruct g; [discriminate | discriminate]|].
  apply in_map_iff in Hg. destruct Hg as (box & <- & Hbox).
  apply all_boxes_of_In in Hbox.
  destruct Hbox as (s0 & s1 & s2 & H0 & H1 & H2 & ->).
  exists (s0, s1, s2). split; [reflexivity|].
  rewrite <- Hb.
  intros [| |]; simpl zcoord at 2.
  - exact (py_range_In _ _ _ _ _ R0 H0).
  - exact (py_range_In _ _ _ _ _ R1 H1).
  - exact (py_range_In _ _ _ _ _ R2 H2).
Qed.

Lemma zcoord_zv3add u v k : zcoord k (zv3add u v) = (zcoord k u + zcoord k v)%Z.
Proof. destruct u as [[? ?] ?], v as [[? ?] ?], k; reflexivity. Qed.

(** C10: [find_particles_in_box] returns, without repetition, exactly
    the indices of the particles whose position is strictly above the
    lower corner and at most the upper corner on every axis; so a
    particle with a coordinate equal to the lower corner of the region
    searched by [separate_particles_into_groups] (0 under the default
    bounds) is in none of the groups. *)
Theorem find_particles_in_box_half_open
    (s : State) (bounds : vec3 * vec3) :
  (forall i,
      In i (find_particles_in_box s bounds) <->
      exists pt, nth_error (obj s) i = Some pt
                 /\ forall k, coord k (fst bounds) < coord k (ppos pt)
                              /\ coord k (ppos pt) <= coord k (snd bounds))
  /\ NoDup (find_particles_in_box s bounds)
  /\ (forall region_size region groups i pt k,
      separate_particles_into_groups s region_size region = Ok groups ->
      nth_error (obj s) i = Some pt ->
      coord k (ppos pt) == inject_Z (zcoord k (region_lower region)) ->
      forall g, In g groups -> ~ In i g).
Proof.
  split; [intro i; apply find_particles_in_box_In|].
  split; [apply nonzero_from_NoDup|].
  intros region_size region groups i pt k Hsep Hpt Heq g Hg Hin.
  destruct (separate_groups_are_boxes _ _ _ _ _ Hsep Hg) as (_ & start & -> & Hstart).
  apply find_particles_in_box_In in Hin.
  destruct Hin as (pt' & E & Hbox). rewrite Hpt in E. inversion E; subst pt'.
  destruct (Hbox k) as [Hlo Hhi].
  destruct (Hstart k) as (Hstep & j & Hj).
  unfold box_bounds in Hlo, Hhi. simpl fst in Hlo. simpl snd in Hhi.
  rewrite coord_v3_of_z in Hlo, Hhi.
  rewrite zcoord_zv3add in Hhi.
  rewrite Heq in Hlo, Hhi.
  rewrite <- Zlt_Qlt in Hlo. rewrite <- Zle_Qle in Hhi.
  rewrite Hj in Hlo, Hhi. nia.
Qed.

(** A particle on the lower face of the image under the default
    arguments. *)
Definition face_particle_state : State :=
  mkState (10, 10, 10)%Z [mkParticle (0, 5, 5) 2 1; mkParticle (3, 5, 5) 2 1] [].

Lemma find_particles_in_box_half_open_witness :
  separate_particles_into_groups face_particle_state default_region_size None
    = Ok [[1%nat]]
  /\ forall g, In g [[1%nat]] -> ~ In 0%nat g.
Proof.
  split; [reflexivity|].
  destruct (find_particles_in_box_half_open face_particle_state
              ((0, 0, 0), (10, 10, 10))) as (_ & _ & H).
  apply (H default_region_size None [[1%nat]] 0%nat (mkParticle (0, 5, 5) 2 1) Ax0).
  - reflexivity.
  - reflexivity.
  - reflexivity.
Defined.

(** *** Each particle strictly inside the region is in exactly one group *)

Lemma concat_filter_nonempty {A : Type} (l : list (list A)) :
  concat (filter nonempty l) = concat l.
Proof.
  induction l as [|g l IH]; [reflexivity|].
  simpl. destruct g as [|x g]; simpl; rewrite IH; reflexivity.
Qed.

Lemma count_occ_concat_map {B : Type} (f : B -> list nat) (l : list B) (i : nat) :
  count_occ Nat.eq_dec (concat (map f l)) i =
  list_sum (map (fun b => count_occ Nat.eq_dec (f b) i) l).
Proof.
  induction l as [|b l IH]; [reflexivity|].
  simpl. rewrite count_occ_app, IH. reflexivity.
Qed.

(** The test of [find_particles_in_box] on one position. *)
Definition in_box_b (p : vec3) (bounds : vec3 * vec3) : bool :=
  let test k := Qltb (coord k (fst bounds)) (coord k p)
                && Qleb (coord k p) (coord k (snd bounds)) in
  test Ax0 && test Ax1 && test Ax2.

Lemma in_box_b_true p bounds :
  in_box_b p bounds = true <->
  forall k, coord k (fst bounds) < coord k p /\ coord k p <= coord k (snd bounds).
Proof.
  unfold in_box_b. rewrite !andb_true_iff, !Qltb_lt, !Qleb_le. split.
  - intros [[H0 H1] H2] [| |]; assumption.
  - intro H. repeat split; apply H.
Qed.

Lemma count_find_particles_in_box s bounds i pt :
  nth_error (obj s) i = Some pt ->
  count_occ Nat.eq_dec (find_particles_in_box s bounds) i =
  if in_box_b (ppos pt) bounds then 1%nat else 0%nat.
Proof.
  intro Hpt. destruct (in_box_b (ppos pt) bounds) eqn:B.
  - apply NoDup_count_occ'; [apply nonzero_from_NoDup|].
    apply find_particles_in_box_In. exists pt. split; [exact Hpt|].
    apply in_box_b_true. exact B.
  - apply count_occ_not_In. intro H.
    apply find_particles_in_box_In in H. destruct H as (pt' & E & H).
    rewrite Hpt in E. inversion E; subst pt'.
    apply in_box_b_true in H. congruence.
Qed.

(** The test on one axis, for the box that starts at [start]. *)
Definition axis_hit (p : Q) (rs start : Z) : bool :=
  Qltb (inject_Z start) p && Qleb p (inject_Z (start + rs)).

Definition count_true {A : Type} (f : A -> bool) (l : list A) : nat :=
  length (filter f l).

Lemma list_sum_indicator {A : Type} (f : A -> bool) (l : list A) :
  list_sum (map (fun a => if f a then 1%nat else 0%nat) l) = count_true f l.
Proof.
  unfold count_true. induction l as [|a l IH]; [reflexivity|].
  simpl. destruct (f a); simpl; rewrite IH; reflexivity.
Qed.

Lemma list_sum_flat_map {A B : Type} (g : B -> nat) (F : A -> list B) (l : list A) :
  list_sum (map g (flat_map F l)) = list_sum (map (fun a => list_sum (map g (F a))) l).
Proof.
  induction l as [|a l IH]; [reflexivity|].
  simpl. rewrite map_app, list_sum_app, IH. reflexivity.
Qed.

Lemma list_sum_scaled {A : Type} (c : bool) (f : A -> bool) (l : list A) :
  list_sum (map (fun a => if c && f a then 1%nat else 0%nat) l) =
  ((if c then 1 else 0) * count_true f l)%nat.
Proof.
  destruct c; simpl.
  - rewrite list_sum_indicator. lia.
  - induction l as [|a l IH]; [reflexivity | exact IH].
Qed.

Lemma list_sum_map_mul {A : Type} (f : A -> nat) (c : nat) (l : list A) :
  list_sum (map (fun a => (f a * c)%nat) l) = (list_sum (map f l) * c)%nat.
Proof.
  induction l as [|a l IH]; [reflexivity|]. simpl. rewrite IH. lia.
Qed.

(** The number of boxes of the grid that contain a position is the
    product of the numbers of grid intervals that contain each of its
    coordinates. *)
Lemma count_boxes_product (p : vec3) (pts0 pts1 pts2 : list Z) (rs : zvec3) :
  list_sum (map (fun box => if in_box_b p (box_bounds box) then 1%nat else 0%nat)
                (all_boxes_of pts0 pts1 pts2 rs)) =
  (count_true (axis_hit (coord Ax0 p) (zcoord Ax0 rs)) pts0
   * count_true (axis_hit (coord Ax1 p) (zcoord Ax1 rs)) pts1
   * count_true (axis_hit (coord Ax2 p) (zcoord Ax2 rs)) pts2)%nat.
Proof.
  destruct p as [[x y] z], rs as [[r0 r1] r2].
  unfold all_boxes_of. rewrite list_sum_flat_map.
  transitivity
    (list_sum (map (fun s0 => ((if axis_hit x r0 s0 then 1 else 0)
                               * (count_true (axis_hit y r1) pts1
                                  * count_true (axis_hit z r2) pts2))%nat) pts0)).
  - f_equal. apply map_ext. intro s0. rewrite list_sum_flat_map.
    transitivity
      (list_sum (map (fun s1 => ((if axis_hit x r0 s0 && axis_hit y r1 s1
                                  then 1 else 0)
                                 * count_true (axis_hit z r2) pts2)%nat) pts1)).
    + f_equal. apply map_ext. intro s1. rewrite map_map.
      rewrite <- list_sum_scaled. f_equal.
    + rewrite list_sum_map_mul.
      rewrite (list_sum_scaled (axis_hit x r0 s0) (axis_hit y r1) pts1). lia.
  - rewrite list_sum_map_mul. rewrite list_sum_indicator. simpl. lia.
Qed.

(** On one axis, with a positive step, the grid intervals
    [(start, start + rs]] are disjoint and cover [(b0, b0 + n * rs]]. *)
Lemma count_axis_hits (p : Q) (b0 rs : Z) (n : nat) :
  (0 < rs)%Z ->
  let pts := map (fun k => (b0 + Z.of_nat k * rs)%Z) (seq 0 n) in
  (inject_Z b0 < p /\ p <= inject_Z (b0 + Z.of_nat n * rs) ->
   count_true (axis_hit p rs) pts = 1%nat)
  /\ (p <= inject_Z b0 \/ inject_Z (b0 + Z.of_nat n * rs) < p ->
      count_true (axis_hit p rs) pts = 0%nat).
Proof.
  intros Hrs. cbv zeta. induction n as [|n IH].
  - simpl. split; [|reflexivity]. intros [H1 H2].
    rewrite Z.add_0_r in H2. lra.
  - rewrite seq_S, map_app. unfold count_true in *. rewrite filter_app, length_app.
    assert (E : (b0 + Z.of_nat (S n) * rs = (b0 + Z.of_nat n * rs) + rs)%Z) by lia.
    rewrite E. clear E.
    change (map (fun k => (b0 + Z.of_nat k * rs)%Z) [(0 + n)%nat])
      with [(b0 + Z.of_nat n * rs)%Z].
    assert (Hmono : inject_Z b0 <= inject_Z (b0 + Z.of_nat n * rs))
      by (rewrite <- Zle_Qle; nia).
    assert (Hrq : 0 < inject_Z rs) by (apply inject_Z_pos; exact Hrs).
    set (sn := (b0 + Z.of_nat n * rs)%Z) in *.
    rewrite inject_Z_plus.
    destruct IH as [IH1 IH0].
    cbn [filter].
    destruct (axis_hit p rs sn) eqn:H; cbn [length]; unfold axis_hit in H.
    + apply andb_true_iff in H. destruct H as [A B].
      apply Qltb_lt in A. apply Qleb_le in B. rewrite inject_Z_plus in B.
      split.
      * intros _. rewrite IH0; [reflexivity | right; exact A].
      * intros [K|K]; exfalso; lra.
    + rewrite Nat.add_0_r.
      apply andb_false_iff in H. rewrite inject_Z_plus in H.
      split.
      * intros [K1 K2]. apply IH1. split; [exact K1|].
        destruct H as [A|B]; [apply Qltb_ge in A; exact A|].
        apply Qleb_gt in B. lra.
      * intros [K|K]; [apply IH0; left; exact K|].
        apply IH0. right. lra.
Qed.

Lemma py_range_positive_step (start stop step : Z) :
  (0 < step)%Z ->
  exists n : nat,
    py_range start stop step =
      Ok (map (fun k => (start + Z.of_nat k * step)%Z) (seq 0 n))
    /\ ((start < stop)%Z -> (stop <= start + Z.of_nat n * step)%Z).
Proof.
  intro Hs. unfold py_range.
  assert (E : (step =? 0)%Z = false) by (apply Z.eqb_neq; lia).
  assert (P : (0 <? step)%Z = true) by (apply Z.ltb_lt; exact Hs).
  rewrite E, P. eexists. split; [reflexivity|].
  intro Hlt.
  assert (Hq : (0 <= (stop - start + step - 1) / step)%Z)
    by (apply Z.div_pos; lia).
  rewrite Z2Nat.id by exact Hq.
  pose proof (Z.div_mod (stop - start + step - 1) step ltac:(lia)) as D.
  pose proof (Z.mod_pos_bound (stop - start + step - 1) step Hs) as M.
  nia.
Qed.

(** With a positive region size on every axis, a particle of the state
    is in at most one group, and in exactly one when its position is
    strictly above the lower corner of the region and at most its upper
    corner on every axis; every group is non-empty. *)
Lemma separate_particles_exactly_once s region_size region groups i pt :
  separate_particles_into_groups s region_size region = Ok groups ->
  (forall k, (0 < zcoord k (region_step region_size))%Z) ->
  nth_error (obj s) i = Some pt ->
  (count_occ Nat.eq_dec (concat groups) i <= 1)%nat
  /\ ((forall k, inject_Z (zcoord k (region_lower region)) < coord k (ppos pt)
                 /\ coord k (ppos pt) <= inject_Z (zcoord k (region_upper s region))) ->
      count_occ Nat.eq_dec (concat groups) i = 1%nat)
  /\ (forall g, In g groups -> g <> []).
Proof.
  intros Hsep Hrs Hpt.
  split; [|split];
    [| |intros g Hg; apply (separate_groups_are_boxes _ _ _ _ _ Hsep Hg)].
  - revert Hsep. unfold separate_particles_into_groups.
    change (match region_size with RsInt n => (n, n, n) | RsList rs => rs end)
      with (region_step region_size).
    set (b := match region with None => ((0, 0, 0)%Z, image_shape s) | Some b => b end).
    destruct (py_range_positive_step (zcoord Ax0 (fst b)) (zcoord Ax0 (snd b)) _ (Hrs Ax0))
      as (n0 & -> & _).
    destruct (py_range_positive_step (zcoord Ax1 (fst b)) (zcoord Ax1 (snd b)) _ (Hrs Ax1))
      as (n1 & -> & _).
    destruct (py_range_positive_step (zcoord Ax2 (fst b)) (zcoord Ax2 (snd b)) _ (Hrs Ax2))
      as (n2 & -> & _).
    simpl rbind. intro H. inversion H; subst groups. clear H.
    rewrite concat_filter_nonempty, count_occ_concat_map.
    rewrite (map_ext _ (fun box => if in_box_b (ppos pt) (box_bounds box)
                                   then 1%nat else 0%nat))
      by (intro box; apply count_find_particles_in_box; exact Hpt).
    rewrite count_boxes_product.
    assert (A : forall k b0 n,
               (count_true (axis_hit (coord k (ppos pt)) (zcoord k (region_step region_size)))
                  (map (fun j => (b0 + Z.of_nat j * zcoord k (region_step region_size))%Z)
                       (seq 0 n)) <= 1)%nat).
    { intros k b0 n.
      destruct (count_axis_hits (coord k (ppos pt)) b0 _ n (Hrs k)) as [H1 H0].
      destruct (Qlt_le_dec (inject_Z b0) (coord k (ppos pt))) as [L|L].
      - destruct (Qlt_le_dec (inject_Z (b0 + Z.of_nat n * zcoord k (region_step region_size)))
                    (coord k (ppos pt))) as [U|U].
        + rewrite H0; [lia | right; exact U].
        + rewrite H1; [lia | split; assumption].
      - rewrite H0; [lia | left; exact L]. }
    pose proof (A Ax0 (zcoord Ax0 (fst b)) n0) as A0.
    pose proof (A Ax1 (zcoord Ax1 (fst b)) n1) as A1.
    pose proof (A Ax2 (zcoord Ax2 (fst b)) n2) as A2.
    revert A0 A1 A2.
    generalize (count_true (axis_hit (coord Ax0 (ppos pt))
                              (zcoord Ax0 (region_step region_size)))
                  (map (fun j => (zcoord Ax0 (fst b)
                                  + Z.of_nat j * zcoord Ax0 (region_step region_size))%Z)
                       (seq 0 n0))).
    generalize (count_true (axis_hit (coord Ax1 (ppos pt))
                              (zcoord Ax1 (region_step region_size)))
                  (map (fun j => (zcoord Ax1 (fst b)
                                  + Z.of_nat j * zcoord Ax1 (region_step region_size))%Z)
                       (seq 0 n1))).
    generalize (count_true (axis_hit (coord Ax2 (ppos pt))
                              (zcoord Ax2 (region_step region_size)))
                  (map (fun j => (zcoord Ax2 (fst b)
                                  + Z.of_nat j * zcoord Ax2 (region_step region_size))%Z)
                       (seq 0 n2))).
    intros c2 c1 c0 A0 A1 A2.
    assert (C0 : c0 = 0%nat \/ c0 = 1%nat) by lia.
    assert (C1 : c1 = 0%nat \/ c1 = 1%nat) by lia.
    assert (C2 : c2 = 0%nat \/ c2 = 1%nat) by lia.
    destruct C0 as [-> | ->], C1 as [-> | ->], C2 as [-> | ->]; simpl; lia.
  - intro Hin. revert Hsep. unfold separate_particles_into_groups.
    change (match region_size with RsInt n => (n, n, n) | RsList rs => rs end)
      with (region_step region_size).
    set (b := match region with None => ((0, 0, 0)%Z, image_shape s) | Some b => b end).
    assert (Hlo : fst b = region_lower region) by (destruct region; reflexivity).
    assert (Hup : snd b = region_upper s region) by (destruct region; reflexivity).
    destruct (py_range_positive_step (zcoord Ax0 (fst b)) (zcoord Ax0 (snd b)) _ (Hrs Ax0))
      as (n0 & -> & C0).
    destruct (py_range_positive_step (zcoord Ax1 (fst b)) (zcoord Ax1 (snd b)) _ (Hrs Ax1))
      as (n1 & -> & C1).
    destruct (py_range_positive_step (zcoord Ax2 (fst b)) (zcoord Ax2 (snd b)) _ (Hrs Ax2))
      as (n2 & -> & C2).
    simpl rbind. intro H. inversion H; subst groups. clear H.
    rewrite concat_filter_nonempty, count_occ_concat_map.
    rewrite (map_ext _ (fun box => if in_box_b (ppos pt) (box_bounds box)
                                   then 1%nat else 0%nat))
      by (intro box; apply count_find_particles_in_box; exact Hpt).
    rewrite count_boxes_product.
    assert (A : forall k n,
               ((zcoord k (fst b) < zcoord k (snd b))%Z ->
                (zcoord k (snd b) <= zcoord k (fst b)
                                     + Z.of_nat n * zcoord k (region_step region_size))%Z) ->
               count_true (axis_hit (coord k (ppos pt)) (zcoord k (region_step region_size)))
                  (map (fun j => (zcoord k (fst b)
                                  + Z.of_nat j * zcoord k (region_step region_size))%Z)
                       (seq 0 n)) = 1%nat).
    { intros k n C.
      destruct (count_axis_hits (coord k (ppos pt)) (zcoord k (fst b)) _ n (Hrs k))
        as [H1 _].
      apply H1. destruct (Hin k) as [L U]. rewrite <- Hlo in L. rewrite <- Hup in U.
      split; [exact L|].
      apply Qle_trans with (inject_Z (zcoord k (snd b))); [exact U|].
      rewrite <- Zle_Qle. apply C.
      rewrite Zlt_Qlt. apply Qlt_le_trans with (coord k (ppos pt)); assumption. }
    rewrite (A Ax0 n0 C0), (A Ax1 n1 C1), (A Ax2 n2 C2). reflexivity.
Qed.

(** ** Completeness of the partition *)

(** C7, at an input where the code breaks it.  The docstring of
    [separate_particles_into_groups] promises that the default bounds
    place every particle in the image in some group.  A particle with a
    coordinate of exactly 0 is a particle [update_one_particle] accepts
    as inside the image, and it is in no group.  Particles strictly
    above the lower corner are in exactly one group, and no group is
    empty: [separate_particles_exactly_once]. *)
Lemma separate_particles_misses_face_particle :
  update_one_particle (mkState (10, 10, 10)%Z [mkParticle (5, 5, 5) 2 1] [])
    0 (0, 5, 5) 2 None false false
    = Ok (mkState (10, 10, 10)%Z [mkParticle (0, 5, 5) 2 1] [])
  /\ separate_particles_into_groups
       (mkState (10, 10, 10)%Z [mkParticle (0, 5, 5) 2 1] [])
       default_region_size None = Ok [].
Proof. split; reflexivity. Qed.

(** ** The line search *)

(** The step after [k] triplings. *)
Definition tripled (start : Q) (k : nat) : Q := Nat.iter k (fun x => x * 3) start.

Lemma tripled_succ_r start k : tripled (start * 3) k = tripled start (S k).
Proof. unfold tripled. rewrite Nat.iter_succ_r. reflexivity. Qed.

Lemma tripled_seq start k :
  start * 3 :: map (tripled (start * 3)) (seq 1 k) = map (tripled start) (seq 1 (S k)).
Proof.
  change (seq 1 (S k)) with (1%nat :: seq 2 k).
  rewrite map_cons. f_equal.
  rewrite <- (seq_shift k 1), map_map.
  apply map_ext. intro j. apply tripled_succ_r.
Qed.

Section LineMinFacts.

Variable Rng : Type.
Variable err_of : list Q -> Q.
Variable minimize_scalar_ext : (Q -> Q) -> list Q -> Z -> brent_run.

Definition lmin_for_min := for_min Rng err_of.
Definition lmin_objective := line_objective err_of.

(** The line-search state after [for_min(x)]. *)
Definition after_eval (p0 vec : list Q) (x : Q) (ls : LState Rng) : LState Rng :=
  mkLState (set_gparams Rng (model ls) (vadd p0 (vscale x vec)))
           (evaluated ls ++ [x]).

Lemma for_min_ok p0 vec x (ls : LState Rng) :
  supported (model ls) = true ->
  lmin_for_min p0 vec x ls = (Ok (lmin_objective p0 vec x), after_eval p0 vec x ls).
Proof.
  intro H. unfold lmin_for_min, for_min.
  rewrite (update_state_global_ok Rng _ _ H). reflexivity.
Qed.

Lemma after_eval_supported p0 vec x (ls : LState Rng) :
  supported (model (after_eval p0 vec x ls)) = supported (model ls).
Proof. reflexivity. Qed.

(** The bracket extension stops at the first tripled step whose error is
    not below [old], having evaluated every tripled step up to it. *)
Lemma extend_bracket_stops p0 vec old (k : nat) : forall fuel start (ls : LState Rng),
  supported (model ls) = true ->
  (1 <= k <= fuel)%nat ->
  (forall j, (1 <= j < k)%nat -> lmin_objective p0 vec (tripled start j) < old) ->
  old <= lmin_objective p0 vec (tripled start k) ->
  exists ls',
    extend_bracket Rng err_of fuel p0 vec start old ls = Some (Ok (tripled start k), ls')
    /\ evaluated ls' = evaluated ls ++ map (tripled start) (seq 1 k)
    /\ gparams (model ls') = vadd p0 (vscale (tripled start k) vec)
    /\ supported (model ls') = true.
Proof.
  induction k as [|k IH]; intros fuel start ls Hs Hk Hlt Hge; [lia|].
  destruct fuel as [|fuel]; [lia|].
  simpl extend_bracket. fold lmin_for_min. rewrite for_min_ok by exact Hs.
  destruct k as [|k].
  - change (tripled start 1) with (start * 3) in Hge.
    apply Qltb_ge in Hge. rewrite Hge.
    eexists. split; [reflexivity|]. repeat split. exact Hs.
  - assert (H1 : lmin_objective p0 vec (start * 3) < old)
      by (apply (Hlt 1%nat); lia).
    apply Qltb_lt in H1. rewrite H1.
    destruct (IH fuel (start * 3) (after_eval p0 vec (start * 3) ls))
      as (ls' & E & Hev & Hp & Hs').
    + exact Hs.
    + lia.
    + intros j Hj. rewrite tripled_succ_r. apply Hlt. lia.
    + rewrite tripled_succ_r. exact Hge.
    + exists ls'. rewrite E, tripled_succ_r. split; [reflexivity|].
      split; [|split; [rewrite <- tripled_succ_r; exact Hp | exact Hs']].
      rewrite Hev. unfold after_eval. cbn [evaluated].
      rewrite <- app_assoc. f_equal.
      exact (tripled_seq start (S k)).
Qed.

Lemma replay_evals_ok p0 vec (xs : list Q) : forall ls : LState Rng,
  supported (model ls) = true ->
  exists ls', replay_evals Rng err_of p0 vec xs ls = (Ok tt, ls')
              /\ supported (model ls') = true
              /\ evaluated ls' = evaluated ls ++ xs.
Proof.
  induction xs as [|x xs IH]; intros ls Hs.
  - exists ls. simpl. rewrite app_nil_r. auto.
  - simpl. unfold bind. fold lmin_for_min. rewrite for_min_ok by exact Hs.
    destruct (IH (after_eval p0 vec x ls) Hs) as (ls' & E & Hs' & Hev).
    exists ls'. split; [exact E|]. split; [exact Hs'|].
    rewrite Hev. simpl. rewrite <- app_assoc. reflexivity.
Qed.

(** C8 (amended): on a supported state, [do_line_min] first evaluates
    the error at the steps -2, +2 and 0.  If the error at 0 is at most
    the smaller of the other two, the bracket is [-2, 0, 2].  Otherwise
    it triples the step starting from the better endpoint (-2 when its
    error is strictly smaller, else +2) - -6, -18, ... or 6, 18, ... -
    evaluating each, until the error at the new step is no longer below
    the error at that endpoint, and puts the last step in the bracket.
    After the minimisation it raises [RuntimeError] when [res.fun] is
    strictly above the error at the start, and otherwise - also when
    [res.fun] equals it - applies the step [res.x] to the state. *)
Theorem do_line_min_bracket_and_check
    (vec : list Q) (maxiter : Z) (ls : LState Rng) :
  supported (model ls) = true ->
  let p0 := gparams (model ls) in
  let f := lmin_objective p0 vec in
  let start_err := err_of p0 in
  let ls1 := after_eval p0 vec 0 (after_eval p0 vec 2 (after_eval p0 vec (-2) ls)) in
  first_three Rng err_of p0 vec ls = (Ok (f (-2), f 2, f 0), ls1)
  /\ evaluated ls1 = evaluated ls ++ [-2; 2; 0]
  /\ (f 0 <= qmin (f (-2)) (f 2) ->
      forall fuel,
        do_line_min Rng err_of minimize_scalar_ext fuel vec maxiter ls =
        Some (minimize_and_check Rng err_of minimize_scalar_ext p0 vec start_err
                [-2; 0; 2] maxiter ls1))
  /\ (forall k fuel,
      qmin (f (-2)) (f 2) < f 0 -> f (-2) < f 2 ->
      (1 <= k <= fuel)%nat ->
      (forall j, (1 <= j < k)%nat -> f (tripled (-2) j) < f (-2)) ->
      f (-2) <= f (tripled (-2) k) ->
      exists ls2,
        evaluated ls2 = evaluated ls1 ++ map (tripled (-2)) (seq 1 k)
        /\ supported (model ls2) = true
        /\ do_line_min Rng err_of minimize_scalar_ext fuel vec maxiter ls =
           Some (minimize_and_check Rng err_of minimize_scalar_ext p0 vec start_err
                   [tripled (-2) k; -2; 0] maxiter ls2))
  /\ (forall k fuel,
      qmin (f (-2)) (f 2) < f 0 -> f 2 <= f (-2) ->
      (1 <= k <= fuel)%nat ->
      (forall j, (1 <= j < k)%nat -> f (tripled 2 j) < f 2) ->
      f 2 <= f (tripled 2 k) ->
      exists ls2,
        evaluated ls2 = evaluated ls1 ++ map (tripled 2) (seq 1 k)
        /\ supported (model ls2) = true
        /\ do_line_min Rng err_of minimize_scalar_ext fuel vec maxiter ls =
           Some (minimize_and_check Rng err_of minimize_scalar_ext p0 vec start_err
                   [0; 2; tripled 2 k] maxiter ls2))
  /\ (forall bracket (ls2 : LState Rng) res_x res_fun,
      supported (model ls2) = true ->
      brent_res (minimize_scalar_ext f bracket maxiter) = Ok (res_x, res_fun) ->
      (res_fun <= start_err ->
       exists ls3,
         minimize_and_check Rng err_of minimize_scalar_ext p0 vec start_err
           bracket maxiter ls2 = (Ok tt, ls3)
         /\ gparams (model ls3) = vadd p0 (vscale res_x vec))
      /\ (start_err < res_fun ->
          exists ls3,
            minimize_and_check Rng err_of minimize_scalar_ext p0 vec start_err
              bracket maxiter ls2 = (Raise RuntimeError, ls3))).
Proof.
  intros Hs p0 f start_err ls1.
  assert (E3 : first_three Rng err_of p0 vec ls = (Ok (f (-2), f 2, f 0), ls1)).
  { unfold first_three. unfold bind at 1. fold lmin_for_min.
    rewrite for_min_ok by exact Hs.
    unfold bind at 1. rewrite for_min_ok by exact Hs.
    unfold bind at 1. rewrite for_min_ok by exact Hs. reflexivity. }
  assert (Hs1 : supported (model ls1) = true) by exact Hs.
  split; [exact E3|]. split.
  { unfold ls1. simpl. rewrite <- !app_assoc. reflexivity. }
  split; [|split; [|split]].
  - intros Hfine fuel. unfold do_line_min. fold p0. rewrite E3.
    unfold find_bracket. apply Qltb_ge in Hfine. fold f in Hfine.
    rewrite Hfine. reflexivity.
  - intros k fuel Hout Hleft Hk Hlt Hge.
    destruct (extend_bracket_stops p0 vec (f (-2)) k fuel (-2) ls1 Hs1 Hk Hlt Hge)
      as (ls2 & E & Hev & _ & Hs2).
    exists ls2. split; [exact Hev|]. split; [exact Hs2|].
    unfold do_line_min. fold p0. rewrite E3. unfold find_bracket.
    apply Qltb_lt in Hout, Hleft. rewrite Hout, Hleft, E. reflexivity.
  - intros k fuel Hout Hright Hk Hlt Hge.
    destruct (extend_bracket_stops p0 vec (f 2) k fuel 2 ls1 Hs1 Hk Hlt Hge)
      as (ls2 & E & Hev & _ & Hs2).
    exists ls2. split; [exact Hev|]. split; [exact Hs2|].
    unfold do_line_min. fold p0. rewrite E3. unfold find_bracket.
    apply Qltb_lt in Hout. apply Qltb_ge in Hright.
    rewrite Hout, Hright, E. reflexivity.
  - intros bracket ls2 res_x res_fun Hs2 Hres.
    unfold minimize_and_check. fold f lmin_objective. fold f. rewrite Hres.
    destruct (replay_evals_ok p0 vec
                (brent_evals (minimize_scalar_ext f bracket maxiter)) ls2 Hs2)
      as (ls3 & E & Hs3 & _).
    unfold bind at 1. unfold bind at 2. rewrite E. split.
    + intro Hle. apply Qleb_le in Hle. rewrite Hle.
      unfold bind. fold lmin_for_min. rewrite for_min_ok by exact Hs3.
      eexists. split; reflexivity.
    + intro Hgt. apply Qleb_gt in Hgt. rewrite Hgt.
      eexists. reflexivity.
Qed.

End LineMinFacts.

(** *** Instances of the line search *)

(** A minimiser that checks the bracket the way [scipy]'s Brent does
    ([f(b) < f(a)] and [f(b) < f(c)], else [ValueError]) and finds no
    point better than the middle of the bracket - what Brent's method
    returns when the middle point is the minimum along the line. *)
Definition brent_middle (f : Q -> Q) (bracket : list Q) (maxiter : Z) : brent_run :=
  match bracket with
  | [a; b; c] =>
    if Qltb (f b) (f a) && Qltb (f b) (f c)
    then mkBrentRun [a; b; c] (Ok (b, f b))
    else mkBrentRun [a; b; c] (Raise ValueError)
  | _ => mkBrentRun [] (Raise ValueError)
  end.

Definition square_err (p : list Q) : Q := hd 0 p * hd 0 p.

(** An error along the line with values 5.5 at 0, 5 at -2, 6 at 2, 3 at
    -6, 4 at -18 and 7 at -54. *)
Definition bumpy_err (p : list Q) : Q :=
  let x := hd 0 p in
  if Qeq_bool x 0 then 11 # 2
  else if Qeq_bool x (-2) then 5
  else if Qeq_bool x 2 then 6
  else if Qeq_bool x (-6) then 3
  else if Qeq_bool x (-18) then 4
  else if Qeq_bool x (-54) then 7
  else 10.

Definition line_state (x : Q) : LState unit :=
  mkLState (mkGState [x] true 1000 tt) [].

(** The specification's reading of the final test: a result that is no
    better than the error at step 0 is a hard failure. *)
Definition no_better_raises_claim (err_of : list Q -> Q)
    (brent : (Q -> Q) -> list Q -> Z -> brent_run) (vec : list Q) (maxiter : Z)
    (ls : LState unit) : Prop :=
  forall fuel r ls' res_x res_fun,
    do_line_min unit err_of brent fuel vec maxiter ls = Some (r, ls') ->
    brent_res (brent (line_objective err_of (gparams (model ls)) vec)
                 [-2; 0; 2] maxiter) = Ok (res_x, res_fun) ->
    err_of (gparams (model ls)) <= res_fun ->
    r = Raise RuntimeError.

(** The specification's reading of the bracket extension: the tripling
    ends with the first step whose error is not below the error of the
    step before it. *)
Definition stops_when_not_improving_claim (f : Q -> Q) (start : Q)
    (evals : list Q) : Prop :=
  forall k, (1 <= k)%nat ->
            f (tripled start (k - 1)) <= f (tripled start k) ->
            ~ Exists (Qeq (tripled start (S k))) evals.

(** Starting at the minimum of [x^2] the minimiser returns the error at
    step 0 itself and the call succeeds; and on the bumpy error the
    tripling goes on to -54 although the error at -18 is above the one
    at -6, because each new error is compared with the error at -2. *)
Lemma do_line_min_equal_result_accepted :
  (exists ls',
      do_line_min unit square_err brent_middle 5 [1] 10 (line_state 0)
        = Some (Ok tt, ls')
      /\ brent_res (brent_middle (line_objective square_err [0] [1]) [-2; 0; 2] 10)
         = Ok (0, square_err [0 + 0 * 1])
      /\ square_err [0 + 0 * 1] == square_err [0])
  /\ ~ no_better_raises_claim square_err brent_middle [1] 10 (line_state 0)
  /\ (exists ls',
        do_line_min unit bumpy_err brent_middle 5 [1] 10 (line_state 0)
          = Some (Ok tt, ls')
        /\ Forall2 Qeq (evaluated ls') [-2; 2; 0; -6; -18; -54; -54; -2; 0; -2]
        /\ ~ stops_when_not_improving_claim (line_objective bumpy_err [0] [1])
               (-2) (evaluated ls')).
Proof.
  split; [|split].
  - eexists. split; [vm_compute; reflexivity|]. split; [reflexivity|].
    vm_compute. reflexivity.
  - unfold no_better_raises_claim. intro H.
    assert (E : exists ls', do_line_min unit square_err brent_middle 5 [1] 10
                              (line_state 0) = Some (Ok tt, ls')).
    { eexists. vm_compute. reflexivity. }
    destruct E as (ls' & E).
    specialize (H 5%nat (Ok tt) ls' 0 (square_err [0 + 0 * 1]) E eq_refl).
    assert (C : @Ok unit tt = Raise RuntimeError).
    { apply H. vm_compute. discriminate. }
    discriminate C.
  - eexists. split; [vm_compute; reflexivity|]. split.
    + repeat constructor.
    + unfold stops_when_not_improving_claim. intro H.
      apply (H 2%nat).
      * lia.
      * vm_compute. discriminate.
      * right. right. right. right. right. left. vm_compute. reflexivity.
Qed.

Lemma do_line_min_bracket_and_check_witness :
  exists ls2,
    Forall2 Qeq (evaluated ls2) [-2; 2; 0; -6; -18; -54]
    /\ do_line_min unit bumpy_err brent_middle 5 [1] 10 (line_state 0) =
       Some (minimize_and_check unit bumpy_err brent_middle [0] [1] (bumpy_err [0])
               [tripled (-2) 3; -2; 0] 10 ls2).
Proof.
  destruct (do_line_min_bracket_and_check unit bumpy_err brent_middle [1] 10
              (line_state 0)) as (_ & _ & _ & Hleft & _).
  - reflexivity.
  - destruct (Hleft 3%nat 5%nat) as (ls2 & Hev & _ & E).
    + vm_compute. reflexivity.
    + vm_compute. reflexivity.
    + lia.
    + intros j Hj. assert (J : j = 1%nat \/ j = 2%nat) by lia.
      destruct J as [-> | ->]; vm_compute; reflexivity.
    + vm_compute. discriminate.
    + exists ls2. split; [|exact E].
      rewrite Hev. repeat constructor.
Defined.

(** * Further properties of the code *)

(** ** What the particle routines keep *)

(** A particle the validity test of [update_one_particle] accepts. *)
Definition valid_particle (shape : zvec3) (pt : particle) : Prop :=
  is_bad_update shape (ppos pt) (prad pt) = false.

(** [particles_rel P s s']: [s'] is [s] with some particles among the
    indices [P] moved.  The image shape is the same; the event log has
    only grown; the table has the same length, every particle keeps its
    type and a valid particle stays valid; and a particle whose index is
    not in [P] is untouched. *)
Definition particles_rel (P : list nat) (s s' : State) : Prop :=
  image_shape s' = image_shape s
  /\ (exists evs, events s' = events s ++ evs)
  /\ Forall2 (fun pt pt' =>
                ptyp pt' = ptyp pt
                /\ (valid_particle (image_shape s) pt ->
                    valid_particle (image_shape s) pt'))
             (obj s) (obj s')
  /\ (forall j, ~ In j P -> nth_error (obj s') j = nth_error (obj s) j).

Lemma Forall2_refl_on {A : Type} (R : A -> A -> Prop) (l : list A) :
  (forall x, R x x) -> Forall2 R l l.
Proof. intro H. induction l; constructor; auto. Qed.

Lemma Forall2_trans_on {A : Type} (R : A -> A -> Prop) :
  (forall x y z, R x y -> R y z -> R x z) ->
  forall l1 l2 l3, Forall2 R l1 l2 -> Forall2 R l2 l3 -> Forall2 R l1 l3.
Proof.
  intros HR l1 l2 l3 H12. revert l3.
  induction H12 as [|x y l1 l2 Hxy _ IH]; intros l3 H23; inversion H23; subst.
  - constructor.
  - constructor; [eapply HR; eassumption | apply IH; assumption].
Qed.

Lemma Forall2_list_set {A : Type} (R : A -> A -> Prop) (l : list A) :
  forall i x y,
    (forall z, R z z) -> nth_error l i = Some y -> R y x ->
    Forall2 R l (list_set l i x).
Proof.
  induction l as [|h t IH]; intros [|i] x y Hr Hn Hx; simpl in *;
    try discriminate.
  - inversion Hn; subst. constructor; [exact Hx | apply Forall2_refl_on; exact Hr].
  - constructor; [apply Hr | eapply IH; eassumption].
Qed.

Lemma Forall2_nth_error_on {A : Type} (R : A -> A -> Prop) (l l' : list A) :
  Forall2 R l l' ->
  forall j x y, nth_error l j = Some x -> nth_error l' j = Some y -> R x y.
Proof.
  induction 1 as [|a b l l' Hab _ IH]; intros [|j] x y Hx Hy; simpl in *;
    try discriminate.
  - inversion Hx; inversion Hy; subst. exact Hab.
  - eapply IH; eassumption.
Qed.

Lemma particles_rel_refl P s : particles_rel P s s.
Proof.
  repeat split.
  - exists []. rewrite app_nil_r. reflexivity.
  - apply Forall2_refl_on. intro x. split; [reflexivity | auto].
Qed.

Lemma particles_rel_trans P s1 s2 s3 :
  particles_rel P s1 s2 -> particles_rel P s2 s3 -> particles_rel P s1 s3.
Proof.
  intros (A1 & (e1 & B1) & C1 & D1) (A2 & (e2 & B2) & C2 & D2).
  repeat split.
  - congruence.
  - exists (e1 ++ e2). rewrite B2, B1, app_assoc. reflexivity.
  - rewrite A1 in C2.
    eapply Forall2_trans_on; [|exact C1|exact C2].
    intros x y z [T1 V1] [T2 V2]. split; [congruence | auto].
  - intros j Hj. rewrite D2, D1 by exact Hj. reflexivity.
Qed.

Lemma update_one_particle_rel P s i pos rad relative fix_errors s' :
  In i P ->
  update_one_particle s i pos rad None relative fix_errors = Ok s' ->
  particles_rel P s s'.
Proof.
  intros Hi. unfold update_one_particle.
  destruct (nth_error (obj s) i) as [pt|] eqn:N; [|discriminate].
  match goal with
  | |- context [let '(a, b) := ?e in _] => destruct e as [pos' rad']
  end.
  match goal with
  | |- (if is_bad_update ?sh ?p ?r then _ else _) = _ -> _ =>
    destruct (is_bad_update sh p r) eqn:B; [discriminate|]
  end.
  intro H. inversion H; subst s'. clear H.
  repeat split.
  - exists []. simpl. rewrite app_nil_r. reflexivity.
  - simpl. eapply Forall2_list_set; [| exact N |].
    + intro z. split; [reflexivity | auto].
    + split; [reflexivity|]. intros _. exact B.
  - intros j Hj. simpl. apply list_set_other. intro E. subst j. contradiction.
Qed.

(** Computations that only move particles among [P]. *)
Definition moves_only {A : Type} (P : list nat) (m : M State A) : Prop :=
  forall s r s', m s = (r, s') -> particles_rel P s s'.

Lemma moves_only_ret {A} P (a : A) : moves_only P (ret a).
Proof. intros s r s' H. inversion H; subst. apply particles_rel_refl. Qed.

Lemma moves_only_raise {A} P e : moves_only P (@raise State A e).
Proof. intros s r s' H. inversion H; subst. apply particles_rel_refl. Qed.

Lemma moves_only_pure {A} P (f : State -> result A) : moves_only P (fun s => (f s, s)).
Proof. intros s r s' H. inversion H; subst. apply particles_rel_refl. Qed.

Lemma moves_only_bind {A B} P (m : M State A) (k : A -> M State B) :
  moves_only P m -> (forall a, moves_only P (k a)) -> moves_only P (bind m k).
Proof.
  intros Hm Hk s r s' H. unfold bind in H.
  destruct (m s) as [[a|e] s1] eqn:E.
  - eapply particles_rel_trans; [exact (Hm _ _ _ E) | exact (Hk a _ _ _ H)].
  - inversion H; subst. exact (Hm _ _ _ E).
Qed.

Lemma moves_only_if {A} P (b : bool) (m1 m2 : M State A) :
  moves_only P m1 -> moves_only P m2 -> moves_only P (if b then m1 else m2).
Proof. destruct b; auto. Qed.

Lemma moves_only_log {P} (e : event) :
  moves_only P (fun s => (Ok tt, log_event s e)).
Proof.
  intros s r s' H. inversion H; subst. repeat split.
  - exists [e]. reflexivity.
  - apply Forall2_refl_on. intro x. split; [reflexivity | auto].
Qed.

Lemma moves_only_update_one P i pos rad relative fix_errors :
  In i P -> moves_only P (update_one_particle_m i pos rad relative fix_errors).
Proof.
  intros Hi s r s' H. unfold update_one_particle_m, modify in H.
  destruct (update_one_particle s i pos rad None relative fix_errors) eqn:E;
    inversion H; subst.
  - eapply update_one_particle_rel; eassumption.
  - apply particles_rel_refl.
Qed.

Lemma moves_only_update_particles_from P particles :
  incl particles P ->
  forall a params relative fix_errors,
    moves_only P (update_particles_from a particles params relative fix_errors).
Proof.
  induction particles as [|p rest IH]; intros Hin a params relative fix_errors.
  - apply moves_only_ret.
  - simpl. apply moves_only_bind.
    + apply moves_only_update_one. apply Hin. left. reflexivity.
    + intros _. apply IH. intros x Hx. apply Hin. right. exact Hx.
Qed.

Lemma moves_only_update_particles P particles params relative fix_errors :
  incl particles P ->
  moves_only P (update_particles particles params relative fix_errors).
Proof.
  intro Hin. unfold update_particles. apply moves_only_bind.
  - apply moves_only_update_particles_from. exact Hin.
  - intros _. destruct particles; [apply moves_only_raise | apply moves_only_ret].
Qed.

Lemma moves_only_eval_one P kw sl p :
  In p P -> moves_only P (eval_one_particle_grad_effect kw sl p).
Proof.
  intro Hp.
  unfold eval_one_particle_grad_effect, perturb_pos, perturb_rad.
  apply moves_only_if; [apply moves_only_raise|].
  repeat (apply moves_only_bind; [|intros _]);
    repeat (apply moves_only_if);
    repeat (apply moves_only_bind; [|intros _]);
    repeat (apply moves_only_if);
    try apply moves_only_ret; apply moves_only_update_one; exact Hp.
Qed.

Lemma moves_only_eval_many P kw sl particles :
  incl particles P ->
  moves_only P (eval_many_particle_grad_effect kw sl particles).
Proof.
  induction particles as [|p rest IH]; intro Hin; simpl.
  - apply moves_only_ret.
  - apply moves_only_bind.
    + apply moves_only_eval_one. apply Hin. left. reflexivity.
    + intros _. apply IH. intros x Hx. apply Hin. right. exact Hx.
Qed.

Section LevMarqParticlesInvariant.

Variables Jac JTJ Grad Slice : Type.
Variable err_of : list particle -> Q.
Variable tile_from_particle_change :
  State -> vec3 -> Q -> Q -> vec3 -> Q -> Q -> Tile * Tile * Slice.
Variable eval_many_particle_grad_ext :
  list particle -> list nat -> Tile -> grad_kwargs -> Jac.
Variable j_to_jtj : Jac -> JTJ.
Variable calc_grad_ext : list particle -> Jac -> Tile -> Grad.
Variable find_LM_updates : JTJ -> Grad -> Q -> list Q.

Lemma moves_only_run particles c : forall run_length damp,
  moves_only particles
    (do_internal_run_p Jac JTJ Grad err_of calc_grad_ext find_LM_updates
       run_length particles c damp).
Proof.
  intro run_length. induction run_length as [|n IH]; intro damp; simpl.
  - apply moves_only_ret.
  - destruct c as [[dif_tile J] jtj].
    apply moves_only_bind; [apply moves_only_pure | intro g].
    apply moves_only_bind; [apply moves_only_pure | intro e0].
    apply moves_only_bind;
      [apply moves_only_update_particles; apply incl_refl | intros _].
    apply moves_only_bind; [apply moves_only_pure | intro e1].
    apply moves_only_if.
    + apply moves_only_update_particles. apply incl_refl.
    + apply IH.
Qed.

Lemma moves_only_cache kw particles v :
  moves_only particles
    (get_J_JTJ_p Jac JTJ Slice tile_from_particle_change
       eval_many_particle_grad_ext j_to_jtj kw particles v).
Proof.
  unfold get_J_JTJ_p. apply moves_only_if.
  - apply moves_only_bind; [apply moves_only_pure | intro t].
    unfold eval_many_particle_grad.
    apply moves_only_bind; [|intro J; apply moves_only_ret].
    apply moves_only_bind; [apply moves_only_pure | intro s0].
    apply moves_only_bind;
      [apply moves_only_eval_many; apply incl_refl | intros _].
    apply moves_only_ret.
  - destruct (cache v); [apply moves_only_ret | apply moves_only_raise].
Qed.

Lemma moves_only_iteration kw do_run run_length particles v :
  moves_only particles
    (particles_iteration Jac JTJ Grad Slice err_of tile_from_particle_change
       eval_many_particle_grad_ext j_to_jtj calc_grad_ext find_LM_updates
       kw do_run run_length particles v).
Proof.
  unfold particles_iteration.
  apply moves_only_bind; [apply moves_only_pure | intro e].
  apply moves_only_bind; [apply moves_only_cache | intros [[dif_tile J] jtj]].
  apply moves_only_bind; [apply moves_only_pure | intro g].
  apply moves_only_bind;
    [apply moves_only_update_particles; apply incl_refl | intros _].
  apply moves_only_bind; [apply moves_only_pure | intro e0].
  apply moves_only_bind;
    [apply moves_only_update_particles; apply incl_refl | intros _].
  apply moves_only_bind; [apply moves_only_pure | intro e1].
  apply moves_only_if.
  - unfold bad_step_p.
    apply moves_only_bind;
      [apply moves_only_update_particles; apply incl_refl | intros _].
    apply moves_only_bind; [apply moves_only_pure | intro eb].
    apply moves_only_bind; [|intros _; apply moves_only_pure].
    apply moves_only_if; [|apply moves_only_ret].
    apply moves_only_bind; [apply moves_only_log | intros _; apply moves_only_log].
  - unfold good_step_p.
    apply moves_only_bind.
    + unfold keep_better_p. apply moves_only_if; [|apply moves_only_ret].
      apply moves_only_bind;
        [apply moves_only_update_particles; apply incl_refl | intros _].
      apply moves_only_ret.
    + intro d. apply moves_only_bind; [|intros _; apply moves_only_ret].
      apply moves_only_if; [apply moves_only_run | apply moves_only_ret].
Qed.

Lemma particles_loop_moves_only kw num_iter do_run run_length particles :
  forall fuel v s r s',
    particles_loop Jac JTJ Grad Slice err_of tile_from_particle_change
      eval_many_particle_grad_ext j_to_jtj calc_grad_ext find_LM_updates
      fuel kw num_iter do_run run_length particles v s = Some (r, s') ->
    particles_rel particles s s'.
Proof.
  induction fuel as [|fuel IH]; intros v s r s' H.
  - simpl in H. destruct (Qltb (counter v) (inject_Z num_iter)); [discriminate|].
    inversion H; subst. apply particles_rel_refl.
  - simpl in H. destruct (Qltb (counter v) (inject_Z num_iter)).
    + destruct (particles_iteration Jac JTJ Grad Slice err_of
                  tile_from_particle_change eval_many_particle_grad_ext
                  j_to_jtj calc_grad_ext find_LM_updates
                  kw do_run run_length particles v s) as [[v'|e] s1] eqn:E.
      * eapply particles_rel_trans;
          [exact (moves_only_iteration _ _ _ _ _ _ _ _ E) | exact (IH _ _ _ _ H)].
      * inversion H; subst. exact (moves_only_iteration _ _ _ _ _ _ _ _ E).
    + inversion H; subst. apply particles_rel_refl.
Qed.

(** X1.  [do_levmarq_particles] moves the particles of its group and
    nothing else.  Every pass of its loop, whatever the loop variables
    and whether it returns or raises, and so every call that has come to
    an end with a result or an exception, leaves a state that differs
    from the one it started from only in the particles of the group: the
    image shape and the number of particles are the same, no particle
    changed its type, a particle outside the group is untouched, a
    particle that was inside the image with a non-negative radius still
    is, and the event log was only added to. *)
Theorem do_levmarq_particles_moves_only_the_group
    particles damp ddamp num_iter do_run run_length kw :
  (forall v s r s',
      particles_iteration Jac JTJ Grad Slice err_of tile_from_particle_change
        eval_many_particle_grad_ext j_to_jtj calc_grad_ext find_LM_updates
        kw do_run (Z.to_nat run_length) particles v s = (r, s') ->
      particles_rel particles s s')
  /\ (forall fuel s r s',
        do_levmarq_particles Jac JTJ Grad Slice err_of tile_from_particle_change
          eval_many_particle_grad_ext j_to_jtj calc_grad_ext find_LM_updates
          fuel particles damp ddamp num_iter do_run run_length kw s
        = Some (r, s') ->
        image_shape s' = image_shape s
        /\ length (obj s') = length (obj s)
        /\ (exists evs, events s' = events s ++ evs)
        /\ (forall j, ~ In j particles ->
                      nth_error (obj s') j = nth_error (obj s) j)
        /\ (forall j pt pt',
              nth_error (obj s) j = Some pt -> nth_error (obj s') j = Some pt' ->
              ptyp pt' = ptyp pt
              /\ (is_bad_update (image_shape s) (ppos pt) (prad pt) = false ->
                  is_bad_update (image_shape s') (ppos pt') (prad pt') = false))).
Proof.
  split.
  - intros v s r s' H. exact (moves_only_iteration _ _ _ _ _ _ _ _ H).
  - intros fuel s r s' H. unfold do_levmarq_particles in H.
    destruct (particles_loop_moves_only kw num_iter do_run (Z.to_nat run_length)
                particles fuel (mkVars damp ddamp true 0 None) s r s' H)
      as (Hsh & Hev & Hall & Hout).
    split; [exact Hsh|].
    split; [symmetry; eapply Forall2_length; exact Hall|].
    split; [exact Hev|]. split; [exact Hout|].
    intros j pt pt' Hj Hj'. rewrite Hsh.
    exact (Forall2_nth_error_on _ _ _ Hall j pt pt' Hj Hj').
Qed.

End LevMarqParticlesInvariant.

Lemma do_levmarq_particles_moves_only_the_group_witness :
  exists r s',
    toyp_do_levmarq_particles (1 # 11) 4 3%nat [0%nat] (1 # 10) (2 # 10) 1
      false 5 default_grad_kwargs (toyp_state 5) = Some (r, s')
    /\ length (obj s') = 1%nat.
Proof.
  assert (E : exists r s',
             toyp_do_levmarq_particles (1 # 11) 4 3%nat [0%nat] (1 # 10) (2 # 10) 1
               false 5 default_grad_kwargs (toyp_state 5) = Some (r, s')).
  { vm_compute. eexists. eexists. reflexivity. }
  destruct E as (r & s' & E). exists r, s'. split; [exact E|].
  destruct (do_levmarq_particles_moves_only_the_group Q Q Q unit
              (toyp_err 4) toyp_tile (toyp_eval_J (1 # 11)) toy_jtj (toyp_grad 4)
              toyp_solve [0%nat] (1 # 10) (2 # 10) 1 false 5 default_grad_kwargs)
    as [_ H].
  exact (proj1 (proj2 (H _ _ _ _ E))).
Defined.

(** ** What taking the derivatives does to a particle *)

(** The displacement [eval_one_particle_grad] leaves in each coordinate
    and in the radius: none with [be_nice], [+dl] with the 2-point
    stencil and [-dl] with the 3-point one. *)
Definition grad_shift (kw : grad_kwargs) : Q :=
  if be_nice kw then 0 else if threept kw then - dl kw else dl kw.

(** The room the 3-point stencil needs below a coordinate. *)
Definition grad_room_below (kw : grad_kwargs) : Q :=
  if threept kw then dl kw else 0.

(** [s] is [s0] with particle [i], which was [pt], displaced by [off]
    and its radius by [roff]. *)
Definition at_offset (s0 : State) (i : nat) (pt : particle) (off : vec3) (roff : Q)
    (s : State) : Prop :=
  exists pt',
    s = set_obj s0 (list_set (obj s0) i pt')
    /\ (forall k, coord k (ppos pt') == coord k (ppos pt) + coord k off)
    /\ prad pt' == prad pt + roff
    /\ ptyp pt' = ptyp pt.

Lemma list_set_twice {A : Type} (l : list A) : forall i x y,
  list_set (list_set l i x) i y = list_set l i y.
Proof.
  induction l as [|h t IH]; intros [|i] x y; simpl; try reflexivity.
  rewrite IH. reflexivity.
Qed.

Lemma coord_v3add u v k : coord k (v3add u v) = coord k u + coord k v.
Proof. destruct u as [[? ?] ?], v as [[? ?] ?], k; reflexivity. Qed.

Lemma coord_v3map f v k : coord k (v3map f v) = f (coord k v).
Proof. destruct v as [[? ?] ?], k; reflexivity. Qed.

Lemma coord_axis_unit_same a x : coord a (axis_unit a x) = x.
Proof. destruct a; reflexivity. Qed.

Lemma coord_axis_unit_other a k x : a <> k -> coord k (axis_unit a x) = 0.
Proof. destruct a, k; intro H; try reflexivity; congruence. Qed.

Lemma axis_eq_dec (a b : axis) : {a = b} + {a <> b}.
Proof. decide equality. Qed.

Lemma at_offset_step s0 i pt off roff s d r :
  nth_error (obj s0) i = Some pt ->
  at_offset s0 i pt off roff s ->
  (forall k, 0 <= coord k (ppos pt) + coord k off + coord k d
             /\ coord k (ppos pt) + coord k off + coord k d
                <= inject_Z (zcoord k (image_shape s0))) ->
  0 <= prad pt + roff + r ->
  exists s',
    update_one_particle_m i d r true false s = (Ok tt, s')
    /\ at_offset s0 i pt (v3add off d) (roff + r) s'.
Proof.
  intros Hn (pt' & Hs & Hc & Hr & Ht) Hd Hrad.
  assert (N : nth_error (obj s) i = Some pt').
  { rewrite Hs. simpl. eapply list_set_same. exact Hn. }
  unfold update_one_particle_m, modify.
  rewrite (update_one_particle_nofix s i pt' d r None true N).
  unfold proposed_pos, proposed_rad, new_typ.
  assert (B : is_bad_update (image_shape s) (v3add (ppos pt') d) (prad pt' + r)
              = false).
  { apply is_bad_update_false. rewrite Hs. simpl image_shape. split.
    - intro k. rewrite coord_v3add, (Hc k). exact (Hd k).
    - rewrite Hr. exact Hrad. }
  rewrite B. eexists. split; [reflexivity|].
  eexists. split; [|split; [|split]].
  - rewrite Hs. unfold set_obj. simpl. rewrite list_set_twice. reflexivity.
  - intro k. simpl. rewrite !coord_v3add, (Hc k). ring.
  - simpl. rewrite Hr. ring.
  - simpl. exact Ht.
Qed.

Lemma at_offset_eq s0 i pt off roff off' roff' s :
  (forall k, coord k off == coord k off') -> roff == roff' ->
  at_offset s0 i pt off roff s -> at_offset s0 i pt off' roff' s.
Proof.
  intros Ho Hr (pt' & Hs & Hc & Hrad & Ht). exists pt'.
  split; [exact Hs|]. split; [|split; [|exact Ht]].
  - intro k. rewrite (Hc k), (Ho k). reflexivity.
  - rewrite Hrad, Hr. reflexivity.
Qed.

Ltac axis_arith a k H :=
  rewrite ?coord_v3add, ?coord_v3map, ?coord_v3const;
  destruct (axis_eq_dec a k) as [?E|?E];
  [ subst; rewrite ?coord_axis_unit_same
  | rewrite ?(coord_axis_unit_other _ _ _ E) ];
  pose proof (H k); try split; lra.

Lemma perturb_pos_offset kw s0 i pt off roff s a :
  nth_error (obj s0) i = Some pt ->
  at_offset s0 i pt off roff s ->
  0 <= dl kw ->
  (forall k, 0 <= coord k (ppos pt) + coord k off
             /\ coord k (ppos pt) + coord k off
                <= inject_Z (zcoord k (image_shape s0))) ->
  coord a (ppos pt) + coord a off + dl kw
    <= inject_Z (zcoord a (image_shape s0)) ->
  grad_room_below kw <= coord a (ppos pt) + coord a off ->
  0 <= prad pt + roff ->
  exists s',
    perturb_pos kw i a s = (Ok tt, s')
    /\ at_offset s0 i pt (v3add off (axis_unit a (grad_shift kw))) roff s'.
Proof.
  intros Hn Hs Hdl Hin Hup Hlo Hrad.
  destruct kw as [d t b]. unfold grad_shift, grad_room_below in *.
  simpl dl in *. simpl threept in *. simpl be_nice in *.
  unfold perturb_pos. simpl dl. simpl threept. simpl be_nice.
  destruct (at_offset_step s0 i pt off roff s (axis_unit a (1 * d)) 0 Hn Hs)
    as (s1 & E1 & A1); [intro k; axis_arith a k Hin | lra |].
  unfold bind at 1. rewrite E1.
  destruct t.
  - destruct (at_offset_step s0 i pt _ _ s1
                (v3map (Qmult (-2)) (axis_unit a (1 * d))) 0 Hn A1)
      as (s2 & E2 & A2); [intro k; axis_arith a k Hin | lra |].
    unfold bind at 1. rewrite E2.
    destruct b.
    + destruct (at_offset_step s0 i pt _ _ s2 (axis_unit a (1 * d)) 0 Hn A2)
        as (s3 & E3 & A3); [intro k; axis_arith a k Hin | lra |].
      rewrite E3. eexists. split; [reflexivity|].
      eapply at_offset_eq; [| |exact A3]; [intro k; axis_arith a k Hin | lra].
    + eexists. split; [reflexivity|].
      eapply at_offset_eq; [| |exact A2]; [intro k; axis_arith a k Hin | lra].
  - destruct b.
    + destruct (at_offset_step s0 i pt _ _ s1
                  (v3map Qopp (axis_unit a (1 * d))) 0 Hn A1)
        as (s2 & E2 & A2); [intro k; axis_arith a k Hin | lra |].
      rewrite E2. eexists. split; [reflexivity|].
      eapply at_offset_eq; [| |exact A2]; [intro k; axis_arith a k Hin | lra].
    + eexists. split; [reflexivity|].
      eapply at_offset_eq; [| |exact A1]; [intro k; axis_arith a k Hin | lra].
Qed.

Lemma perturb_rad_offset kw s0 i pt off roff s :
  nth_error (obj s0) i = Some pt ->
  at_offset s0 i pt off roff s ->
  0 <= dl kw ->
  (forall k, 0 <= coord k (ppos pt) + coord k off
             /\ coord k (ppos pt) + coord k off
                <= inject_Z (zcoord k (image_shape s0))) ->
  grad_room_below kw <= prad pt + roff ->
  0 <= prad pt + roff ->
  exists s',
    perturb_rad kw i s = (Ok tt, s')
    /\ at_offset s0 i pt off (roff + grad_shift kw) s'.
Proof.
  intros Hn Hs Hdl Hin Hlo Hrad.
  destruct kw as [d t b]. unfold grad_shift, grad_room_below in *.
  simpl dl in *. simpl threept in *. simpl be_nice in *.
  unfold perturb_rad. simpl dl. simpl threept. simpl be_nice.
  assert (Z0 : forall k, coord k (v3const 0) = 0) by (intro k; apply coord_v3const).
  assert (Hin' : forall k, 0 <= coord k (ppos pt) + coord k off + 0
             /\ coord k (ppos pt) + coord k off + 0
                <= inject_Z (zcoord k (image_shape s0))).
  { intro k. pose proof (Hin k). split; lra. }
  assert (Hin2 : forall off', (forall k, coord k off' == coord k off) ->
            forall k, 0 <= coord k (ppos pt) + coord k off' + coord k (v3const 0)
             /\ coord k (ppos pt) + coord k off' + coord k (v3const 0)
                <= inject_Z (zcoord k (image_shape s0))).
  { intros off' Ho k. rewrite Z0, (Ho k). apply Hin'. }
  assert (Hoff : forall k, coord k (v3add off (v3const 0)) == coord k off).
  { intro k. rewrite coord_v3add, Z0. ring. }
  assert (Hoff2 : forall k,
            coord k (v3add (v3add off (v3const 0)) (v3const 0)) == coord k off).
  { intro k. rewrite !coord_v3add, !Z0. ring. }
  assert (Hoff3 : forall k,
            coord k (v3add (v3add (v3add off (v3const 0)) (v3const 0)) (v3const 0))
            == coord k off).
  { intro k. rewrite !coord_v3add, !Z0. ring. }
  destruct (at_offset_step s0 i pt off roff s (v3const 0) (1 * d) Hn Hs)
    as (s1 & E1 & A1); [apply Hin2; reflexivity | lra |].
  unfold bind at 1. rewrite E1.
  destruct t.
  - destruct (at_offset_step s0 i pt _ _ s1 (v3const 0) (-2 * d) Hn A1)
      as (s2 & E2 & A2); [apply Hin2; exact Hoff | lra |].
    unfold bind at 1. rewrite E2.
    destruct b.
    + destruct (at_offset_step s0 i pt _ _ s2 (v3const 0) d Hn A2)
        as (s3 & E3 & A3); [apply Hin2; exact Hoff2 | lra |].
      rewrite E3. eexists. split; [reflexivity|].
      eapply at_offset_eq; [exact Hoff3| |exact A3]. ring.
    + eexists. split; [reflexivity|].
      eapply at_offset_eq; [exact Hoff2| |exact A2]. ring.
  - destruct b.
    + destruct (at_offset_step s0 i pt _ _ s1 (v3const 0) (- d) Hn A1)
        as (s2 & E2 & A2); [apply Hin2; exact Hoff | lra |].
      rewrite E2. eexists. split; [reflexivity|].
      eapply at_offset_eq; [exact Hoff2| |exact A2]. ring.
    + eexists. split; [reflexivity|].
      eapply at_offset_eq; [exact Hoff| |exact A1]. ring.
Qed.

Lemma at_offset_start s0 i pt :
  nth_error (obj s0) i = Some pt -> at_offset s0 i pt (v3const 0) 0 s0.
Proof.
  intro Hn. exists pt. split; [|split; [|split]].
  - destruct s0 as [sh o ev]. unfold set_obj. simpl in *. f_equal.
    clear - Hn. revert i Hn. induction o as [|h t IH]; intros [|i] Hn;
      simpl in *; try discriminate.
    + inversion Hn. reflexivity.
    + rewrite <- IH by exact Hn. reflexivity.
  - intro k. rewrite coord_v3const. ring.
  - ring.
  - reflexivity.
Qed.

Lemma eval_one_particle_grad_with_room kw sl s i pt :
  sl = true \/ threept kw = true ->
  nth_error (obj s) i = Some pt ->
  0 <= dl kw ->
  (forall k, 0 <= coord k (ppos pt) /\ grad_room_below kw <= coord k (ppos pt)
             /\ coord k (ppos pt) + dl kw
                <= inject_Z (zcoord k (image_shape s))) ->
  0 <= prad pt -> grad_room_below kw <= prad pt ->
  exists pt',
    eval_one_particle_grad_effect kw sl i s
      = (Ok tt, set_obj s (list_set (obj s) i pt'))
    /\ (forall k, coord k (ppos pt') == coord k (ppos pt) + grad_shift kw)
    /\ prad pt' == prad pt + grad_shift kw
    /\ ptyp pt' = ptyp pt.
Proof.
  intros Hsl Hn Hdl Hpos Hr0 Hr.
  assert (Hsh : - dl kw <= grad_shift kw <= dl kw
                /\ (grad_shift kw < 0 -> grad_room_below kw = dl kw)).
  { destruct kw as [d t b]. unfold grad_shift, grad_room_below in *.
    simpl in *. destruct b, t; split; try split; try lra; intro; try reflexivity; lra. }
  destruct Hsh as [[Hs1 Hs2] Hs3].
  assert (Hroom : forall x, 0 <= x -> grad_room_below kw <= x -> 0 <= x + grad_shift kw).
  { intros x H0 H1. destruct (Qlt_le_dec (grad_shift kw) 0) as [N|N].
    - rewrite (Hs3 N) in H1. lra.
    - lra. }
  pose proof (at_offset_start s i pt Hn) as A0.
  unfold eval_one_particle_grad_effect.
  replace (negb sl && negb (threept kw)) with false
    by (destruct Hsl as [E|E]; rewrite E; destruct sl; reflexivity).
  destruct (perturb_pos_offset kw s i pt _ _ s Ax0 Hn A0 Hdl) as (s1 & E1 & A1).
  { intro k. rewrite coord_v3const. pose proof (Hpos k). split; lra. }
  { rewrite coord_v3const. pose proof (Hpos Ax0). lra. }
  { rewrite coord_v3const. pose proof (Hpos Ax0). lra. }
  { lra. }
  unfold bind at 1. rewrite E1.
  assert (In1 : forall k, 0 <= coord k (ppos pt)
                  + coord k (v3add (v3const 0) (axis_unit Ax0 (grad_shift kw)))
                /\ coord k (ppos pt)
                  + coord k (v3add (v3const 0) (axis_unit Ax0 (grad_shift kw)))
                  <= inject_Z (zcoord k (image_shape s))).
  { intro k. pose proof (Hpos k) as (P0 & P1 & P2). pose proof (Hroom _ P0 P1).
    rewrite coord_v3add, coord_v3const.
    destruct (axis_eq_dec Ax0 k) as [E|E];
      [subst; rewrite coord_axis_unit_same
      | rewrite (coord_axis_unit_other _ _ _ E)]; split; lra. }
  destruct (perturb_pos_offset kw s i pt _ _ s1 Ax1 Hn A1 Hdl In1) as (s2 & E2 & A2).
  { pose proof (Hpos Ax1). change (coord Ax1 (v3add (v3const 0)
      (axis_unit Ax0 (grad_shift kw)))) with (0 + 0). lra. }
  { pose proof (Hpos Ax1). change (coord Ax1 (v3add (v3const 0)
      (axis_unit Ax0 (grad_shift kw)))) with (0 + 0). lra. }
  { lra. }
  unfold bind at 1. rewrite E2.
  assert (In2 : forall k, 0 <= coord k (ppos pt)
                  + coord k (v3add (v3add (v3const 0)
                       (axis_unit Ax0 (grad_shift kw)))
                       (axis_unit Ax1 (grad_shift kw)))
                /\ coord k (ppos pt)
                  + coord k (v3add (v3add (v3const 0)
                       (axis_unit Ax0 (grad_shift kw)))
                       (axis_unit Ax1 (grad_shift kw)))
                  <= inject_Z (zcoord k (image_shape s))).
  { intro k. pose proof (Hpos k) as (P0 & P1 & P2). pose proof (Hroom _ P0 P1).
    destruct k;
      [ change (coord Ax0 (v3add (v3add (v3const 0)
                 (axis_unit Ax0 (grad_shift kw)))
                 (axis_unit Ax1 (grad_shift kw)))) with (0 + grad_shift kw + 0)
      | change (coord Ax1 (v3add (v3add (v3const 0)
                 (axis_unit Ax0 (grad_shift kw)))
                 (axis_unit Ax1 (grad_shift kw)))) with (0 + 0 + grad_shift kw)
      | change (coord Ax2 (v3add (v3add (v3const 0)
                 (axis_unit Ax0 (grad_shift kw)))
                 (axis_unit Ax1 (grad_shift kw)))) with (0 + 0 + 0) ];
      split; lra. }
  destruct (perturb_pos_offset kw s i pt _ _ s2 Ax2 Hn A2 Hdl In2) as (s3 & E3 & A3).
  { pose proof (Hpos Ax2). change (coord Ax2 (v3add (v3add (v3const 0)
                 (axis_unit Ax0 (grad_shift kw)))
                 (axis_unit Ax1 (grad_shift kw)))) with (0 + 0 + 0). lra. }
  { pose proof (Hpos Ax2). change (coord Ax2 (v3add (v3add (v3const 0)
                 (axis_unit Ax0 (grad_shift kw)))
                 (axis_unit Ax1 (grad_shift kw)))) with (0 + 0 + 0). lra. }
  { lra. }
  unfold bind at 1. rewrite E3.
  assert (A3' : at_offset s i pt (v3const (grad_shift kw)) 0 s3).
  { eapply at_offset_eq; [| |exact A3]; [|reflexivity].
    intro k. destruct k;
      [ change (coord Ax0 (v3add (v3add (v3add (v3const 0)
                 (axis_unit Ax0 (grad_shift kw)))
                 (axis_unit Ax1 (grad_shift kw)))
                 (axis_unit Ax2 (grad_shift kw))))
          with (0 + grad_shift kw + 0 + 0)
      | change (coord Ax1 (v3add (v3add (v3add (v3const 0)
                 (axis_unit Ax0 (grad_shift kw)))
                 (axis_unit Ax1 (grad_shift kw)))
                 (axis_unit Ax2 (grad_shift kw))))
          with (0 + 0 + grad_shift kw + 0)
      | change (coord Ax2 (v3add (v3add (v3add (v3const 0)
                 (axis_unit Ax0 (grad_shift kw)))
                 (axis_unit Ax1 (grad_shift kw)))
                 (axis_unit Ax2 (grad_shift kw))))
          with (0 + 0 + 0 + grad_shift kw) ];
      rewrite coord_v3const; ring. }
  destruct (perturb_rad_offset kw s i pt _ _ s3 Hn A3' Hdl) as (s4 & E4 & A4).
  { intro k. rewrite coord_v3const. pose proof (Hpos k) as (P0 & P1 & P2).
    pose proof (Hroom _ P0 P1). split; lra. }
  { lra. }
  { lra. }
  rewrite E4. destruct A4 as (pt' & Hs4 & Hc & Hrad & Ht).
  exists pt'. split; [rewrite Hs4; reflexivity|].
  split; [|split; [|exact Ht]].
  - intro k. rewrite (Hc k), coord_v3const. reflexivity.
  - rewrite Hrad. ring.
Qed.

(** The amounts [eval_one_particle_grad] adds in turn to a coordinate
    (with its axis) and to the radius: [1*dl]; then [-2*dl] with the
    3-point stencil; then, with [be_nice], [dl] (3-point) or [-dl]
    (2-point). *)
Definition grad_steps (kw : grad_kwargs) : list Q :=
  (1 * dl kw)
  :: (if threept kw
      then (-2 * dl kw) :: (if be_nice kw then [dl kw] else [])
      else if be_nice kw then [- dl kw] else []).

(** [x] after the additions of [steps], one after the other. *)
Definition after_steps (x : Q) (steps : list Q) : Q := fold_left Qplus steps x.

Lemma after_grad_steps kw x : after_steps x (grad_steps kw) == x + grad_shift kw.
Proof.
  destruct kw as [d t b]. unfold after_steps, grad_steps, grad_shift. simpl.
  destruct t, b; simpl; ring.
Qed.

(** X2.  Taking the derivatives of one particle moves it.  When a
    [slicer] is passed or the stencil is the 3-point one, for a particle
    with room for the stencil ([dl >= 0], every coordinate at most
    [shape - dl], and with the 3-point stencil every coordinate and the
    radius at least [dl]), [eval_one_particle_grad] succeeds, leaves the
    image shape, the event log and every other particle as they were,
    and leaves each coordinate and the radius of the particle at the old
    value with the steps of the stencil added one after the other:
    [x + dl] (2-point), [(x + dl) + (-2*dl)] (3-point),
    [(x + dl) + (-dl)] or [((x + dl) + (-2*dl)) + dl] with [be_nice].
    (The sums are those of the model's exact arithmetic: the steps of
    [be_nice] cancel there, and in the floats of the code up to the
    rounding of each addition.) *)
Theorem eval_one_particle_grad_adds_the_steps kw sl s i pt :
  sl = true \/ threept kw = true ->
  nth_error (obj s) i = Some pt ->
  0 <= dl kw ->
  (forall k, 0 <= coord k (ppos pt) /\ grad_room_below kw <= coord k (ppos pt)
             /\ coord k (ppos pt) + dl kw
                <= inject_Z (zcoord k (image_shape s))) ->
  0 <= prad pt -> grad_room_below kw <= prad pt ->
  exists s' pt',
    eval_one_particle_grad_effect kw sl i s = (Ok tt, s')
    /\ image_shape s' = image_shape s
    /\ events s' = events s
    /\ length (obj s') = length (obj s)
    /\ nth_error (obj s') i = Some pt'
    /\ (forall j, j <> i -> nth_error (obj s') j = nth_error (obj s) j)
    /\ (forall k, coord k (ppos pt')
                  == after_steps (coord k (ppos pt)) (grad_steps kw))
    /\ prad pt' == after_steps (prad pt) (grad_steps kw)
    /\ ptyp pt' = ptyp pt.
Proof.
  intros Hsl Hn Hdl Hpos Hr0 Hr.
  destruct (eval_one_particle_grad_with_room kw sl s i pt Hsl Hn Hdl Hpos Hr0 Hr)
    as (pt' & E & Hc & Hrad & Ht).
  exists (set_obj s (list_set (obj s) i pt')), pt'.
  split; [exact E|]. split; [reflexivity|]. split; [reflexivity|].
  split; [simpl; apply list_set_length|].
  split; [simpl; eapply list_set_same; exact Hn|].
  split.
  - intros j Hj. simpl. apply list_set_other. intro K. apply Hj. symmetry. exact K.
  - split; [|split; [|exact Ht]].
    + intro k. rewrite after_grad_steps. exact (Hc k).
    + rewrite after_grad_steps. exact Hrad.
Qed.

Lemma eval_one_particle_grad_adds_the_steps_witness :
  exists s' pt',
    eval_one_particle_grad_effect default_grad_kwargs true 0%nat (toyp_state 5)
      = (Ok tt, s')
    /\ nth_error (obj s') 0 = Some pt'
    /\ coord Ax0 (ppos pt') == 5 + (1 # 1000000).
Proof.
  destruct (eval_one_particle_grad_adds_the_steps default_grad_kwargs true
              (toyp_state 5) 0%nat (mkParticle (5, 50, 50) 5 1))
    as (s' & pt' & E & _ & _ & _ & N & _ & Hc & _).
  - left. reflexivity.
  - reflexivity.
  - vm_compute. discriminate.
  - intro k. destruct k; vm_compute; repeat split; discriminate.
  - vm_compute. discriminate.
  - vm_compute. discriminate.
  - exists s', pt'. split; [exact E|]. split; [exact N|]. exact (Hc Ax0).
Defined.

Lemma at_offset_step_bad s0 i pt off roff s d r :
  nth_error (obj s0) i = Some pt ->
  at_offset s0 i pt off roff s ->
  (exists k, coord k (ppos pt) + coord k off + coord k d < 0)
  \/ (exists k, inject_Z (zcoord k (image_shape s0))
                < coord k (ppos pt) + coord k off + coord k d)
  \/ prad pt + roff + r < 0 ->
  update_one_particle_m i d r true false s = (Raise ValueError, s).
Proof.
  intros Hn (pt' & Hs & Hc & Hr & Ht) Hbad.
  assert (N : nth_error (obj s) i = Some pt').
  { rewrite Hs. simpl. eapply list_set_same. exact Hn. }
  unfold update_one_particle_m, modify.
  rewrite (update_one_particle_nofix s i pt' d r None true N).
  unfold proposed_pos, proposed_rad.
  assert (B : is_bad_update (image_shape s) (v3add (ppos pt') d) (prad pt' + r)
              = true).
  { apply is_bad_update_true. rewrite Hs. simpl image_shape.
    destruct Hbad as [[k H]|[[k H]|H]].
    - left. exists k. rewrite coord_v3add, (Hc k). exact H.
    - right. left. exists k. rewrite coord_v3add, (Hc k). exact H.
    - right. right. rewrite Hr. exact H. }
  rewrite B. reflexivity.
Qed.

Lemma perturb_pos_raises kw s0 i pt off roff s a :
  nth_error (obj s0) i = Some pt ->
  at_offset s0 i pt off roff s ->
  0 <= dl kw ->
  (forall k, 0 <= coord k (ppos pt) + coord k off
             /\ coord k (ppos pt) + coord k off
                <= inject_Z (zcoord k (image_shape s0))) ->
  0 <= prad pt + roff ->
  inject_Z (zcoord a (image_shape s0)) < coord a (ppos pt) + coord a off + dl kw
  \/ coord a (ppos pt) + coord a off < grad_room_below kw ->
  fst (perturb_pos kw i a s) = Raise ValueError.
Proof.
  intros Hn Hs Hdl Hin Hrad Hbad.
  destruct kw as [d t b]. unfold grad_room_below in *.
  simpl dl in *. simpl threept in *.
  unfold perturb_pos. simpl dl. simpl threept. simpl be_nice.
  destruct (Qlt_le_dec (inject_Z (zcoord a (image_shape s0)))
              (coord a (ppos pt) + coord a off + d)) as [Hup|Hup].
  - unfold bind at 1.
    rewrite (at_offset_step_bad s0 i pt off roff s (axis_unit a (1 * d)) 0 Hn Hs).
    + reflexivity.
    + right. left. exists a. rewrite coord_axis_unit_same. lra.
  - destruct Hbad as [Hbad|Hbad]; [lra|].
    destruct t; [|pose proof (Hin a); lra].
    destruct (at_offset_step s0 i pt off roff s (axis_unit a (1 * d)) 0 Hn Hs)
      as (s1 & E1 & A1); [intro k; axis_arith a k Hin | lra |].
    unfold bind at 1. rewrite E1.
    unfold bind at 1.
    rewrite (at_offset_step_bad s0 i pt _ _ s1
               (v3map (Qmult (-2)) (axis_unit a (1 * d))) 0 Hn A1).
    + reflexivity.
    + left. exists a. rewrite coord_v3add, coord_v3map, !coord_axis_unit_same. lra.
Qed.

Lemma perturb_rad_raises kw s0 i pt off roff s :
  nth_error (obj s0) i = Some pt ->
  at_offset s0 i pt off roff s ->
  0 <= dl kw ->
  (forall k, 0 <= coord k (ppos pt) + coord k off
             /\ coord k (ppos pt) + coord k off
                <= inject_Z (zcoord k (image_shape s0))) ->
  0 <= prad pt + roff ->
  prad pt + roff < grad_room_below kw ->
  fst (perturb_rad kw i s) = Raise ValueError.
Proof.
  intros Hn Hs Hdl Hin Hrad Hbad.
  destruct kw as [d t b]. unfold grad_room_below in *.
  simpl dl in *. simpl threept in *.
  unfold perturb_rad. simpl dl. simpl threept. simpl be_nice.
  destruct t; [|lra].
  destruct (at_offset_step s0 i pt off roff s (v3const 0) (1 * d) Hn Hs)
    as (s1 & E1 & A1).
  { intro k. rewrite coord_v3const. pose proof (Hin k). split; lra. }
  { lra. }
  unfold bind at 1. rewrite E1. unfold bind at 1.
  rewrite (at_offset_step_bad s0 i pt _ _ s1 (v3const 0) (-2 * d) Hn A1).
  - reflexivity.
  - right. right. lra.
Qed.

(** The particle has room for the stencil of [eval_one_particle_grad]. *)
Definition grad_room (kw : grad_kwargs) (shape : zvec3) (pt : particle) : Prop :=
  (forall k, grad_room_below kw <= coord k (ppos pt)
             /\ coord k (ppos pt) + dl kw <= inject_Z (zcoord k shape))
  /\ grad_room_below kw <= prad pt.

(** In the exact arithmetic of the model, and when no name is missing,
    the derivative evaluation raises exactly when the particle lacks
    room for the stencil. *)
Lemma eval_one_particle_grad_room_iff kw sl s i pt :
  sl = true \/ threept kw = true ->
  nth_error (obj s) i = Some pt ->
  is_bad_update (image_shape s) (ppos pt) (prad pt) = false ->
  0 <= dl kw ->
  (grad_room kw (image_shape s) pt ->
   fst (eval_one_particle_grad_effect kw sl i s) = Ok tt)
  /\ (~ grad_room kw (image_shape s) pt ->
      fst (eval_one_particle_grad_effect kw sl i s) = Raise ValueError).
Proof.
  intros Hsl Hn Hok Hdl. apply is_bad_update_false in Hok.
  destruct Hok as [Hpos Hr0].
  split.
  - intros [Hroom Hrr].
    destruct (eval_one_particle_grad_with_room kw sl s i pt Hsl Hn Hdl)
      as (pt' & E & _).
    + intro k. destruct (Hpos k), (Hroom k). auto.
    + exact Hr0.
    + exact Hrr.
    + rewrite E. reflexivity.
  - intro Hno.
    assert (Hsh : - dl kw <= grad_shift kw <= dl kw
                  /\ (grad_shift kw < 0 -> grad_room_below kw = dl kw)
                  /\ 0 <= grad_room_below kw).
    { destruct kw as [d t b]. unfold grad_shift, grad_room_below in *.
      simpl in *. destruct b, t; repeat split; try lra; intro; try reflexivity; lra. }
    destruct Hsh as [[Hs1 Hs2] [Hs3 Hs4]].
    assert (Hfit : forall x, 0 <= x -> grad_room_below kw <= x ->
                             0 <= x + grad_shift kw).
    { intros x H0 H1. destruct (Qlt_le_dec (grad_shift kw) 0) as [N|N].
      - rewrite (Hs3 N) in H1. lra.
      - lra. }
    assert (Hax : forall a, {inject_Z (zcoord a (image_shape s))
                               < coord a (ppos pt) + dl kw
                             \/ coord a (ppos pt) < grad_room_below kw}
                            + {grad_room_below kw <= coord a (ppos pt)
                               /\ coord a (ppos pt) + dl kw
                                  <= inject_Z (zcoord a (image_shape s))}).
    { intro a.
      destruct (Qlt_le_dec (inject_Z (zcoord a (image_shape s)))
                  (coord a (ppos pt) + dl kw)); [left; left; assumption|].
      destruct (Qlt_le_dec (coord a (ppos pt)) (grad_room_below kw));
        [left; right; assumption | right; split; assumption]. }
    pose proof (at_offset_start s i pt Hn) as A0.
    unfold eval_one_particle_grad_effect.
    replace (negb sl && negb (threept kw)) with false
      by (destruct Hsl as [E|E]; rewrite E; destruct sl; reflexivity).
    (* axis 0 *)
    destruct (Hax Ax0) as [B0|[G0 G0']].
    { assert (R : fst (perturb_pos kw i Ax0 s) = Raise ValueError).
      { apply (perturb_pos_raises kw s i pt _ _ s Ax0 Hn A0 Hdl).
        - intro k. rewrite coord_v3const. pose proof (Hpos k). split; lra.
        - lra.
        - rewrite coord_v3const. destruct B0; [left|right]; lra. }
      unfold bind at 1.
      destruct (perturb_pos kw i Ax0 s) as [[[]|e] s1]; simpl in R |- *;
        [discriminate R | exact R]. }
    destruct (perturb_pos_offset kw s i pt _ _ s Ax0 Hn A0 Hdl) as (s1 & E1 & A1).
    { intro k. rewrite coord_v3const. pose proof (Hpos k). split; lra. }
    { rewrite coord_v3const. lra. }
    { rewrite coord_v3const. lra. }
    { lra. }
    unfold bind at 1. rewrite E1.
    assert (In1 : forall k, 0 <= coord k (ppos pt)
                    + coord k (v3add (v3const 0) (axis_unit Ax0 (grad_shift kw)))
                  /\ coord k (ppos pt)
                    + coord k (v3add (v3const 0) (axis_unit Ax0 (grad_shift kw)))
                    <= inject_Z (zcoord k (image_shape s))).
    { intro k. pose proof (Hpos k) as (P0 & P2).
      pose proof (Hfit _ (proj1 (Hpos Ax0)) G0).
      destruct k;
        [ change (coord Ax0 (v3add (v3const 0) (axis_unit Ax0 (grad_shift kw))))
            with (0 + grad_shift kw)
        | change (coord Ax1 (v3add (v3const 0) (axis_unit Ax0 (grad_shift kw))))
            with (0 + 0)
        | change (coord Ax2 (v3add (v3const 0) (axis_unit Ax0 (grad_shift kw))))
            with (0 + 0) ]; split; lra. }
    (* axis 1 *)
    destruct (Hax Ax1) as [B1|[G1 G1']].
    { assert (R : fst (perturb_pos kw i Ax1 s1) = Raise ValueError).
      { apply (perturb_pos_raises kw s i pt _ _ s1 Ax1 Hn A1 Hdl In1).
        - lra.
        - change (coord Ax1 (v3add (v3const 0) (axis_unit Ax0 (grad_shift kw))))
            with (0 + 0).
          destruct B1; [left|right]; lra. }
      unfold bind at 1.
      destruct (perturb_pos kw i Ax1 s1) as [[[]|e] s2]; simpl in R |- *;
        [discriminate R | exact R]. }
    destruct (perturb_pos_offset kw s i pt _ _ s1 Ax1 Hn A1 Hdl In1)
      as (s2 & E2 & A2).
    { change (coord Ax1 (v3add (v3const 0) (axis_unit Ax0 (grad_shift kw))))
        with (0 + 0). lra. }
    { change (coord Ax1 (v3add (v3const 0) (axis_unit Ax0 (grad_shift kw))))
        with (0 + 0). lra. }
    { lra. }
    unfold bind at 1. rewrite E2.
    assert (In2 : forall k, 0 <= coord k (ppos pt)
                    + coord k (v3add (v3add (v3const 0)
                         (axis_unit Ax0 (grad_shift kw)))
                         (axis_unit Ax1 (grad_shift kw)))
                  /\ coord k (ppos pt)
                    + coord k (v3add (v3add (v3const 0)
                         (axis_unit Ax0 (grad_shift kw)))
                         (axis_unit Ax1 (grad_shift kw)))
                    <= inject_Z (zcoord k (image_shape s))).
    { intro k. pose proof (Hpos k) as (P0 & P2).
      pose proof (Hfit _ (proj1 (Hpos Ax0)) G0).
      pose proof (Hfit _ (proj1 (Hpos Ax1)) G1).
      destruct k;
        [ change (coord Ax0 (v3add (v3add (v3const 0)
                   (axis_unit Ax0 (grad_shift kw)))
                   (axis_unit Ax1 (grad_shift kw)))) with (0 + grad_shift kw + 0)
        | change (coord Ax1 (v3add (v3add (v3const 0)
                   (axis_unit Ax0 (grad_shift kw)))
                   (axis_unit Ax1 (grad_shift kw)))) with (0 + 0 + grad_shift kw)
        | change (coord Ax2 (v3add (v3add (v3const 0)
                   (axis_unit Ax0 (grad_shift kw)))
                   (axis_unit Ax1 (grad_shift kw)))) with (0 + 0 + 0) ];
        split; lra. }
    (* axis 2 *)
    destruct (Hax Ax2) as [B2|[G2 G2']].
    { assert (R : fst (perturb_pos kw i Ax2 s2) = Raise ValueError).
      { apply (perturb_pos_raises kw s i pt _ _ s2 Ax2 Hn A2 Hdl In2).
        - lra.
        - change (coord Ax2 (v3add (v3add (v3const 0)
                   (axis_unit Ax0 (grad_shift kw)))
                   (axis_unit Ax1 (grad_shift kw)))) with (0 + 0 + 0).
          destruct B2; [left|right]; lra. }
      unfold bind at 1.
      destruct (perturb_pos kw i Ax2 s2) as [[[]|e] s3]; simpl in R |- *;
        [discriminate R | exact R]. }
    destruct (perturb_pos_offset kw s i pt _ _ s2 Ax2 Hn A2 Hdl In2)
      as (s3 & E3 & A3).
    { change (coord Ax2 (v3add (v3add (v3const 0)
                   (axis_unit Ax0 (grad_shift kw)))
                   (axis_unit Ax1 (grad_shift kw)))) with (0 + 0 + 0). lra. }
    { change (coord Ax2 (v3add (v3add (v3const 0)
                   (axis_unit Ax0 (grad_shift kw)))
                   (axis_unit Ax1 (grad_shift kw)))) with (0 + 0 + 0). lra. }
    { lra. }
    unfold bind at 1. rewrite E3.
    (* radius *)
    assert (Hrad : prad pt < grad_room_below kw).
    { apply Qnot_le_lt. intro Hrr. apply Hno. split; [|exact Hrr].
      intros [| |]; auto. }
    assert (A3' : at_offset s i pt (v3const (grad_shift kw)) 0 s3).
    { eapply at_offset_eq; [| |exact A3]; [|reflexivity].
      intro k. destruct k;
        [ change (coord Ax0 (v3add (v3add (v3add (v3const 0)
                   (axis_unit Ax0 (grad_shift kw)))
                   (axis_unit Ax1 (grad_shift kw)))
                   (axis_unit Ax2 (grad_shift kw))))
            with (0 + grad_shift kw + 0 + 0)
        | change (coord Ax1 (v3add (v3add (v3add (v3const 0)
                   (axis_unit Ax0 (grad_shift kw)))
                   (axis_unit Ax1 (grad_shift kw)))
                   (axis_unit Ax2 (grad_shift kw))))
            with (0 + 0 + grad_shift kw + 0)
        | change (coord Ax2 (v3add (v3add (v3add (v3const 0)
                   (axis_unit Ax0 (grad_shift kw)))
                   (axis_unit Ax1 (grad_shift kw)))
                   (axis_unit Ax2 (grad_shift kw))))
            with (0 + 0 + 0 + grad_shift kw) ];
        rewrite coord_v3const; ring. }
    apply (perturb_rad_raises kw s i pt _ _ s3 Hn A3' Hdl).
    + intro k. rewrite coord_v3const. pose proof (Hpos k) as (P0 & P2).
      destruct k.
      * pose proof (Hfit _ P0 G0). split; lra.
      * pose proof (Hfit _ P0 G1). split; lra.
      * pose proof (Hfit _ P0 G2). split; lra.
    + lra.
    + lra.
Qed.

(** X3.  The exceptions of the derivative evaluation, for a particle of
    the table that is inside the image with a non-negative radius.
    Called without a [slicer] and with the 2-point stencil (the
    defaults), [eval_one_particle_grad] raises [NameError] (Python's
    [UnboundLocalError], on [mask]) before it has moved anything,
    whether or not the particle has room.  Otherwise it raises
    [ValueError] for a particle with a coordinate on the upper face of
    the image, which [update_one_particle] accepts, when the step is at
    least the margin [1e-6] and that side of the image at most [2^32]
    (so that the step is not lost when a float adds it to the
    coordinate), and, with the 3-point stencil and a positive step, for
    a particle with a coordinate or a radius of zero. *)
Theorem eval_one_particle_grad_exceptions kw sl s i pt :
  nth_error (obj s) i = Some pt ->
  is_bad_update (image_shape s) (ppos pt) (prad pt) = false ->
  (sl = false -> threept kw = false ->
   eval_one_particle_grad_effect kw sl i s = (Raise NameError, s))
  /\ (sl = true \/ threept kw = true ->
      eps <= dl kw ->
      (exists k, coord k (ppos pt) == inject_Z (zcoord k (image_shape s))
                 /\ (zcoord k (image_shape s) <= 2 ^ 32)%Z) ->
      fst (eval_one_particle_grad_effect kw sl i s) = Raise ValueError)
  /\ (threept kw = true ->
      0 < dl kw ->
      (exists k, coord k (ppos pt) == 0) \/ prad pt == 0 ->
      fst (eval_one_particle_grad_effect kw sl i s) = Raise ValueError).
Proof.
  intros Hn Hok. split; [|split].
  - intros Hsl Ht. unfold eval_one_particle_grad_effect.
    rewrite Hsl, Ht. reflexivity.
  - intros Hsl Hdl (k & Hk & _). pose proof eps_pos as Hp.
    apply (eval_one_particle_grad_room_iff kw sl s i pt Hsl Hn Hok); [lra|].
    intros [Hroom _]. destruct (Hroom k) as [_ Hup]. lra.
  - intros Ht Hdl Hzero.
    apply (eval_one_particle_grad_room_iff kw sl s i pt (or_intror Ht) Hn Hok);
      [lra|].
    intros [Hroom Hrr]. unfold grad_room_below in *. rewrite Ht in *.
    destruct Hzero as [[k Hk]|Hr].
    + destruct (Hroom k) as [Hlow _]. lra.
    + lra.
Qed.

Lemma eval_one_particle_grad_exceptions_witness :
  eval_one_particle_grad_effect default_grad_kwargs false 0%nat (toyp_state 100)
  = (Raise NameError, toyp_state 100)
  /\ fst (eval_one_particle_grad_effect default_grad_kwargs true 0%nat
            (toyp_state 100))
     = Raise ValueError.
Proof.
  destruct (eval_one_particle_grad_exceptions default_grad_kwargs false
              (toyp_state 100) 0%nat (mkParticle (100, 50, 50) 5 1))
    as (A & _).
  { reflexivity. }
  { vm_compute. reflexivity. }
  destruct (eval_one_particle_grad_exceptions default_grad_kwargs true
              (toyp_state 100) 0%nat (mkParticle (100, 50, 50) 5 1))
    as (_ & B & _).
  { reflexivity. }
  { vm_compute. reflexivity. }
  split.
  - apply A; reflexivity.
  - apply B.
    + left. reflexivity.
    + vm_compute. discriminate.
    + exists Ax0. split; [reflexivity | vm_compute; discriminate].
Defined.



(** ** No rollback inside [update_particles] *)

Lemma update_particles_from_fails particles :
  forall a params relative fix_errors s e s',
    update_particles_from a particles params relative fix_errors s = (Raise e, s') ->
    exists done p rest,
      particles = done ++ p :: rest
      /\ update_particles_from a done params relative fix_errors s = (Ok tt, s')
      /\ update_one_particle s' p (param_pos params (a + length done))
           (param_rad params (a + length done)) None relative fix_errors
         = Raise e.
Proof.
  induction particles as [|p rest IH]; intros a params relative fix_errors s e s' H.
  - discriminate H.
  - simpl in H. unfold bind in H.
    destruct (update_one_particle_m p (param_pos params a) (param_rad params a)
                relative fix_errors s) as [[[]|e1] s1] eqn:E.
    + destruct (IH _ _ _ _ _ _ _ H) as (done & q & rest' & Hp & Hd & Hq).
      exists (p :: done), q, rest'. split; [simpl; rewrite Hp; reflexivity|].
      split.
      * simpl. unfold bind. rewrite E. exact Hd.
      * simpl length. rewrite <- Nat.add_succ_comm. exact Hq.
    + inversion H; subst. exists [], p, rest. split; [reflexivity|].
      unfold update_one_particle_m, modify in E.
      destruct (update_one_particle s p (param_pos params a) (param_rad params a)
                  None relative fix_errors) eqn:U; inversion E; subst.
      split; [reflexivity|]. simpl length. rewrite Nat.add_0_r. exact U.
Qed.

(** X5.  [update_particles] does not undo a partial update.  When it
    raises, either the particle list is empty (the [ValueError] of the
    minimum over no tiles, nothing changed), or the particles before the
    failing one have been moved and stay moved: the state left behind is
    exactly the one the updates of that prefix produce, and the update of
    the next particle is what raised. *)
Theorem update_particles_raises_after_prefix
    particles params relative fix_errors s e s' :
  update_particles particles params relative fix_errors s = (Raise e, s') ->
  (particles = [] /\ e = ValueError /\ s' = s)
  \/ exists done p rest,
       particles = done ++ p :: rest
       /\ update_particles_from 0 done params relative fix_errors s = (Ok tt, s')
       /\ update_one_particle s' p (param_pos params (length done))
            (param_rad params (length done)) None relative fix_errors
          = Raise e.
Proof.
  intro H. unfold update_particles in H. unfold bind in H.
  destruct (update_particles_from 0 particles params relative fix_errors s)
    as [[[]|e1] s1] eqn:E.
  - destruct particles as [|p rest].
    + left. simpl in E. inversion E; subst. inversion H; subst. auto.
    + discriminate H.
  - inversion H; subst. right.
    destruct (update_particles_from_fails _ _ _ _ _ _ _ _ E)
      as (done & p & rest & Hp & Hd & Hq).
    exists done, p, rest. auto.
Qed.

(** Two particles; the second is asked to leave the image. *)
Definition two_particles : State :=
  mkState (100, 100, 100)%Z
    [mkParticle (10, 50, 50) 5 1; mkParticle (90, 50, 50) 5 1] [].

Definition two_particles_after : State :=
  Eval vm_compute in
    snd (update_particles [0%nat; 1%nat] [1; 0; 0; 0; 20; 0; 0; 0] true false
           two_particles).

Lemma update_particles_raises_after_prefix_witness :
  update_particles_from 0 [0%nat] [1; 0; 0; 0; 20; 0; 0; 0] true false two_particles
  = (Ok tt, two_particles_after)
  /\ obj two_particles_after
     = [mkParticle (10 + 1, 50 + 0, 50 + 0) (5 + 0) 1; mkParticle (90, 50, 50) 5 1].
Proof.
  destruct (update_particles_raises_after_prefix [0%nat; 1%nat]
              [1; 0; 0; 0; 20; 0; 0; 0] true false two_particles ValueError
              two_particles_after) as [(C & _)|(done & p & rest & Hp & Hd & _)].
  - vm_compute. reflexivity.
  - discriminate C.
  - destruct done as [|d0 [|d1 done]].
    + exfalso. vm_compute in Hd. discriminate Hd.
    + inversion Hp; subst. split; [exact Hd | vm_compute; reflexivity].
    + exfalso. inversion Hp; subst.
      destruct done; discriminate H2.
Defined.

(** ** Undoing an update of several particles *)

(** Particle [pt] moved by the entries of [params] for position [a] of
    the particle list. *)
Definition moved_by (params : list Q) (a : nat) (pt : particle) : particle :=
  mkParticle (v3add (ppos pt) (param_pos params a)) (prad pt + param_rad params a)
             (ptyp pt).

(** The particle table after the relative updates of [update_particles],
    when none of them is refused or clamped. *)
Fixpoint moved_table (a : nat) (particles : list nat) (params : list Q)
    (o : list particle) : list particle :=
  match particles with
  | [] => o
  | i :: rest =>
    match nth_error o i with
    | Some pt => moved_table (S a) rest params (list_set o i (moved_by params a pt))
    | None => o
    end
  end.

Lemma update_one_particle_as_proposed s i pt pos rad fix_errors :
  nth_error (obj s) i = Some pt ->
  is_bad_update (image_shape s) (v3add (ppos pt) pos) (prad pt + rad) = false ->
  update_one_particle_m i pos rad true fix_errors s
  = (Ok tt, set_obj s (list_set (obj s) i
                         (mkParticle (v3add (ppos pt) pos) (prad pt + rad) (ptyp pt)))).
Proof.
  intros N B. unfold update_one_particle_m, modify, update_one_particle.
  rewrite N. destruct fix_errors; cbv beta iota zeta; rewrite ?B;
    cbv beta iota zeta; rewrite ?B; reflexivity.
Qed.

Lemma moved_table_run shape particles params fix_errors : forall a s,
  image_shape s = shape ->
  (forall k i, nth_error particles k = Some i ->
     exists pt, nth_error (obj s) i = Some pt
                /\ is_bad_update shape (ppos (moved_by params (a + k) pt))
                     (prad (moved_by params (a + k) pt)) = false) ->
  NoDup particles ->
  update_particles_from a particles params true fix_errors s
  = (Ok tt, set_obj s (moved_table a particles params (obj s))).
Proof.
  induction particles as [|i rest IH]; intros a s Hsh Hv Hnd.
  - simpl. destruct s; reflexivity.
  - inversion Hnd as [|? ? Hi Hrest]; subst.
    destruct (Hv 0%nat i eq_refl) as (pt & N & B).
    rewrite Nat.add_0_r in B. simpl in B.
    simpl update_particles_from. unfold bind.
    rewrite (update_one_particle_as_proposed s i pt _ _ fix_errors N B).
    simpl moved_table. rewrite N.
    rewrite IH; [reflexivity | reflexivity | | exact Hrest].
    intros k j Hk. destruct (Hv (S k) j Hk) as (ptj & Nj & Bj).
    exists ptj. split.
    + simpl. rewrite list_set_other; [exact Nj|].
      intro E; subst. apply Hi. eapply nth_error_In. exact Hk.
    + replace (S a + k)%nat with (a + S k)%nat by lia. exact Bj.
Qed.

Lemma moved_table_other particles params : forall a o j,
  ~ In j particles -> nth_error (moved_table a particles params o) j = nth_error o j.
Proof.
  induction particles as [|i rest IH]; intros a o j Hj; simpl; [reflexivity|].
  destruct (nth_error o i) as [pt|]; [|reflexivity].
  rewrite IH by (intro; apply Hj; right; assumption).
  apply list_set_other. intro E; subst. apply Hj. left. reflexivity.
Qed.

Lemma moved_table_member particles params : forall a o k i pt,
  NoDup particles ->
  (forall j, In j particles -> (j < length o)%nat) ->
  nth_error particles k = Some i ->
  nth_error o i = Some pt ->
  nth_error (moved_table a particles params o) i
  = Some (moved_by params (a + k) pt).
Proof.
  induction particles as [|i0 rest IH]; intros a o k i pt Hnd Hr Hk N.
  - destruct k; discriminate.
  - inversion Hnd as [|? ? Hi Hrest]; subst. simpl.
    assert (L : (i0 < length o)%nat) by (apply Hr; left; reflexivity).
    apply nth_error_Some in L.
    destruct (nth_error o i0) as [pt0|] eqn:N0; [|congruence].
    destruct k as [|k].
    + simpl in Hk. inversion Hk; subst i0.
      rewrite N in N0. inversion N0; subst pt0.
      rewrite moved_table_other by exact Hi.
      rewrite Nat.add_0_r. eapply list_set_same. exact N.
    + simpl in Hk.
      rewrite (IH (S a) _ k i pt Hrest).
      * replace (S a + k)%nat with (a + S k)%nat by lia. reflexivity.
      * intros j Hj. rewrite list_set_length. apply Hr. right. exact Hj.
      * exact Hk.
      * rewrite list_set_other; [exact N|].
        intro E; subst. apply Hi. eapply nth_error_In. exact Hk.
Qed.

Lemma moved_table_length particles params : forall a o,
  length (moved_table a particles params o) = length o.
Proof.
  induction particles as [|i rest IH]; intros a o; simpl; [reflexivity|].
  destruct (nth_error o i); [|reflexivity].
  rewrite IH. apply list_set_length.
Qed.

(** X6.  An update of several particles followed by the negated update.
    For distinct particles of the state, each valid where the relative
    update [params] puts it and valid again where [-params] puts it from
    there, [update_particles] with [params] and then [update_particles]
    with [-params] both succeed, whatever [fix_errors] is in either
    call.  Afterwards the image shape, the event log and every particle
    that is not listed are as they were, and a listed particle has kept
    its type and has, for each coordinate and for the radius, the value
    [(x + d) + (-d)] of the two additions made in turn: its old value in
    exact arithmetic, and in the floats of the code its old value up to
    the rounding of the two additions. *)
Theorem update_particles_then_negated particles params fix1 fix2 s :
  particles <> [] ->
  NoDup particles ->
  (forall k i, nth_error particles k = Some i ->
     exists pt, nth_error (obj s) i = Some pt
                /\ is_bad_update (image_shape s)
                     (ppos (moved_by params k pt))
                     (prad (moved_by params k pt)) = false
                /\ is_bad_update (image_shape s)
                     (ppos (moved_by (vneg params) k (moved_by params k pt)))
                     (prad (moved_by (vneg params) k (moved_by params k pt)))
                   = false) ->
  exists s1 s2,
    update_particles particles params true fix1 s = (Ok tt, s1)
    /\ update_particles particles (vneg params) true fix2 s1 = (Ok tt, s2)
    /\ image_shape s2 = image_shape s
    /\ events s2 = events s
    /\ length (obj s2) = length (obj s)
    /\ (forall j, ~ In j particles -> nth_error (obj s2) j = nth_error (obj s) j)
    /\ (forall k i pt,
          nth_error particles k = Some i -> nth_error (obj s) i = Some pt ->
          nth_error (obj s2) i
          = Some (moved_by (vneg params) k (moved_by params k pt))).
Proof.
  intros Hne Hnd Hv.
  assert (Hr : forall j, In j particles -> (j < length (obj s))%nat).
  { intros j Hj. apply In_nth_error in Hj. destruct Hj as (k & Hk).
    destruct (Hv k j Hk) as (pt & N & _). apply nth_error_Some. congruence. }
  set (o1 := moved_table 0 particles params (obj s)).
  assert (E1 : update_particles_from 0 particles params true fix1 s
               = (Ok tt, set_obj s o1)).
  { apply (moved_table_run (image_shape s)); [reflexivity| |exact Hnd].
    intros k i Hk. destruct (Hv k i Hk) as (pt & N & B & _).
    exists pt. split; [exact N | exact B]. }
  set (o2 := moved_table 0 particles (vneg params) o1).
  assert (E2 : update_particles_from 0 particles (vneg params) true fix2 (set_obj s o1)
               = (Ok tt, set_obj (set_obj s o1) o2)).
  { apply (moved_table_run (image_shape s)); [reflexivity| |exact Hnd].
    intros k i Hk. destruct (Hv k i Hk) as (pt & N & _ & B).
    exists (moved_by params k pt). split.
    - simpl obj. unfold o1.
      rewrite (moved_table_member particles params 0 (obj s) k i pt Hnd Hr Hk N).
      reflexivity.
    - exact B. }
  exists (set_obj s o1), (set_obj (set_obj s o1) o2).
  unfold update_particles, bind. rewrite E1, E2.
  destruct particles as [|p0 rest]; [contradiction|].
  split; [reflexivity|]. split; [reflexivity|]. split; [reflexivity|].
  split; [reflexivity|]. split; [|split].
  - simpl obj. unfold o2, o1. rewrite !moved_table_length. reflexivity.
  - intros j Hout. simpl obj. unfold o2, o1.
    rewrite !moved_table_other by exact Hout. reflexivity.
  - intros k i pt Hk N. simpl obj. unfold o2.
    apply (moved_table_member (p0 :: rest) (vneg params) 0 o1 k i _ Hnd).
    + intros j Hj. unfold o1. rewrite moved_table_length. apply Hr. exact Hj.
    + exact Hk.
    + unfold o1.
      apply (moved_table_member (p0 :: rest) params 0 (obj s) k i pt Hnd Hr Hk N).
Qed.

Lemma update_particles_then_negated_witness :
  exists s1 s2,
    update_particles [0%nat; 1%nat] [1; 2; 3; 1; -4; 0; 0; 0] true true
      two_particles = (Ok tt, s1)
    /\ update_particles [0%nat; 1%nat] (vneg [1; 2; 3; 1; -4; 0; 0; 0]) true false
         s1 = (Ok tt, s2)
    /\ nth_error (obj s2) 0
       = Some (moved_by (vneg [1; 2; 3; 1; -4; 0; 0; 0]) 0
                 (moved_by [1; 2; 3; 1; -4; 0; 0; 0] 0
                    (mkParticle (10, 50, 50) 5 1))).
Proof.
  destruct (update_particles_then_negated [0%nat; 1%nat]
              [1; 2; 3; 1; -4; 0; 0; 0] true false two_particles)
    as (s1 & s2 & E1 & E2 & _ & _ & _ & _ & H).
  - discriminate.
  - constructor; [intros [H|[]]; discriminate H|].
    constructor; [intros []|constructor].
  - intros k i Hk. destruct k as [|[|k]]; simpl in Hk.
    + inversion Hk; subst i. eexists. split; [reflexivity|].
      split; vm_compute; reflexivity.
    + inversion Hk; subst i. eexists. split; [reflexivity|].
      split; vm_compute; reflexivity.
    + destruct k; discriminate Hk.
  - exists s1, s2. split; [exact E1|]. split; [exact E2|].
    apply (H 0%nat 0%nat); reflexivity.
Defined.

(** ** A whole call of [do_levmarq] *)

(** A range for [ddamp] that its reciprocal does not leave: from [2^-64]
    to [2^64].  The bounds are powers of two, so the reciprocal of a
    float in the range is a float in the range, finite and not zero. *)
Definition ddamp_max : Q := inject_Z (2 ^ 64).

Definition ddamp_in_range (d : Q) : Prop := / ddamp_max <= d /\ d <= ddamp_max.

Lemma ddamp_max_pos : 0 < ddamp_max.
Proof. reflexivity. Qed.

Lemma ddamp_in_range_pos d : ddamp_in_range d -> 0 < d.
Proof.
  intros [H _]. pose proof (Qinv_lt_0_compat _ ddamp_max_pos). lra.
Qed.

Lemma ddamp_in_range_inv d : ddamp_in_range d -> ddamp_in_range (1 / d).
Proof.
  intro H. pose proof (ddamp_in_range_pos d H) as Hp. destruct H as [H1 H2].
  pose proof ddamp_max_pos as Hm.
  pose proof (Qinv_lt_0_compat _ Hm) as Hi.
  assert (E : ddamp_max * / ddamp_max == 1) by (apply Qmult_inv_r; lra).
  split.
  - apply Qle_shift_div_l; [exact Hp|].
    apply (Qmult_le_l _ _ (/ ddamp_max) Hi) in H2.
    rewrite (Qmult_comm _ ddamp_max), E in H2. lra.
  - apply Qle_shift_div_r; [exact Hp|].
    apply (Qmult_le_l _ _ ddamp_max Hm) in H1. rewrite E in H1. exact H1.
Qed.

Section LevMarqWhole.

Variables Jac Inds JTJ Grad Rng : Type.
Variable err_of : list Q -> Q.
Variable get_rand_Japprox_ext :
  Rng -> list Q -> num -> (Jac * Inds) * list Q * Rng.
Variable j_to_jtj : Jac -> JTJ.
Variable calc_im_grad_ext : list Q -> Jac -> Inds -> Grad.
Variable find_LM_updates : JTJ -> Grad -> Q -> list Q.

(** What the loop variables satisfy at the head of every iteration:
    [ddamp] is in its range, and J is either about to be computed or
    held from an earlier iteration. *)
Definition lm_ready (v : Vars Jac Inds JTJ Grad) : Prop :=
  ddamp_in_range (ddamp v) /\ (recalc_J v = true \/ cache v <> None).

Lemma lm_cache_returns num_px (v : Vars Jac Inds JTJ Grad) (s : GState Rng) :
  recalc_J v = true \/ cache v <> None ->
  exists c s1,
    lm_cache Jac Inds JTJ Grad Rng get_rand_Japprox_ext j_to_jtj calc_im_grad_ext
      num_px v s = (Ok c, s1).
Proof.
  intro H. unfold lm_cache, get_J_JTJ_grad.
  destruct (recalc_J v).
  - unfold bind, get_rand_Japprox, calc_im_grad, ret.
    destruct (get_rand_Japprox_ext (rng s) (gparams s) num_px) as [[[J inds] p] g].
    eexists. eexists. reflexivity.
  - destruct H as [H|H]; [discriminate|].
    destruct (cache v) as [c|]; [|contradiction].
    eexists. eexists. reflexivity.
Qed.

Lemma lm_iteration_returns num_px do_run run_length v (s : GState Rng) :
  supported s = true -> lm_ready v ->
  exists v' s',
    lm_iteration Jac Inds JTJ Grad Rng err_of get_rand_Japprox_ext j_to_jtj
      calc_im_grad_ext find_LM_updates num_px do_run run_length v s = (Ok v', s')
    /\ lm_ready v'.
Proof.
  intros Hs [Hd Hc].
  destruct (lm_cache_returns num_px v s Hc) as (c & s1 & E).
  pose proof (lm_iteration_unfold Jac Inds JTJ Grad Rng err_of get_rand_Japprox_ext
                j_to_jtj calc_im_grad_ext find_LM_updates
                num_px do_run run_length v s c s1 Hs E) as U.
  cbv zeta in U. rewrite U.
  destruct (lm_cache_supported _ _ _ _ _ _ _ _ _ _ _ _ _ E) as [Hs1 _].
  rewrite Hs in Hs1.
  match goal with |- context [Qltb ?a ?b] => destruct (Qltb a b) end.
  - unfold after_bad_step.
    match goal with |- context [Qltb ?a ?b] => destruct (Qltb a b) end.
    + match goal with
      | |- context [Qeq_bool ?a ?b] => destruct (Qeq_bool a b) eqn:Z0
      end.
      * apply Qeq_bool_iff in Z0. exfalso.
        pose proof (ddamp_in_range_pos _ Hd). lra.
      * eexists. eexists. split; [reflexivity|]. split; simpl.
        -- apply ddamp_in_range_inv. exact Hd.
        -- right. discriminate.
    + eexists. eexists. split; [reflexivity|]. split; simpl.
      * exact Hd.
      * right. discriminate.
  - destruct (lm_good_step_returns Jac Inds JTJ Grad Rng err_of calc_im_grad_ext
                find_LM_updates do_run run_length (gparams s)
                (lm_d0 Jac Inds JTJ Grad find_LM_updates c v)
                (err_of (vadd (gparams s) (lm_d0 Jac Inds JTJ Grad find_LM_updates c v)))
                (err_of (vadd (gparams s) (lm_d1 Jac Inds JTJ Grad find_LM_updates c v)))
                c v
                (set_gparams Rng s1
                   (vadd (gparams s) (lm_d1 Jac Inds JTJ Grad find_LM_updates c v)))
                Hs1) as (s' & G).
    rewrite G. eexists. eexists. split; [reflexivity|]. split; simpl.
    + exact Hd.
    + left. reflexivity.
Qed.

Lemma lm_loop_no_exception num_px num_iter do_run run_length :
  forall fuel v (s : GState Rng) r s',
    supported s = true -> lm_ready v ->
    lm_loop Jac Inds JTJ Grad Rng err_of get_rand_Japprox_ext j_to_jtj
      calc_im_grad_ext find_LM_updates fuel num_px num_iter do_run run_length v s
    = Some (r, s') ->
    r = Ok tt /\ supported s' = true
    /\ err_of (gparams s') <= err_of (gparams s).
Proof.
  induction fuel as [|fuel IH]; intros v s r s' Hs Hr H.
  - unfold lm_loop in H. simpl in H.
    destruct (Qltb (counter v) (inject_Z num_iter)); [discriminate|].
    inversion H; subst. repeat split; try assumption. apply Qle_refl.
  - unfold lm_loop in *. simpl in H.
    destruct (Qltb (counter v) (inject_Z num_iter)).
    + destruct (lm_iteration_returns num_px do_run run_length v s Hs Hr)
        as (v' & s1 & E & Hr').
      destruct (lm_iteration_descends Jac Inds JTJ Grad Rng err_of
                  get_rand_Japprox_ext j_to_jtj calc_im_grad_ext find_LM_updates
                  num_px do_run run_length v s (Ok v') s1 Hs E) as [Hs1 Hle].
      unfold lm_iteration in E. rewrite E in H.
      destruct (IH v' s1 r s' Hs1 Hr' H) as (Hok & Hs' & Hle').
      split; [exact Hok|]. split; [exact Hs'|]. lra.
    + inversion H; subst. repeat split; try assumption. apply Qle_refl.
Qed.

(** X7.  [do_levmarq] on a state [update_state_global] supports, with a
    pixel budget that can be computed and a [ddamp] between [2^-64] and
    [2^64], as long as the external functions return.  Every pass of
    the loop, from loop variables whose [ddamp] is in that range and
    that hold J or are about to compute it, returns without an exception
    (J is never read before it is computed, and [ddamp] is never made
    zero), leaves such loop variables again, and leaves a supported
    state whose error is no larger than before the pass.  So a call that
    has come to an end, after however many passes, has raised nothing
    and has left a state whose error is no larger than the error it
    started from. *)
Theorem do_levmarq_no_exception_no_worse
    damp0 ddamp0 num_iter do_run run_length kw (s : GState Rng) num_px :
  supported s = true ->
  ddamp_in_range ddamp0 ->
  get_num_px_jtj (inner_size s) (Z.of_nat (length (gparams s)))
    (decimate kw) (max_mem kw) (min_redundant kw) = Ok num_px ->
  lm_ready (mkVars damp0 ddamp0 true 0 None)
  /\ (forall v (s1 : GState Rng),
        supported s1 = true -> lm_ready v ->
        exists v' s2,
          lm_iteration Jac Inds JTJ Grad Rng err_of get_rand_Japprox_ext j_to_jtj
            calc_im_grad_ext find_LM_updates num_px do_run (Z.to_nat run_length)
            v s1 = (Ok v', s2)
          /\ lm_ready v'
          /\ supported s2 = true
          /\ err_of (gparams s2) <= err_of (gparams s1))
  /\ (forall fuel r s',
        do_levmarq Jac Inds JTJ Grad Rng err_of get_rand_Japprox_ext j_to_jtj
          calc_im_grad_ext find_LM_updates fuel damp0 ddamp0 num_iter do_run
          run_length kw s = Some (r, s') ->
        r = Ok tt /\ supported s' = true
        /\ err_of (gparams s') <= err_of (gparams s)).
Proof.
  intros Hs Hd Hpx.
  assert (R0 : lm_ready (mkVars damp0 ddamp0 true 0 None))
    by (split; [exact Hd | left; reflexivity]).
  split; [exact R0|]. split.
  - intros v s1 Hs1 Hr.
    destruct (lm_iteration_returns num_px do_run (Z.to_nat run_length) v s1 Hs1 Hr)
      as (v' & s2 & E & Hr').
    destruct (lm_iteration_descends Jac Inds JTJ Grad Rng err_of
                get_rand_Japprox_ext j_to_jtj calc_im_grad_ext find_LM_updates
                num_px do_run (Z.to_nat run_length) v s1 (Ok v') s2 Hs1 E)
      as [Hs2 Hle].
    exists v', s2. split; [exact E|]. split; [exact Hr'|].
    split; assumption.
  - intros fuel r s' H. unfold do_levmarq in H. rewrite Hpx in H.
    exact (lm_loop_no_exception num_px num_iter do_run (Z.to_nat run_length)
             fuel _ s r s' Hs R0 H).
Qed.

(** X8.  On a state [update_state_global] does not support, a call of
    [do_levmarq] that enters its loop ([num_iter > 0], pixel budget
    computed) raises [RuntimeError] at its first trial update: after the
    derivatives were taken, and with the parameters as the finite
    differences left them, not the ones it was called with. *)
Theorem do_levmarq_unsupported_raises_after_derivatives
    fuel damp0 ddamp0 num_iter do_run run_length kw (s : GState Rng) num_px :
  supported s = false ->
  get_num_px_jtj (inner_size s) (Z.of_nat (length (gparams s)))
    (decimate kw) (max_mem kw) (min_redundant kw) = Ok num_px ->
  (0 < num_iter)%Z ->
  do_levmarq Jac Inds JTJ Grad Rng err_of get_rand_Japprox_ext j_to_jtj
    calc_im_grad_ext find_LM_updates (S fuel) damp0 ddamp0 num_iter do_run
    run_length kw s
  = Some (Raise RuntimeError,
          snd (get_rand_Japprox Jac Inds Rng get_rand_Japprox_ext num_px s)).
Proof.
  intros Hs Hpx Hn. unfold do_levmarq. rewrite Hpx. simpl levmarq_loop.
  assert (C : Qltb 0 (inject_Z num_iter) = true).
  { apply Qltb_lt. change 0 with (inject_Z 0). rewrite <- Zlt_Qlt. exact Hn. }
  simpl counter. rewrite C.
  unfold levmarq_iteration, get_J_JTJ_grad, get_rand_Japprox, bind, get_block,
    get_err, calc_im_grad, ret, update_state_global.
  cbn [recalc_J].
  destruct (get_rand_Japprox_ext (rng s) (gparams s) num_px) as [[[J inds] p] g].
  cbn [supported snd]. rewrite Hs. reflexivity.
Qed.

End LevMarqWhole.

Lemma do_levmarq_no_exception_no_worse_witness :
  exists r s',
    toy_do_levmarq 1 3 3%nat (1 # 10) (1 # 10) 1 false 5 default_px_kwargs
      (toy_state 0) = Some (r, s')
    /\ r = Ok tt
    /\ toy_err 3 (gparams s') <= toy_err 3 (gparams (toy_state 0)).
Proof.
  assert (E : exists r s',
             toy_do_levmarq 1 3 3%nat (1 # 10) (1 # 10) 1 false 5
               default_px_kwargs (toy_state 0) = Some (r, s')).
  { vm_compute. eexists. eexists. reflexivity. }
  destruct E as (r & s' & E). exists r, s'. split; [exact E|].
  destruct (do_levmarq_no_exception_no_worse Q unit Q Q unit (toy_err 3)
              (toy_Japprox 1) toy_jtj (toy_grad 3) toy_solve (1 # 10) (1 # 10) 1
              false 5 default_px_kwargs (toy_state 0) (Int 20))
    as (_ & _ & H).
  - reflexivity.
  - split; vm_compute; discriminate.
  - vm_compute. reflexivity.
  - destruct (H 3%nat r s' E) as (Hok & _ & Hle). split; [exact Hok | exact Hle].
Defined.

(** The same one-parameter model with a parameter set
    [update_state_global] does not know. *)
Definition toy_state_unsupported (x : Q) : GState unit := mkGState [x] false 1000 tt.

Lemma do_levmarq_unsupported_raises_after_derivatives_witness :
  toy_do_levmarq 1 3 1%nat (1 # 10) (1 # 10) 1 false 5 default_px_kwargs
    (toy_state_unsupported 0)
  = Some (Raise RuntimeError, toy_state_unsupported 0).
Proof.
  apply (do_levmarq_unsupported_raises_after_derivatives Q unit Q Q unit
           (toy_err 3) (toy_Japprox 1) toy_jtj (toy_grad 3) toy_solve 0%nat
           (1 # 10) (1 # 10) 1 false 5 default_px_kwargs
           (toy_state_unsupported 0) (Int 20)).
  - reflexivity.
  - vm_compute. reflexivity.
  - reflexivity.
Defined.

(** ** The groups of the partitioner *)

Lemma py_range_zero_step start stop : py_range start stop 0 = Raise ValueError.
Proof. reflexivity. Qed.

Lemma py_range_negative_step start stop step :
  (step < 0)%Z -> (start <= stop)%Z -> py_range start stop step = Ok [].
Proof.
  intros Hs Hle. unfold py_range.
  assert (E : (step =? 0)%Z = false) by (apply Z.eqb_neq; lia).
  assert (P : (0 <? step)%Z = false) by (apply Z.ltb_ge; lia).
  rewrite E, P.
  assert (N : ((start - stop - step - 1) / - step <= 0)%Z).
  { assert (((start - stop - step - 1) / - step < 1)%Z); [|lia].
    apply Z.div_lt_upper_bound; lia. }
  destruct ((start - stop - step - 1) / - step)%Z; try lia; reflexivity.
Qed.

Lemma py_range_nonzero_step start stop step :
  step <> 0%Z -> exists pts, py_range start stop step = Ok pts.
Proof.
  intro H. unfold py_range.
  assert (E : (step =? 0)%Z = false) by (apply Z.eqb_neq; exact H).
  rewrite E. eexists. reflexivity.
Qed.

Lemma all_boxes_of_nil_0 pts1 pts2 rs : all_boxes_of [] pts1 pts2 rs = [].
Proof. reflexivity. Qed.

Lemma all_boxes_of_nil_1 pts0 pts2 rs : all_boxes_of pts0 [] pts2 rs = [].
Proof.
  destruct (all_boxes_of pts0 [] pts2 rs) as [|x l] eqn:E; [reflexivity|].
  assert (H : In x (all_boxes_of pts0 [] pts2 rs)) by (rewrite E; left; reflexivity).
  apply all_boxes_of_In in H. destruct H as (s0 & s1 & s2 & _ & [] & _).
Qed.

Lemma all_boxes_of_nil_2 pts0 pts1 rs : all_boxes_of pts0 pts1 [] rs = [].
Proof.
  destruct (all_boxes_of pts0 pts1 [] rs) as [|x l] eqn:E; [reflexivity|].
  assert (H : In x (all_boxes_of pts0 pts1 [] rs)) by (rewrite E; left; reflexivity).
  apply all_boxes_of_In in H. destruct H as (s0 & s1 & s2 & _ & _ & [] & _).
Qed.

(** X9.  [separate_particles_into_groups] with a positive region size on
    every axis returns, and its groups split the particles of the region:
    no particle is in two groups or twice in one, every particle whose
    position is strictly above the lower corner and at most the upper
    corner of the region on every axis is in exactly one group, no group
    is empty, and every index in a group is an index of a particle of
    the state. *)
Theorem separate_particles_into_groups_partition s region_size region :
  (forall k, (0 < zcoord k (region_step region_size))%Z) ->
  exists groups,
    separate_particles_into_groups s region_size region = Ok groups
    /\ (forall g, In g groups -> g <> [])
    /\ (forall g i, In g groups -> In i g -> (i < length (obj s))%nat)
    /\ (forall i, (count_occ Nat.eq_dec (concat groups) i <= 1)%nat)
    /\ (forall i pt,
          nth_error (obj s) i = Some pt ->
          (forall k, inject_Z (zcoord k (region_lower region)) < coord k (ppos pt)
                     /\ coord k (ppos pt)
                        <= inject_Z (zcoord k (region_upper s region))) ->
          count_occ Nat.eq_dec (concat groups) i = 1%nat).
Proof.
  intro Hrs.
  assert (R : exists groups,
             separate_particles_into_groups s region_size region = Ok groups).
  { unfold separate_particles_into_groups.
    change (match region_size with RsInt n => (n, n, n) | RsList rs => rs end)
      with (region_step region_size).
    set (b := match region with None => ((0, 0, 0)%Z, image_shape s) | Some b => b end).
    destruct (py_range_positive_step (zcoord Ax0 (fst b)) (zcoord Ax0 (snd b)) _
                (Hrs Ax0)) as (n0 & -> & _).
    destruct (py_range_positive_step (zcoord Ax1 (fst b)) (zcoord Ax1 (snd b)) _
                (Hrs Ax1)) as (n1 & -> & _).
    destruct (py_range_positive_step (zcoord Ax2 (fst b)) (zcoord Ax2 (snd b)) _
                (Hrs Ax2)) as (n2 & -> & _).
    eexists. reflexivity. }
  destruct R as (groups & Hsep). exists groups. split; [exact Hsep|].
  assert (Hin : forall g i, In g groups -> In i g -> (i < length (obj s))%nat).
  { intros g i Hg Hi.
    destruct (separate_groups_are_boxes _ _ _ _ _ Hsep Hg) as (_ & start & -> & _).
    apply find_particles_in_box_In in Hi. destruct Hi as (pt & N & _).
    apply nth_error_Some. congruence. }
  split; [|split; [exact Hin|split]].
  - intros g Hg. apply (separate_groups_are_boxes _ _ _ _ _ Hsep Hg).
  - intro i. destruct (nth_error (obj s) i) as [pt|] eqn:N.
    + apply (separate_particles_exactly_once _ _ _ _ _ _ Hsep Hrs N).
    + assert (Z0 : count_occ Nat.eq_dec (concat groups) i = 0%nat); [|lia].
      apply count_occ_not_In. intro Hi. apply in_concat in Hi.
      destruct Hi as (g & Hg & Hi). pose proof (Hin g i Hg Hi) as L.
      apply nth_error_None in N. lia.
  - intros i pt N Hbox.
    apply (separate_particles_exactly_once _ _ _ _ _ _ Hsep Hrs N). exact Hbox.
Qed.

(** Three particles in a 100-cube, boxes of 40. *)
Definition three_particles : State :=
  mkState (100, 100, 100)%Z
    [mkParticle (10, 10, 10) 5 1; mkParticle (90, 10, 10) 5 1;
     mkParticle (15, 20, 30) 5 1] [].

Lemma separate_particles_into_groups_partition_witness :
  exists groups,
    separate_particles_into_groups three_particles default_region_size None
      = Ok groups
    /\ count_occ Nat.eq_dec (concat groups) 2%nat = 1%nat.
Proof.
  destruct (separate_particles_into_groups_partition three_particles
              default_region_size None) as (groups & E & _ & _ & _ & H1).
  - intro k. destruct k; reflexivity.
  - exists groups. split; [exact E|].
    apply (H1 2%nat (mkParticle (15, 20, 30) 5 1)).
    + reflexivity.
    + intro k. destruct k; vm_compute; split; reflexivity || discriminate.
Defined.

(** X10.  A region size that is not positive.  A zero on any axis makes
    [separate_particles_into_groups] raise [ValueError] (the zero step of
    [range]); with no zero, a negative size on an axis whose lower bound
    does not exceed its upper bound gives no groups at all, so every
    particle is silently left out. *)
Theorem separate_particles_into_groups_bad_region_size s region_size region :
  ((exists k, zcoord k (region_step region_size) = 0%Z) ->
   separate_particles_into_groups s region_size region = Raise ValueError)
  /\ ((forall k, zcoord k (region_step region_size) <> 0%Z) ->
      (exists k, (zcoord k (region_step region_size) < 0)%Z
                 /\ (zcoord k (region_lower region)
                     <= zcoord k (region_upper s region))%Z) ->
      separate_particles_into_groups s region_size region = Ok []).
Proof.
  unfold separate_particles_into_groups.
  change (match region_size with RsInt n => (n, n, n) | RsList rs => rs end)
    with (region_step region_size).
  set (b := match region with None => ((0, 0, 0)%Z, image_shape s) | Some b => b end).
  assert (Hl : fst b = region_lower region) by (destruct region; reflexivity).
  assert (Hu : snd b = region_upper s region) by (destruct region; reflexivity).
  rewrite Hl, Hu. clear Hl Hu b.
  set (lo := region_lower region). set (hi := region_upper s region).
  set (rs := region_step region_size).
  split.
  - intros [k Hk].
    destruct (Z.eq_dec (zcoord Ax0 rs) 0) as [E0|N0].
    { rewrite E0. reflexivity. }
    destruct (py_range_nonzero_step (zcoord Ax0 lo) (zcoord Ax0 hi) _ N0)
      as (pts0 & ->).
    destruct (Z.eq_dec (zcoord Ax1 rs) 0) as [E1|N1].
    { rewrite E1. reflexivity. }
    destruct (py_range_nonzero_step (zcoord Ax1 lo) (zcoord Ax1 hi) _ N1)
      as (pts1 & ->).
    destruct (Z.eq_dec (zcoord Ax2 rs) 0) as [E2|N2].
    { rewrite E2. reflexivity. }
    destruct k; contradiction.
  - intros Hnz [k [Hneg Hle]].
    destruct (py_range_nonzero_step (zcoord Ax0 lo) (zcoord Ax0 hi) _ (Hnz Ax0))
      as (pts0 & E0).
    destruct (py_range_nonzero_step (zcoord Ax1 lo) (zcoord Ax1 hi) _ (Hnz Ax1))
      as (pts1 & E1).
    destruct (py_range_nonzero_step (zcoord Ax2 lo) (zcoord Ax2 hi) _ (Hnz Ax2))
      as (pts2 & E2).
    pose proof (py_range_negative_step (zcoord k lo) (zcoord k hi) _ Hneg Hle) as En.
    rewrite E0, E1, E2. simpl rbind.
    destruct k.
    + rewrite En in E0. inversion E0; subst pts0. reflexivity.
    + rewrite En in E1. inversion E1; subst pts1.
      rewrite all_boxes_of_nil_1. reflexivity.
    + rewrite En in E2. inversion E2; subst pts2.
      rewrite all_boxes_of_nil_2. reflexivity.
Qed.

Lemma separate_particles_into_groups_bad_region_size_witness :
  separate_particles_into_groups three_particles (RsList (40, 0, 40)%Z) None
    = Raise ValueError
  /\ separate_particles_into_groups three_particles (RsInt (-40)) None = Ok [].
Proof.
  split.
  - apply (separate_particles_into_groups_bad_region_size three_particles
             (RsList (40, 0, 40)%Z) None).
    exists Ax1. reflexivity.
  - apply (separate_particles_into_groups_bad_region_size three_particles
             (RsInt (-40)) None).
    + intro k. destruct k; discriminate.
    + exists Ax0. split; [reflexivity | discriminate].
Defined.

Section GroupsAndTiles.

Variables Jac JTJ Grad Slice : Type.
Variable err_of : list particle -> Q.
Variable tile_from_particle_change :
  State -> vec3 -> Q -> Q -> vec3 -> Q -> Q -> Tile * Tile * Slice.
Variable eval_many_particle_grad_ext :
  list particle -> list nat -> Tile -> grad_kwargs -> Jac.
Variable j_to_jtj : Jac -> JTJ.
Variable calc_grad_ext : list particle -> Jac -> Tile -> Grad.
Variable find_LM_updates : JTJ -> Grad -> Q -> list Q.

Lemma multiple_particle_tile_returns s inds :
  inds <> [] ->
  (forall i, In i inds -> (i < length (obj s))%nat) ->
  exists t,
    get_tile_from_multiple_particle_change Slice tile_from_particle_change s inds
    = Ok t.
Proof.
  intros Hne Hv. unfold get_tile_from_multiple_particle_change.
  destruct (collect_tiles_ok Slice tile_from_particle_change s inds Hv)
    as (tiles & E & F).
  rewrite E. simpl rbind.
  destruct tiles as [|t0 tiles].
  - inversion F. subst. contradiction.
  - eexists. reflexivity.
Qed.

Lemma collect_tiles_out_of_range s inds :
  (exists i, In i inds /\ (length (obj s) <= i)%nat) ->
  collect_tiles Slice tile_from_particle_change s inds = Raise IndexError.
Proof.
  induction inds as [|j rest IH]; intros (i & Hi & Hlen).
  - destruct Hi.
  - simpl. destruct (nth_error (obj s) j) as [pt|] eqn:N; [|reflexivity].
    destruct Hi as [->|Hi].
    + apply nth_error_None in Hlen. congruence.
    + rewrite IH; [reflexivity|]. exists i. auto.
Qed.

(** X11.  The groups [separate_particles_into_groups] returns are fit
    for the step [do_levmarq_particles] starts with: for each of them,
    whatever the region size and the bounds,
    [get_tile_from_multiple_particle_change] returns a tile rather than
    raising the [ValueError] of an empty list or the [IndexError] of an
    index outside the particle table. *)
Theorem separated_groups_have_a_tile s region_size region groups g :
  separate_particles_into_groups s region_size region = Ok groups ->
  In g groups ->
  exists t,
    get_tile_from_multiple_particle_change Slice tile_from_particle_change s g
    = Ok t.
Proof.
  intros Hsep Hg.
  destruct (separate_groups_are_boxes _ _ _ _ _ Hsep Hg) as (Hne & start & E & _).
  apply multiple_particle_tile_returns; [exact Hne|].
  intros i Hi. rewrite E in Hi.
  apply find_particles_in_box_In in Hi. destruct Hi as (pt & N & _).
  apply nth_error_Some. congruence.
Qed.

(** X12.  A group [do_levmarq_particles] cannot work on.  With
    [num_iter > 0], an empty group makes it raise [ValueError] and a
    group holding an index outside the particle table [IndexError], in
    both cases before anything in the state was changed; with
    [num_iter <= 0] it returns at once, whatever the group. *)
Theorem do_levmarq_particles_unusable_group
    fuel particles damp0 ddamp0 num_iter do_run run_length kw s :
  ((0 < num_iter)%Z -> particles = [] ->
   do_levmarq_particles Jac JTJ Grad Slice err_of tile_from_particle_change
     eval_many_particle_grad_ext j_to_jtj calc_grad_ext find_LM_updates
     (S fuel) particles damp0 ddamp0 num_iter do_run run_length kw s
   = Some (Raise ValueError, s))
  /\ ((0 < num_iter)%Z ->
      (exists i, In i particles /\ (length (obj s) <= i)%nat) ->
      do_levmarq_particles Jac JTJ Grad Slice err_of tile_from_particle_change
        eval_many_particle_grad_ext j_to_jtj calc_grad_ext find_LM_updates
        (S fuel) particles damp0 ddamp0 num_iter do_run run_length kw s
      = Some (Raise IndexError, s))
  /\ ((num_iter <= 0)%Z ->
      do_levmarq_particles Jac JTJ Grad Slice err_of tile_from_particle_change
        eval_many_particle_grad_ext j_to_jtj calc_grad_ext find_LM_updates
        fuel particles damp0 ddamp0 num_iter do_run run_length kw s
      = Some (Ok tt, s)).
Proof.
  assert (Pos : (0 < num_iter)%Z -> Qltb 0 (inject_Z num_iter) = true).
  { intro Hn. apply Qltb_lt. change 0 with (inject_Z 0). rewrite <- Zlt_Qlt.
    exact Hn. }
  assert (Start : forall e,
            get_tile_from_multiple_particle_change Slice tile_from_particle_change
              s particles = Raise e ->
            (0 < num_iter)%Z ->
            do_levmarq_particles Jac JTJ Grad Slice err_of tile_from_particle_change
              eval_many_particle_grad_ext j_to_jtj calc_grad_ext find_LM_updates
              (S fuel) particles damp0 ddamp0 num_iter do_run run_length kw s
            = Some (Raise e, s)).
  { intros e He Hn. unfold do_levmarq_particles. simpl particles_loop.
    simpl counter. rewrite (Pos Hn).
    unfold particles_iteration, get_J_JTJ_p, bind, get_err_p, lift.
    cbn [recalc_J]. rewrite He. reflexivity. }
  split; [|split].
  - intros Hn ->. apply Start; [reflexivity | exact Hn].
  - intros Hn Hout. apply Start; [|exact Hn].
    unfold get_tile_from_multiple_particle_change.
    rewrite (collect_tiles_out_of_range s particles Hout). reflexivity.
  - intro Hn.
    assert (C : Qltb 0 (inject_Z num_iter) = false).
    { apply Qltb_ge. change 0 with (inject_Z 0). rewrite <- Zle_Qle. exact Hn. }
    unfold do_levmarq_particles. destruct fuel; simpl; rewrite C; reflexivity.
Qed.

End GroupsAndTiles.

Lemma separated_groups_have_a_tile_witness :
  exists t,
    get_tile_from_multiple_particle_change unit toyp_tile three_particles
      [0%nat; 2%nat] = Ok t.
Proof.
  apply (separated_groups_have_a_tile unit toyp_tile three_particles
           default_region_size None [[0%nat; 2%nat]; [1%nat]] [0%nat; 2%nat]).
  - vm_compute. reflexivity.
  - left. reflexivity.
Defined.

Lemma do_levmarq_particles_unusable_group_witness :
  toyp_do_levmarq_particles 1 4 1%nat [] (1 # 10) (2 # 10) 3 true 5
    default_grad_kwargs (toyp_state 5) = Some (Raise ValueError, toyp_state 5)
  /\ toyp_do_levmarq_particles 1 4 1%nat [7%nat] (1 # 10) (2 # 10) 3 true 5
       default_grad_kwargs (toyp_state 5) = Some (Raise IndexError, toyp_state 5).
Proof.
  destruct (do_levmarq_particles_unusable_group Q Q Q unit (toyp_err 4) toyp_tile
              (toyp_eval_J 1) toy_jtj (toyp_grad 4) toyp_solve 0%nat []
              (1 # 10) (2 # 10) 3 true 5 default_grad_kwargs (toyp_state 5))
    as (H1 & _ & _).
  destruct (do_levmarq_particles_unusable_group Q Q Q unit (toyp_err 4) toyp_tile
              (toyp_eval_J 1) toy_jtj (toyp_grad 4) toyp_solve 0%nat [7%nat]
              (1 # 10) (2 # 10) 3 true 5 default_grad_kwargs (toyp_state 5))
    as (_ & H2 & _).
  split.
  - apply H1; reflexivity.
  - apply H2; [reflexivity|]. exists 7%nat. split; [left; reflexivity|].
    vm_compute. lia.
Defined.

(** ** Finite differences *)

Section NumericsFacts.

Variable Inds : Type.
Variable difference_image : list Q -> list Q.
Variable take : Inds -> list Q -> list Q.

(** The displacement [eval_deriv] leaves in the parameter it
    differentiates. *)
Definition moved_param (kw : grad_kwargs) (x : Q) : Q :=
  if be_nice kw then x else if threept kw then x - dl kw else x + dl kw.

Lemma list_set_nth_same {A : Type} (l : list A) (d : A) : forall i,
  list_set l i (nth i l d) = l.
Proof.
  induction l as [|h t IH]; intros [|i]; simpl; try reflexivity.
  rewrite IH. reflexivity.
Qed.

Lemma nth_list_set_same {A : Type} (l : list A) (d x : A) : forall i,
  (i < length l)%nat -> nth i (list_set l i x) d = x.
Proof.
  induction l as [|h t IH]; intros [|i] H; simpl in *; try lia; try reflexivity.
  apply IH. lia.
Qed.

Lemma nth_list_set_other {A : Type} (l : list A) (d x : A) : forall i j,
  i <> j -> nth j (list_set l i x) d = nth j l d.
Proof.
  induction l as [|h t IH]; intros [|i] [|j] H; simpl; try reflexivity;
    try congruence.
  apply IH. congruence.
Qed.

Lemma eval_deriv_state kw b p :
  snd (Numerics.eval_deriv difference_image kw b p)
  = list_set p b (moved_param kw (nth b p 0)).
Proof.
  unfold Numerics.eval_deriv, moved_param.
  destruct (threept kw), (be_nice kw); simpl snd;
    rewrite ?list_set_twice; reflexivity.
Qed.

Lemma eval_deriv_returns kw b p :
  exists d, fst (Numerics.eval_deriv difference_image kw b p) = Ok d.
Proof.
  unfold Numerics.eval_deriv. destruct (threept kw); eexists; reflexivity.
Qed.

(** X13.  What the Jacobian costs the state.  [calculate_J_approx] over
    distinct one-parameter blocks always returns, and leaves the
    parameter vector with the same length, every parameter outside the
    blocks untouched, and every parameter of a block displaced: put back
    exactly with [be_nice], otherwise [dl] higher (2-point, the default)
    or [dl] lower (3-point). *)
Theorem calculate_J_approx_displaces_parameters kw blocks inds p :
  NoDup blocks ->
  exists J p',
    Numerics.calculate_J_approx Inds difference_image take kw blocks inds p
      = (Ok J, p')
    /\ length J = length blocks
    /\ length p' = length p
    /\ (forall j, ~ In j blocks -> nth j p' 0 = nth j p 0)
    /\ (forall j, In j blocks -> (j < length p)%nat ->
                  nth j p' 0 = moved_param kw (nth j p 0))
    /\ (be_nice kw = true -> p' = p).
Proof.
  revert p. induction blocks as [|b rest IH]; intros p Hnd.
  - exists [], p. simpl. repeat split; auto. intros j [].
  - inversion Hnd as [|? ? Hb Hrest]; subst.
    simpl. unfold bind at 1.
    destruct (eval_deriv_returns kw b p) as (d & Ed).
    pose proof (eval_deriv_state kw b p) as Es.
    destruct (Numerics.eval_deriv difference_image kw b p) as [r p1].
    simpl in Ed, Es. subst r p1.
    destruct (IH (list_set p b (moved_param kw (nth b p 0))) Hrest)
      as (J & p' & E & HJ & Hlen & Hout & Hin & Hnice).
    unfold bind at 1. rewrite E.
    exists (take inds d :: J), p'. split; [reflexivity|].
    split; [simpl; rewrite HJ; reflexivity|].
    split; [rewrite Hlen; apply list_set_length|].
    split; [|split].
    + intros j Hj. rewrite Hout by (intro; apply Hj; right; assumption).
      apply nth_list_set_other. intro; subst. apply Hj. left. reflexivity.
    + intros j [->|Hj] Hlt.
      * rewrite Hout by exact Hb. apply nth_list_set_same. exact Hlt.
      * rewrite Hin; [|exact Hj|rewrite list_set_length; exact Hlt].
        rewrite nth_list_set_other; [reflexivity|].
        intro; subst. contradiction.
    + intro Hn. rewrite (Hnice Hn). unfold moved_param. rewrite Hn.
      apply list_set_nth_same.
Qed.

(** The value of [c0 + c1*x + c2*x^2]. *)
Definition poly2 (c : Q * Q * Q) (x : Q) : Q :=
  let '(c0, c1, c2) := c in c0 + c1 * x + c2 * x * x.

(** A residual that is, pixel by pixel, a polynomial of degree two in
    parameter [b], with the coefficients given per pixel. *)
Definition quadratic_in (b : nat) (p : list Q) (coeffs : list (Q * Q * Q)) : Prop :=
  forall x,
    Forall2 (fun y c => y == poly2 c x) (difference_image (list_set p b x)) coeffs.

Lemma stencil_Forall2 (k : Q -> Q) (F G H : Q * Q * Q -> Q) (cs : list (Q * Q * Q)) :
  (forall c a b, a == F c -> b == G c -> k (a - b) == H c) ->
  forall u v,
    Forall2 (fun y c => y == F c) u cs ->
    Forall2 (fun y c => y == G c) v cs ->
    Forall2 (fun d c => d == H c) (map k (vsub u v)) cs.
Proof.
  intro Hk. induction cs as [|c cs IH]; intros u v Hu Hv;
    inversion Hu; inversion Hv; subst; simpl.
  - constructor.
  - constructor; [apply Hk; assumption | apply IH; assumption].
Qed.

(** X14.  The stencils of [eval_deriv].  Where the difference image is a
    polynomial of degree two in the parameter, [c0 + c1*x + c2*x^2] per
    pixel, and [dl] is not zero, the 3-point stencil returns the
    derivative [c1 + 2*c2*x] at the current value exactly, and the
    2-point stencil returns it with the error [c2*dl]. *)
Theorem eval_deriv_on_quadratic kw b p coeffs :
  (b < length p)%nat ->
  ~ dl kw == 0 ->
  quadratic_in b p coeffs ->
  exists deriv,
    fst (Numerics.eval_deriv difference_image kw b p) = Ok deriv
    /\ Forall2 (fun d (c : Q * Q * Q) =>
                  d == snd (fst c) + 2 * snd c * nth b p 0
                       + (if threept kw then 0 else snd c * dl kw))
               deriv coeffs.
Proof.
  intros Hb Hdl Hq.
  assert (H0 : Forall2 (fun y c => y == poly2 c (nth b p 0))
                 (difference_image p) coeffs).
  { pose proof (Hq (nth b p 0)) as H. rewrite list_set_nth_same in H. exact H. }
  unfold Numerics.eval_deriv. destruct (threept kw).
  - eexists. split; [reflexivity|].
    rewrite list_set_twice.
    apply (stencil_Forall2 _ (fun c => poly2 c (nth b p 0 + dl kw))
                             (fun c => poly2 c (nth b p 0 - dl kw)));
      [|apply Hq|apply Hq].
    intros [[c0 c1] c2] a0 b0 Ha Hb0. unfold poly2 in *. simpl.
    rewrite Ha, Hb0. field. exact Hdl.
  - eexists. split; [reflexivity|].
    apply (stencil_Forall2 _ (fun c => poly2 c (nth b p 0 + dl kw))
                             (fun c => poly2 c (nth b p 0)));
      [|apply Hq|exact H0].
    intros [[c0 c1] c2] a0 b0 Ha Hb0. unfold poly2 in *. simpl.
    rewrite Ha, Hb0. field. exact Hdl.
Qed.


End NumericsFacts.

(** One pixel whose residual is [(x - 3)^2] in the first parameter. *)
Definition square_image (p : list Q) : list Q := [(nth 0 p 0 - 3) * (nth 0 p 0 - 3)].

Lemma calculate_J_approx_displaces_parameters_witness :
  exists J p',
    Numerics.calculate_J_approx unit square_image (fun _ im => im)
      Numerics.default_deriv_kwargs [0%nat] tt [1; 7] = (Ok J, p')
    /\ nth 0 p' 0 = 1 + (1 # 100000000)
    /\ nth 1 p' 0 = 7.
Proof.
  destruct (calculate_J_approx_displaces_parameters unit square_image
              (fun _ im => im) Numerics.default_deriv_kwargs [0%nat] tt [1; 7])
    as (J & p' & E & _ & _ & Hout & Hin & _).
  - constructor; [intros [] | constructor].
  - exists J, p'. split; [exact E|]. split.
    + apply (Hin 0%nat); [left; reflexivity | simpl; lia].
    + apply (Hout 1%nat). intros [H|[]]. discriminate H.
Defined.

Lemma eval_deriv_on_quadratic_witness :
  exists deriv,
    fst (Numerics.eval_deriv square_image (mkGradKwargs (1 # 100) true false)
           0%nat [1]) = Ok deriv
    /\ Forall2 (fun d (c : Q * Q * Q) =>
                  d == snd (fst c) + 2 * snd c * 1 + 0)
               deriv [(9, -6, 1)].
Proof.
  apply (eval_deriv_on_quadratic square_image (mkGradKwargs (1 # 100) true false)
           0%nat [1] [(9, -6, 1)]).
  - simpl. lia.
  - discriminate.
  - intro x. constructor; [|constructor].
    unfold poly2. simpl. ring.
Defined.

(** ** The normal matrix [np.dot(J, J.T)] *)

Lemma dot_comm u : forall v, Numerics.dot u v == Numerics.dot v u.
Proof.
  induction u as [|a u IH]; intros [|b v]; simpl; try reflexivity.
  rewrite IH. ring.
Qed.

Lemma dot_self_nonneg u : 0 <= Numerics.dot u u.
Proof.
  induction u as [|a u IH]; simpl; [lra|].
  assert (0 <= a * a) by nra. lra.
Qed.

Lemma dot_self_zero u : Numerics.dot u u == 0 -> Forall (fun x => x == 0) u.
Proof.
  induction u as [|a u IH]; simpl; intro H; constructor.
  - pose proof (dot_self_nonneg u). assert (0 <= a * a) by nra. nra.
  - apply IH. pose proof (dot_self_nonneg u). assert (0 <= a * a) by nra. lra.
Qed.

(** The linear combination [sum_i x_i * J_i] of the rows of [J], rows of
    length [n]. *)
Fixpoint lincomb (n : nat) (x : list Q) (J : list (list Q)) : list Q :=
  match x, J with
  | a :: x', row :: J' => vadd (map (Qmult a) row) (lincomb n x' J')
  | _, _ => repeat 0 n
  end.

Lemma dot_zeros u : forall n, Numerics.dot u (repeat 0 n) == 0.
Proof.
  induction u as [|a u IH]; intros [|n]; simpl; try reflexivity.
  rewrite IH. ring.
Qed.

Lemma dot_vadd u : forall v w,
  length v = length w ->
  Numerics.dot u (vadd v w) == Numerics.dot u v + Numerics.dot u w.
Proof.
  induction u as [|a u IH]; intros [|b v] [|c w] H; simpl in *;
    try discriminate; try ring.
  unfold vadd in *. rewrite IH by lia. ring.
Qed.

Lemma dot_scale u a : forall v,
  Numerics.dot u (map (Qmult a) v) == a * Numerics.dot u v.
Proof.
  induction u as [|b u IH]; intros [|c v]; simpl; try ring.
  rewrite IH. ring.
Qed.

Lemma lincomb_length n x : forall J,
  Forall (fun row => length row = n) J -> length (lincomb n x J) = n.
Proof.
  induction x as [|a x IH]; intros [|row J] H; simpl;
    try (apply repeat_length).
  inversion H; subst.
  assert (L : forall u v : list Q, length u = length v ->
                length (vadd u v) = length u).
  { clear. unfold vadd. induction u as [|a u IH]; intros [|b v] H; simpl in *;
      try discriminate; try reflexivity. rewrite IH by lia. reflexivity. }
  rewrite L; rewrite length_map; [reflexivity|].
  rewrite IH by assumption. reflexivity.
Qed.

Lemma dot_row_jtj n (r : list Q) x : forall J,
  Forall (fun row => length row = n) J ->
  Numerics.dot (map (fun row_j => Numerics.dot r row_j) J) x
  == Numerics.dot r (lincomb n x J).
Proof.
  induction x as [|a x IH]; intros [|row J] H; simpl;
    try (rewrite dot_zeros; reflexivity).
  inversion H; subst.
  rewrite dot_vadd.
  - rewrite dot_scale, IH by assumption. ring.
  - rewrite length_map, lincomb_length by assumption. reflexivity.
Qed.

Lemma quad_jtj n x J :
  Forall (fun row => length row = n) J ->
  Numerics.dot x (Numerics.mat_vec (Numerics.j_to_jtj J) x)
  == Numerics.dot (lincomb n x J) (lincomb n x J).
Proof.
  intro H. unfold Numerics.mat_vec, Numerics.j_to_jtj. rewrite map_map.
  set (w := lincomb n x J).
  assert (E : forall K y,
             Forall (fun row => length row = n) K ->
             Numerics.dot y
               (map (fun r => Numerics.dot
                                (map (fun row_j => Numerics.dot r row_j) J) x) K)
             == Numerics.dot (lincomb n y K) w).
  { intros K. induction K as [|r K IHK]; intros [|a y] HK; simpl;
      try (rewrite dot_comm, dot_zeros; reflexivity).
    inversion HK; subst.
    rewrite IHK by assumption.
    rewrite (dot_row_jtj (length r) r x J H). fold w.
    rewrite (dot_comm (vadd _ _) w), dot_vadd.
    - rewrite dot_scale, (dot_comm w r), (dot_comm w (lincomb _ y K)). ring.
    - rewrite length_map, lincomb_length by assumption. reflexivity. }
  apply E. exact H.
Qed.

Lemma jtj_entry J i j :
  (i < length J)%nat -> (j < length J)%nat ->
  nth j (nth i (Numerics.j_to_jtj J) []) 0
  = Numerics.dot (nth i J []) (nth j J []).
Proof.
  intros Hi Hj. unfold Numerics.j_to_jtj.
  rewrite (nth_indep _ [] (map (fun row_j => Numerics.dot [] row_j) J))
    by (rewrite length_map; exact Hi).
  rewrite (map_nth (fun row_i => map (fun row_j => Numerics.dot row_i row_j) J)).
  rewrite (nth_indep _ 0 (Numerics.dot (nth i J []) []))
    by (rewrite length_map; exact Hj).
  rewrite (map_nth (fun row_j => Numerics.dot (nth i J []) row_j)).
  reflexivity.
Qed.

Lemma jtj_entry_outside J i j :
  (length J <= i)%nat \/ (length J <= j)%nat ->
  nth j (nth i (Numerics.j_to_jtj J) []) 0 = 0.
Proof.
  intros H. unfold Numerics.j_to_jtj.
  destruct (Nat.lt_ge_cases i (length J)) as [Hi|Hi].
  - destruct H as [H|H]; [lia|].
    rewrite (nth_indep _ [] (map (fun row_j => Numerics.dot [] row_j) J))
      by (rewrite length_map; exact Hi).
    rewrite (map_nth (fun row_i => map (fun row_j => Numerics.dot row_i row_j) J)).
    apply nth_overflow. rewrite length_map. exact H.
  - rewrite (nth_overflow (map _ J)) by (rewrite length_map; exact Hi).
    destruct j; reflexivity.
Qed.

Lemma jtj_diag_nonneg J i : 0 <= nth i (nth i (Numerics.j_to_jtj J) []) 0.
Proof.
  destruct (Nat.lt_ge_cases i (length J)) as [Hi|Hi].
  - rewrite jtj_entry by assumption. apply dot_self_nonneg.
  - rewrite jtj_entry_outside by auto. lra.
Qed.

(** X16.  [j_to_jtj] returns a square matrix with one row and one
    column per parameter, the entry at [(i, j)] being the product of the
    derivative rows [i] and [j]; it is symmetric, its diagonal is never
    negative, and, for a Jacobian whose rows have one length, it is
    positive semi-definite: [x . (JTJ x) >= 0] for every [x]. *)
Theorem j_to_jtj_symmetric_positive J :
  length (Numerics.j_to_jtj J) = length J
  /\ Forall (fun row => length row = length J) (Numerics.j_to_jtj J)
  /\ (forall i j, (i < length J)%nat -> (j < length J)%nat ->
        nth j (nth i (Numerics.j_to_jtj J) []) 0
        = Numerics.dot (nth i J []) (nth j J []))
  /\ (forall i j,
        nth j (nth i (Numerics.j_to_jtj J) []) 0
        == nth i (nth j (Numerics.j_to_jtj J) []) 0)
  /\ (forall i, 0 <= nth i (nth i (Numerics.j_to_jtj J) []) 0)
  /\ (forall n x, Forall (fun row => length row = n) J ->
                  0 <= Numerics.dot x (Numerics.mat_vec (Numerics.j_to_jtj J) x)).
Proof.
  split; [apply length_map|].
  split.
  { unfold Numerics.j_to_jtj. apply Forall_forall. intros row Hrow.
    apply in_map_iff in Hrow. destruct Hrow as (r & <- & _). apply length_map. }
  split; [intros i j; apply jtj_entry|].
  split; [|split].
  - intros i j.
    destruct (Nat.lt_ge_cases i (length J)) as [Hi|Hi];
      destruct (Nat.lt_ge_cases j (length J)) as [Hj|Hj].
    + rewrite !jtj_entry by assumption. apply dot_comm.
    + rewrite !jtj_entry_outside by auto. reflexivity.
    + rewrite !jtj_entry_outside by auto. reflexivity.
    + rewrite !jtj_entry_outside by auto. reflexivity.
  - apply jtj_diag_nonneg.
  - intros n x H. rewrite (quad_jtj n x J H). apply dot_self_nonneg.
Qed.

Lemma j_to_jtj_symmetric_positive_witness :
  0 <= Numerics.dot [1; -1]
         (Numerics.mat_vec (Numerics.j_to_jtj [[1; 2; 3]; [4; 5; 6]]) [1; -1]).
Proof.
  destruct (j_to_jtj_symmetric_positive [[1; 2; 3]; [4; 5; 6]])
    as (_ & _ & _ & _ & _ & H).
  apply (H 3%nat [1; -1]).
  repeat constructor.
Defined.

(** ** The damped system of [find_LM_updates] *)

(** The entry of [xs] that meets column [i] of a row whose first column
    is [k], when there is one. *)
Fixpoint pick (k i : nat) (row xs : list Q) : Q :=
  match row, xs with
  | _ :: row', x :: xs' => if Nat.eqb i k then x else pick (S k) i row' xs'
  | _, _ => 0
  end.

Lemma pick_below : forall row k i xs, (i < k)%nat -> pick k i row xs = 0.
Proof.
  induction row as [|r row IH]; intros k i [|x xs] H; simpl; try reflexivity.
  assert (E : Nat.eqb i k = false) by (apply Nat.eqb_neq; lia).
  rewrite E. apply IH. lia.
Qed.

Lemma dot_damped_row damp c i : forall row k xs,
  Numerics.dot
    (Numerics.mapi_from (fun j x => x + damp * (if Nat.eqb i j then c else 0)) k row)
    xs
  == Numerics.dot row xs + damp * (c * pick k i row xs).
Proof.
  induction row as [|r row IH]; intros k [|x xs];
    cbn [Numerics.dot Numerics.mapi_from pick]; try ring.
  rewrite IH. destruct (Nat.eqb i k) eqn:E; [|ring].
  apply Nat.eqb_eq in E. subst k. rewrite pick_below by lia. ring.
Qed.

Lemma pick_cases : forall row k i xs,
  pick k i row xs = 0 \/ ((k <= i)%nat /\ pick k i row xs = nth (i - k) xs 0).
Proof.
  induction row as [|r row IH]; intros k i [|x xs]; simpl; auto.
  destruct (Nat.eqb i k) eqn:E.
  - apply Nat.eqb_eq in E. subst. right. split; [lia|].
    rewrite Nat.sub_diag. reflexivity.
  - apply Nat.eqb_neq in E. destruct (IH (S k) i xs) as [H|[H1 H2]]; auto.
    right. split; [lia|]. rewrite H2.
    replace (i - k)%nat with (S (i - S k)) by lia. reflexivity.
Qed.

(** The part the damping adds to [x . (A x)]. *)
Fixpoint damping_part (d x : list Q) (i : nat) (A : list (list Q)) (xs : list Q) : Q :=
  match A, xs with
  | row :: A', y :: xs' =>
    y * (nth i d 0 * pick 0 i row x) + damping_part d x (S i) A' xs'
  | _, _ => 0
  end.

Lemma quad_damped_from damp d x : forall A i xs,
  Numerics.dot xs
    (map (fun row => Numerics.dot row x)
       (Numerics.mapi_from
          (fun i row =>
             Numerics.mapi_from (fun j y => Numerics.damped_entry damp d i j y) 0 row)
          i A))
  == Numerics.dot xs (map (fun row => Numerics.dot row x) A)
     + damp * damping_part d x i A xs.
Proof.
  induction A as [|row A IH]; intros i [|y xs];
    cbn [Numerics.dot Numerics.mapi_from map damping_part]; try ring.
  rewrite IH. unfold Numerics.damped_entry at 1.
  rewrite (dot_damped_row damp (nth i d 0) i row 0%nat x). ring.
Qed.

Lemma damping_part_nonneg d x :
  (forall i, 0 <= nth i d 0) ->
  forall A i xs, xs = skipn i x -> 0 <= damping_part d x i A xs.
Proof.
  intros Hd. induction A as [|row A IH]; intros i [|y xs] Hx;
    cbn [damping_part]; try lra.
  assert (Hy : y = nth i x 0).
  { clear - Hx. revert x Hx. induction i as [|i IHi]; intros [|a x] Hx;
      simpl in *; try discriminate.
    - inversion Hx. reflexivity.
    - apply IHi. exact Hx. }
  assert (Hxs : xs = skipn (S i) x).
  { clear - Hx. revert x Hx. induction i as [|i IHi]; intros [|a x] Hx;
      simpl in *; try discriminate.
    - inversion Hx. reflexivity.
    - apply IHi. exact Hx. }
  pose proof (IH (S i) xs Hxs) as Hrest.
  pose proof (Hd i) as Hdi.
  destruct (pick_cases row 0 i x) as [P|[_ P]]; rewrite P.
  - lra.
  - rewrite Nat.sub_0_r, <- Hy. assert (0 <= y * y) by nra. nra.
Qed.

Lemma np_diag_nth A : forall i k,
  nth k (Numerics.diag_from i A) 0 = nth (i + k) (nth k A []) 0.
Proof.
  induction A as [|row A IH]; intros i [|k]; simpl.
  - destruct (i + 0)%nat; reflexivity.
  - destruct (i + S k)%nat; reflexivity.
  - rewrite Nat.add_0_r. reflexivity.
  - rewrite IH. replace (S i + k)%nat with (i + S k)%nat by lia. reflexivity.
Qed.

Section SolveFacts.

Variable lstsq : list (list Q) -> list Q -> Q -> list Q.

(** X17.  The system [find_LM_updates] solves.  For the normal matrix of
    a Jacobian whose rows have one length and a damping [damp >= 0], the
    matrix handed to [np.linalg.lstsq] is positive semi-definite, the
    damping only adding to [x . (JTJ x)], and the right-hand side is
    [-grad]. *)
Theorem find_LM_updates_system_positive J grad damp min_eigval n x :
  0 <= damp ->
  Forall (fun row => length row = n) J ->
  let A0 := Numerics.damped_matrix (Numerics.j_to_jtj J) damp in
  Numerics.find_LM_updates lstsq (Numerics.j_to_jtj J) grad damp min_eigval
    = lstsq A0 (vneg grad) min_eigval
  /\ Numerics.dot x (Numerics.mat_vec (Numerics.j_to_jtj J) x)
     <= Numerics.dot x (Numerics.mat_vec A0 x)
  /\ 0 <= Numerics.dot x (Numerics.mat_vec A0 x).
Proof.
  intros Hdamp HJ A0. split; [reflexivity|].
  assert (Q0 : 0 <= Numerics.dot x (Numerics.mat_vec (Numerics.j_to_jtj J) x)).
  { rewrite (quad_jtj n x J HJ). apply dot_self_nonneg. }
  assert (E : Numerics.dot x (Numerics.mat_vec A0 x)
              == Numerics.dot x (Numerics.mat_vec (Numerics.j_to_jtj J) x)
                 + damp * damping_part (Numerics.np_diag (Numerics.j_to_jtj J)) x 0
                            (Numerics.j_to_jtj J) x).
  { unfold A0, Numerics.damped_matrix, Numerics.mat_vec. apply quad_damped_from. }
  assert (P : 0 <= damping_part (Numerics.np_diag (Numerics.j_to_jtj J)) x 0
                     (Numerics.j_to_jtj J) x).
  { apply damping_part_nonneg; [|reflexivity].
    intro i. unfold Numerics.np_diag. rewrite np_diag_nth. simpl Nat.add.
    apply jtj_diag_nonneg. }
  rewrite E. split; nra.
Qed.

End SolveFacts.

Lemma find_LM_updates_system_positive_witness :
  0 <= Numerics.dot [1; -1]
         (Numerics.mat_vec
            (Numerics.damped_matrix (Numerics.j_to_jtj [[1; 2; 3]; [4; 5; 6]])
               (1 # 10))
            [1; -1]).
Proof.
  destruct (find_LM_updates_system_positive (fun _ b _ => b)
              [[1; 2; 3]; [4; 5; 6]] [0; 0] (1 # 10) (1 # 1000000000000) 3%nat
              [1; -1]) as (_ & _ & H).
  - vm_compute. discriminate.
  - repeat constructor.
  - exact H.
Defined.

(** ** Descent of the line search and of the conjugate-gradient sweeps *)

Section DescentFacts.

Variable Rng : Type.
Variable err_of : list Q -> Q.
Variable minimize_scalar_ext : (Q -> Q) -> list Q -> Z -> brent_run.

(** The minimiser reports as [res.fun] the value of the objective at
    [res.x]. *)
Definition reports_value_at_x : Prop :=
  forall f bracket maxiter res_x res_fun,
    brent_res (minimize_scalar_ext f bracket maxiter) = Ok (res_x, res_fun) ->
    res_fun == f res_x.

Lemma extend_bracket_supported p0 vec old : forall fuel start (ls : LState Rng) r ls',
  supported (model ls) = true ->
  extend_bracket Rng err_of fuel p0 vec start old ls = Some (r, ls') ->
  supported (model ls') = true.
Proof.
  induction fuel as [|fuel IH]; intros start ls r ls' Hs H; [discriminate|].
  simpl in H.
  pose proof (for_min_ok Rng err_of p0 vec (start * 3) ls Hs) as F.
  unfold lmin_for_min in F. rewrite F in H.
  destruct (Qltb _ old).
  - eapply IH; [|exact H]. exact Hs.
  - inversion H; subst. exact Hs.
Qed.

Lemma find_bracket_supported fuel p0 vec b0 b1 cnt (ls : LState Rng) r ls' :
  supported (model ls) = true ->
  find_bracket Rng err_of fuel p0 vec b0 b1 cnt ls = Some (r, ls') ->
  supported (model ls') = true.
Proof.
  intros Hs H. unfold find_bracket in H.
  destruct (Qltb (qmin b0 b1) cnt).
  - destruct (Qltb b0 b1).
    + destruct (extend_bracket Rng err_of fuel p0 vec (-2) b0 ls)
        as [[[st|e] ls1]|] eqn:E; try discriminate;
        inversion H; subst; eapply extend_bracket_supported; eassumption.
    + destruct (extend_bracket Rng err_of fuel p0 vec 2 b1 ls)
        as [[[st|e] ls1]|] eqn:E; try discriminate;
        inversion H; subst; eapply extend_bracket_supported; eassumption.
  - inversion H; subst. exact Hs.
Qed.

Lemma do_line_min_descends fuel vec maxiter (ls ls' : LState Rng) :
  reports_value_at_x ->
  supported (model ls) = true ->
  do_line_min Rng err_of minimize_scalar_ext fuel vec maxiter ls
    = Some (Ok tt, ls') ->
  supported (model ls') = true
  /\ err_of (gparams (model ls')) <= err_of (gparams (model ls)).
Proof.
  intros Hon Hs H. unfold do_line_min in H.
  set (p0 := gparams (model ls)) in *.
  unfold first_three in H. unfold bind at 1 in H.
  pose proof (for_min_ok Rng err_of p0 vec (-2) ls Hs) as F1.
  unfold lmin_for_min in F1. rewrite F1 in H.
  unfold bind at 1 in H.
  pose proof (for_min_ok Rng err_of p0 vec 2 (after_eval Rng p0 vec (-2) ls) Hs) as F2.
  unfold lmin_for_min in F2. rewrite F2 in H.
  unfold bind at 1 in H.
  pose proof (for_min_ok Rng err_of p0 vec 0
                (after_eval Rng p0 vec 2 (after_eval Rng p0 vec (-2) ls)) Hs) as F3.
  unfold lmin_for_min in F3. rewrite F3 in H.
  unfold ret in H.
  match type of H with
  | match find_bracket _ _ _ _ _ ?b0 ?b1 ?c ?l with _ => _ end = _ =>
    destruct (find_bracket Rng err_of fuel p0 vec b0 b1 c l)
      as [[[bracket|e] ls2]|] eqn:B; try discriminate
  end.
  assert (Hs2 : supported (model ls2) = true).
  { eapply find_bracket_supported; [|exact B]. exact Hs. }
  inversion H as [H1]. clear H.
  unfold minimize_and_check in H1.
  destruct (replay_evals_ok Rng err_of p0 vec
              (brent_evals (minimize_scalar_ext (line_objective err_of p0 vec)
                              bracket maxiter)) ls2 Hs2) as (ls3 & E & Hs3 & _).
  unfold bind at 1 in H1. rewrite E in H1.
  destruct (brent_res (minimize_scalar_ext (line_objective err_of p0 vec)
                         bracket maxiter)) as [[res_x res_fun]|e] eqn:R;
    [|discriminate].
  destruct (Qleb res_fun (err_of p0)) eqn:C; [|discriminate].
  apply Qleb_le in C.
  pose proof (for_min_ok Rng err_of p0 vec res_x ls3 Hs3) as F4.
  unfold lmin_for_min in F4. unfold bind in H1. rewrite F4 in H1.
  inversion H1; subst ls'. split; [exact Hs3|].
  simpl. pose proof (Hon _ _ _ _ _ R) as Hv.
  unfold line_objective in Hv. rewrite <- Hv. exact C.
Qed.

(** X18.  [do_line_min] is a descent step.  On a supported state, with
    a minimiser that reports as [res.fun] the value of the objective at
    [res.x], a call that returns normally leaves the parameters at
    [p0 + res.x * vec] for some step [res.x], with an error no larger
    than the error the call started from. *)
Theorem do_line_min_returns_no_worse fuel vec maxiter (ls ls' : LState Rng) :
  reports_value_at_x ->
  supported (model ls) = true ->
  do_line_min Rng err_of minimize_scalar_ext fuel vec maxiter ls
    = Some (Ok tt, ls') ->
  err_of (gparams (model ls')) <= err_of (gparams (model ls))
  /\ exists x, gparams (model ls')
               = vadd (gparams (model ls)) (vscale x vec).
Proof.
  intros Hon Hs H. split.
  - apply (do_line_min_descends fuel vec maxiter ls ls' Hon Hs H).
  - unfold do_line_min in H.
    set (p0 := gparams (model ls)) in *.
    destruct (first_three Rng err_of p0 vec ls) as [[[[b0 b1] c]|e] ls1] eqn:E3;
      [|discriminate].
    assert (Hs1 : supported (model ls1) = true).
    { unfold first_three in E3. unfold bind at 1 in E3.
      pose proof (for_min_ok Rng err_of p0 vec (-2) ls Hs) as F1.
      unfold lmin_for_min in F1. rewrite F1 in E3.
      unfold bind at 1 in E3.
      pose proof (for_min_ok Rng err_of p0 vec 2 (after_eval Rng p0 vec (-2) ls) Hs)
        as F2.
      unfold lmin_for_min in F2. rewrite F2 in E3.
      unfold bind at 1 in E3.
      pose proof (for_min_ok Rng err_of p0 vec 0
                    (after_eval Rng p0 vec 2 (after_eval Rng p0 vec (-2) ls)) Hs)
        as F3.
      unfold lmin_for_min in F3. rewrite F3 in E3.
      inversion E3; subst. exact Hs. }
    destruct (find_bracket Rng err_of fuel p0 vec b0 b1 c ls1)
      as [[[bracket|e] ls2]|] eqn:B; try discriminate.
    assert (Hs2 : supported (model ls2) = true).
    { eapply find_bracket_supported; [|exact B]. exact Hs1. }
    inversion H as [H1]. clear H.
    unfold minimize_and_check in H1.
    destruct (replay_evals_ok Rng err_of p0 vec
                (brent_evals (minimize_scalar_ext (line_objective err_of p0 vec)
                                bracket maxiter)) ls2 Hs2) as (ls3 & E & Hs3 & _).
    unfold bind at 1 in H1. rewrite E in H1.
    destruct (brent_res (minimize_scalar_ext (line_objective err_of p0 vec)
                           bracket maxiter)) as [[res_x res_fun]|e] eqn:R;
      [|discriminate].
    destruct (Qleb res_fun (err_of p0)); [|discriminate].
    pose proof (for_min_ok Rng err_of p0 vec res_x ls3 Hs3) as F4.
    unfold lmin_for_min in F4. unfold bind in H1. rewrite F4 in H1.
    inversion H1; subst ls'. exists res_x. reflexivity.
Qed.

Section ConjGradFacts.

Variables Jac Inds JTJ : Type.
Variable get_rand_Japprox_ext :
  Rng -> list Q -> num -> (Jac * Inds) * list Q * Rng.
Variable j_to_jtj : Jac -> JTJ.
Variable calc_im_grad_ext : list Q -> Jac -> Inds -> list Q.
Variable eigh : JTJ -> list Q * list (list Q).

Lemma sweep_directions_descends fuel grad evals evecs min_eigval maxiter :
  reports_value_at_x ->
  forall idxs (ls ls' : LState Rng),
    supported (model ls) = true ->
    sweep_directions Rng err_of minimize_scalar_ext fuel idxs grad evals evecs
      min_eigval maxiter ls = Some (Ok tt, ls') ->
    supported (model ls') = true
    /\ err_of (gparams (model ls')) <= err_of (gparams (model ls)).
Proof.
  intro Hon. induction idxs as [|a rest IH]; intros ls ls' Hs H.
  - inversion H; subst. split; [exact Hs | apply Qle_refl].
  - simpl in H. destruct (np_max_list evals) as [mx|e]; [|discriminate].
    destruct (Qltb (nth a evals 0) (min_eigval * mx)).
    + apply IH; assumption.
    + destruct (do_line_min Rng err_of minimize_scalar_ext fuel
                  (cur_vec grad evals evecs a) maxiter ls)
        as [[[[]|e] ls1]|] eqn:L; try discriminate.
      destruct (do_line_min_descends _ _ _ _ _ Hon Hs L) as [Hs1 Hle1].
      destruct (IH ls1 ls' Hs1 H) as [Hs' Hle']. split; [exact Hs'|lra].
Qed.

Lemma conj_grad_sweeps_descends fuel grad evals evecs min_eigval maxiter :
  reports_value_at_x ->
  forall num_sweeps (ls ls' : LState Rng),
    supported (model ls) = true ->
    conj_grad_sweeps Rng err_of minimize_scalar_ext fuel num_sweeps grad evals
      evecs min_eigval maxiter ls = Some (Ok tt, ls') ->
    supported (model ls') = true
    /\ err_of (gparams (model ls')) <= err_of (gparams (model ls)).
Proof.
  intro Hon. induction num_sweeps as [|n IH]; intros ls ls' Hs H.
  - inversion H; subst. split; [exact Hs | apply Qle_refl].
  - simpl in H.
    destruct (sweep_directions Rng err_of minimize_scalar_ext fuel
                (xrange_down (length evals)) grad evals evecs min_eigval maxiter ls)
      as [[[[]|e] ls1]|] eqn:S1; try discriminate.
    destruct (sweep_directions_descends fuel grad evals evecs min_eigval maxiter
                Hon _ _ _ Hs S1) as [Hs1 Hle1].
    destruct (IH ls1 ls' Hs1 H) as [Hs' Hle']. split; [exact Hs'|lra].
Qed.

(** X19.  What [do_conj_grad_jtj] guarantees about the error.  On a
    supported state, with a minimiser that reports as [res.fun] the
    value at [res.x], a call that returns normally leaves an error no
    larger than the error of the state as the derivative evaluation of
    [get_rand_Japprox] left it - which is the state it was called with
    only when the derivatives are taken with [be_nice].  With no sweep
    to do it returns that state as it is. *)
Theorem do_conj_grad_jtj_no_worse_than_after_derivatives
    fuel min_eigval num_sweeps kw maxiter (ls ls' : LState Rng) num_px :
  reports_value_at_x ->
  supported (model ls) = true ->
  get_num_px_jtj (inner_size (model ls)) (Z.of_nat (length (gparams (model ls))))
    (decimate kw) (max_mem kw) (min_redundant kw) = Ok num_px ->
  do_conj_grad_jtj Jac Inds JTJ Rng err_of get_rand_Japprox_ext j_to_jtj
    calc_im_grad_ext eigh minimize_scalar_ext fuel min_eigval num_sweeps kw
    maxiter ls = Some (Ok tt, ls') ->
  let s1 := after_Japprox Jac Inds Rng get_rand_Japprox_ext num_px (model ls) in
  err_of (gparams (model ls')) <= err_of (gparams s1)
  /\ ((num_sweeps <= 0)%Z -> model ls' = s1).
Proof.
  intros Hon Hs Hpx H s1. unfold do_conj_grad_jtj in H. rewrite Hpx in H.
  unfold s1, after_Japprox.
  assert (Hs1 : supported
                  (snd (get_rand_Japprox Jac Inds Rng get_rand_Japprox_ext num_px
                          (model ls))) = true).
  { unfold get_rand_Japprox.
    destruct (get_rand_Japprox_ext (rng (model ls)) (gparams (model ls)) num_px)
      as [[ji p] g]. exact Hs. }
  destruct (get_rand_Japprox Jac Inds Rng get_rand_Japprox_ext num_px (model ls))
    as [[[J inds]|e] s1'] eqn:G; [|discriminate].
  simpl snd in *.
  destruct (eigh (j_to_jtj J)) as [evals evecs].
  split.
  - apply (conj_grad_sweeps_descends fuel _ evals evecs min_eigval maxiter Hon
             (Z.to_nat num_sweeps) (mkLState s1' (evaluated ls)) ls' Hs1 H).
  - intro Hn. destruct num_sweeps; try lia; simpl in H; inversion H; reflexivity.
Qed.

End ConjGradFacts.

End DescentFacts.

Lemma brent_middle_reports_value : reports_value_at_x brent_middle.
Proof.
  intros f bracket maxiter x fx H. unfold brent_middle in H.
  destruct bracket as [|a [|b [|c [|d l]]]]; try discriminate H.
  destruct (Qltb (f b) (f a) && Qltb (f b) (f c)); inversion H. reflexivity.
Defined.

Definition bumpy_line_end : LState unit :=
  Eval vm_compute in
    match do_line_min unit bumpy_err brent_middle 5 [1] 10 (line_state 0) with
    | Some (_, ls') => ls'
    | None => line_state 0
    end.

Lemma do_line_min_returns_no_worse_witness :
  bumpy_err (gparams (model bumpy_line_end)) <= bumpy_err [0]
  /\ exists x, gparams (model bumpy_line_end) = vadd [0] (vscale x [1]).
Proof.
  apply (do_line_min_returns_no_worse unit bumpy_err brent_middle 5 [1] 10
           (line_state 0) bumpy_line_end).
  - exact brent_middle_reports_value.
  - reflexivity.
  - vm_compute. reflexivity.
Defined.

(** The one-parameter model of the optimiser instances, with its single
    eigenvalue and eigenvector. *)
Definition toy_grad_vec (target : Q) (p : list Q) (J : Q) (inds : unit) : list Q :=
  [toy_grad target p J inds].

Definition toy_eigh (jtj : Q) : list Q * list (list Q) := ([jtj], [[1]]).

Definition toy_do_conj_grad_jtj (slope target : Q) :=
  do_conj_grad_jtj Q unit Q unit (toy_err target) (toy_Japprox slope) toy_jtj
    (toy_grad_vec target) toy_eigh brent_middle.

Definition toy_conj_grad_end : LState unit :=
  Eval vm_compute in
    match toy_do_conj_grad_jtj 1 3 5 (1 # 1000000000000) 2 default_px_kwargs 10
            (line_state 0) with
    | Some (_, ls') => ls'
    | None => line_state 0
    end.

Lemma do_conj_grad_jtj_no_worse_than_after_derivatives_witness :
  toy_err 3 (gparams (model toy_conj_grad_end)) <= toy_err 3 [0]
  /\ Forall2 Qeq (gparams (model toy_conj_grad_end)) [3].
Proof.
  destruct (do_conj_grad_jtj_no_worse_than_after_derivatives unit (toy_err 3)
              brent_middle Q unit Q (toy_Japprox 1) toy_jtj (toy_grad_vec 3)
              toy_eigh 5%nat (1 # 1000000000000) 2 default_px_kwargs 10
              (line_state 0) toy_conj_grad_end (Int 20)) as [H _].
  - exact brent_middle_reports_value.
  - reflexivity.
  - vm_compute. reflexivity.
  - vm_compute. reflexivity.
  - split; [exact H|]. constructor; [vm_compute; reflexivity | constructor].
Defined.

(** ** The tile of the field update *)

Lemma zcoord_zv3map f v k : zcoord k (zv3map f v) = f (zcoord k v).
Proof. destruct v as [[? ?] ?], k; reflexivity. Qed.

(** X20.  The field tile of [update_particles].  For at least one
    updated particle and an image of non-negative extent, the outer tile
    lies inside the image; it contains, on every axis, the part inside
    the image of every particle's change tile (a missing left entry read
    as 0, a missing right entry as the extent); the inner tile is the
    outer one shrunk by one pixel on each side; and on an axis of even
    extent both corners are even. *)
Theorem update_particles_tiles_cover shape tiles :
  tiles <> [] ->
  (forall k, (0 <= zcoord k shape)%Z) ->
  exists outer inner,
    update_particles_tiles shape tiles = Ok (outer, inner)
    /\ (forall k, (0 <= zcoord k (tile_l outer) <= zcoord k shape)%Z
                  /\ (0 <= zcoord k (tile_r outer) <= zcoord k shape)%Z)
    /\ (forall t k, In t tiles ->
          (zcoord k (tile_l outer)
           <= Z.max 0 (zcoord k (clean_up_tile shape (fst t) true)))%Z
          /\ (Z.min (zcoord k shape) (zcoord k (clean_up_tile shape (snd t) false))
              <= zcoord k (tile_r outer))%Z)
    /\ (forall k, zcoord k (tile_l inner) = (zcoord k (tile_l outer) + 1)%Z
                  /\ zcoord k (tile_r inner) = (zcoord k (tile_r outer) - 1)%Z)
    /\ (forall k, Z.even (zcoord k shape) = true ->
                  Z.even (zcoord k (tile_l outer)) = true
                  /\ Z.even (zcoord k (tile_r outer)) = true).
Proof.
  intros Hne Hsh. unfold update_particles_tiles.
  destruct tiles as [|t0 rest]; [contradiction|].
  set (all_left := map (fun t => clean_up_tile shape (fst t) true) (t0 :: rest)).
  set (all_right := map (fun t => clean_up_tile shape (snd t) false) (t0 :: rest)).
  assert (Hmin : forall k, is_min_of
             (zcoord k (fold_left (zv3map2 Z.min)
                (map (fun t => clean_up_tile shape (fst t) true) rest)
                (clean_up_tile shape (fst t0) true)))
             (map (zcoord k) all_left)) by (intro k; apply fold_min_axis0).
  assert (Hmax : forall k, is_max_of
             (zcoord k (fold_left (zv3map2 Z.max)
                (map (fun t => clean_up_tile shape (snd t) false) rest)
                (clean_up_tile shape (snd t0) false)))
             (map (zcoord k) all_right)) by (intro k; apply fold_max_axis0).
  unfold all_left, all_right. simpl map. simpl np_min_axis0. simpl np_max_axis0.
  simpl rbind.
  set (m := fold_left (zv3map2 Z.min) _ _) in *.
  set (M := fold_left (zv3map2 Z.max) _ _) in *.
  eexists. eexists. split; [reflexivity|]. simpl tile_l. simpl tile_r.
  assert (Even : forall x, Z.even (x + x mod 2) = true).
  { intro x. rewrite Z.even_add. rewrite <- Z.bit0_mod, Z.bit0_odd.
    rewrite <- Z.negb_odd. destruct (Z.odd x); reflexivity. }
  assert (Mod : forall x, (0 <= x mod 2 < 2)%Z)
    by (intro x; apply Z.mod_pos_bound; lia).
  split; [|split; [|split]].
  - intro k. rewrite !zcoord_zv3map2, !zcoord_zv3map. unfold zclip.
    pose proof (Hsh k). lia.
  - intros t k Ht. rewrite !zcoord_zv3map2, !zcoord_zv3map. unfold zclip.
    destruct (Hmin k) as [_ Hlo]. destruct (Hmax k) as [_ Hhi].
    assert (L : (zcoord k m <= zcoord k (clean_up_tile shape (fst t) true))%Z).
    { apply Hlo. apply in_map_iff. eexists. split; [reflexivity|].
      unfold all_left. apply in_map_iff. exists t. auto. }
    assert (R : (zcoord k (clean_up_tile shape (snd t) false) <= zcoord k M)%Z).
    { apply Hhi. apply in_map_iff. eexists. split; [reflexivity|].
      unfold all_right. apply in_map_iff. exists t. auto. }
    pose proof (Mod (zcoord k m - 1)%Z). pose proof (Mod (zcoord k M + 1)%Z).
    pose proof (Hsh k). lia.
  - intro k. rewrite !zcoord_zv3map. split; reflexivity.
  - intros k He. rewrite !zcoord_zv3map2, !zcoord_zv3map. unfold zclip.
    pose proof (Even (zcoord k m - 1)%Z) as E1.
    pose proof (Even (zcoord k M + 1)%Z) as E2.
    pose proof (Hsh k).
    split.
    + destruct (Z.max_spec (zcoord k m - 1 + (zcoord k m - 1) mod 2) 0)
        as [[_ ->]|[_ ->]];
        match goal with |- Z.even (Z.min ?a ?b) = true =>
          destruct (Z.min_spec a b) as [[_ ->]|[_ ->]] end;
        try assumption; reflexivity.
    + destruct (Z.max_spec (zcoord k M + 1 + (zcoord k M + 1) mod 2) 0)
        as [[_ ->]|[_ ->]];
        match goal with |- Z.even (Z.min ?a ?b) = true =>
          destruct (Z.min_spec a b) as [[_ ->]|[_ ->]] end;
        try assumption; reflexivity.
Qed.

Lemma update_particles_tiles_cover_witness :
  exists outer inner,
    update_particles_tiles (100, 100, 100)%Z
      [((Some 7, Some 3, None), (Some 20, Some 17, None))%Z] = Ok (outer, inner)
    /\ (zcoord Ax0 (tile_l outer) <= 7)%Z /\ (20 <= zcoord Ax0 (tile_r outer))%Z.
Proof.
  destruct (update_particles_tiles_cover (100, 100, 100)%Z
              [((Some 7, Some 3, None), (Some 20, Some 17, None))%Z])
    as (outer & inner & E & _ & Hc & _).
  - discriminate.
  - intro k. destruct k; discriminate.
  - exists outer, inner. split; [exact E|].
    destruct (Hc ((Some 7, Some 3, None), (Some 20, Some 17, None))%Z Ax0)
      as [H1 H2]; [left; reflexivity|].
    split; [exact H1 | exact H2].
Defined.

(** ** The run over all the groups *)

Lemma particles_rel_incl P P' s s' :
  incl P P' -> particles_rel P s s' -> particles_rel P' s s'.
Proof.
  intros Hi (A & B & C & D). repeat split; try assumption.
  intros j Hj. apply D. intro K. apply Hj. apply Hi. exact K.
Qed.

Lemma particles_rel_log P s e : particles_rel P s (log_event s e).
Proof.
  repeat split.
  - exists [e]. reflexivity.
  - apply Forall2_refl_on. intro x. split; [reflexivity | auto].
Qed.

(** Every member of a group lies strictly above the lower corner of the
    region on every axis. *)
Lemma group_member_above_lower s region_size bounds groups g i :
  separate_particles_into_groups s region_size bounds = Ok groups ->
  In g groups -> In i g ->
  exists pt, nth_error (obj s) i = Some pt
             /\ forall k, inject_Z (zcoord k (region_lower bounds))
                          < coord k (ppos pt).
Proof.
  intros Hsep Hg Hi.
  destruct (separate_groups_are_boxes _ _ _ _ _ Hsep Hg) as (_ & start & E & Hstart).
  rewrite E in Hi. apply find_particles_in_box_In in Hi.
  destruct Hi as (pt & N & Hbox). exists pt. split; [exact N|].
  intro k. destruct (Hbox k) as [Hlo Hhi]. destruct (Hstart k) as (Hnz & j & Hj).
  unfold box_bounds in Hlo, Hhi. simpl fst in Hlo. simpl snd in Hhi.
  rewrite coord_v3_of_z in Hlo, Hhi. rewrite zcoord_zv3add in Hhi.
  assert (Hstep : (0 < zcoord k (region_step region_size))%Z).
  { assert (inject_Z (zcoord k start)
            < inject_Z (zcoord k start + zcoord k (region_step region_size)))
      by lra.
    rewrite <- Zlt_Qlt in H. lia. }
  assert (Hge : (zcoord k (region_lower bounds) <= zcoord k start)%Z) by nia.
  rewrite Zle_Qle in Hge. lra.
Qed.

Section AllParticleGroupsFacts.

Variables Jac JTJ Grad Slice : Type.
Variable err_of : list particle -> Q.
Variable tile_from_particle_change :
  State -> vec3 -> Q -> Q -> vec3 -> Q -> Q -> Tile * Tile * Slice.
Variable eval_many_particle_grad_ext :
  list particle -> list nat -> Tile -> grad_kwargs -> Jac.
Variable j_to_jtj : Jac -> JTJ.
Variable calc_grad_ext : list particle -> Jac -> Tile -> Grad.
Variable find_LM_updates : JTJ -> Grad -> Q -> list Q.
Variable pad : zvec3.

Lemma optimise_groups_moves_only damp0 ddamp0 num_iter do_run run_length kw fuel :
  forall groups s r s',
    optimise_groups Jac JTJ Grad Slice err_of tile_from_particle_change
      eval_many_particle_grad_ext j_to_jtj calc_grad_ext find_LM_updates
      fuel groups damp0 ddamp0 num_iter do_run run_length kw s = Some (r, s') ->
    particles_rel (concat groups) s s'
    /\ (r = Ok tt -> groups <> [] ->
        exists evs, events s' = evs ++ [ResetCalled]).
Proof.
  induction groups as [|g rest IH]; intros s r s' H.
  - simpl in H. inversion H; subst. split; [apply particles_rel_refl|].
    intros _ K. contradiction.
  - simpl optimise_groups in H.
    destruct (do_levmarq_particles Jac JTJ Grad Slice err_of
                tile_from_particle_change eval_many_particle_grad_ext j_to_jtj
                calc_grad_ext find_LM_updates fuel g damp0 ddamp0 num_iter do_run
                run_length kw s) as [[r1 s1]|] eqn:L; [|discriminate].
    assert (R1 : particles_rel g s s1).
    { unfold do_levmarq_particles in L.
      exact (particles_loop_moves_only Jac JTJ Grad Slice err_of
               tile_from_particle_change eval_many_particle_grad_ext j_to_jtj
               calc_grad_ext find_LM_updates kw num_iter do_run
               (Z.to_nat run_length) g fuel _ s r1 s1 L). }
    assert (R1' : particles_rel (concat (g :: rest)) s s1).
    { eapply particles_rel_incl; [|exact R1].
      simpl. intros x Hx. apply in_or_app. left. exact Hx. }
    destruct r1 as [[]|e].
    + destruct (IH _ _ _ H) as (R2 & Hlast). split.
      * eapply particles_rel_trans; [exact R1'|].
        eapply particles_rel_trans; [apply particles_rel_log|].
        eapply particles_rel_incl; [|exact R2].
        simpl. intros x Hx. apply in_or_app. right. exact Hx.
      * intros Hr _. destruct rest as [|g2 rest'].
        -- simpl in H. inversion H; subst. exists (events s1). reflexivity.
        -- apply Hlast; [exact Hr | discriminate].
    + inversion H; subst. split; [exact R1'|].
      intro K. discriminate K.
Qed.

(** X21.  [do_levmarq_all_particle_groups] with the region size as given
    ([calc_region_size] false): a call that has come to an end, with a
    result or an exception and after however many passes of the loops of
    [do_levmarq_particles], has kept the image shape, the number of
    particles, every particle's type and validity, and only added to
    the event log.  A particle with a coordinate at or below the lower
    corner of the region (0 under the default bounds) is in no group and
    has not been moved.  After a normal return from at least one group
    the last event is the [s.reset()] that follows the last group. *)
Theorem do_levmarq_all_particle_groups_keeps_face_particles
    fuel region_size max_mem bounds damp0 ddamp0 num_iter do_run run_length kw
    s r s' :
  do_levmarq_all_particle_groups Jac JTJ Grad Slice err_of
    tile_from_particle_change eval_many_particle_grad_ext j_to_jtj
    calc_grad_ext find_LM_updates pad fuel region_size false max_mem bounds
    damp0 ddamp0 num_iter do_run run_length kw s = Some (r, s') ->
  image_shape s' = image_shape s
  /\ length (obj s') = length (obj s)
  /\ (exists evs, events s' = events s ++ evs)
  /\ (forall j pt pt',
        nth_error (obj s) j = Some pt -> nth_error (obj s') j = Some pt' ->
        ptyp pt' = ptyp pt
        /\ (is_bad_update (image_shape s) (ppos pt) (prad pt) = false ->
            is_bad_update (image_shape s') (ppos pt') (prad pt') = false))
  /\ (forall j pt k,
        nth_error (obj s) j = Some pt ->
        coord k (ppos pt) <= inject_Z (zcoord k (region_lower bounds)) ->
        nth_error (obj s') j = Some pt)
  /\ (forall groups,
        separate_particles_into_groups s region_size bounds = Ok groups ->
        groups <> [] -> r = Ok tt ->
        exists evs, events s' = evs ++ [ResetCalled]).
Proof.
  intro H. unfold do_levmarq_all_particle_groups, choose_region_size in H.
  destruct (separate_particles_into_groups s region_size bounds)
    as [groups|e] eqn:Hsep.
  - destruct (optimise_groups_moves_only damp0 ddamp0 num_iter do_run run_length
                kw fuel groups s r s' H) as ((Hsh & Hev & Hall & Hout) & Hlast).
    split; [exact Hsh|].
    split; [symmetry; eapply Forall2_length; exact Hall|].
    split; [exact Hev|]. split; [|split].
    + intros j pt pt' Hj Hj'. rewrite Hsh.
      exact (Forall2_nth_error_on _ _ _ Hall j pt pt' Hj Hj').
    + intros j pt k Hj Hk. rewrite Hout; [exact Hj|].
      intro Hin. apply in_concat in Hin. destruct Hin as (g & Hg & Hi).
      destruct (group_member_above_lower _ _ _ _ _ _ Hsep Hg Hi) as (pt' & N & Hab).
      rewrite Hj in N. inversion N; subst pt'. specialize (Hab k). lra.
    + intros groups' Hg' Hne Hr. inversion Hg'; subst groups'.
      apply Hlast; assumption.
  - inversion H; subst. split; [reflexivity|].
    split; [reflexivity|]. split; [exists []; rewrite app_nil_r; reflexivity|].
    split; [|split].
    + intros j pt pt' Hj Hj'. rewrite Hj in Hj'. inversion Hj'; subst. auto.
    + intros j pt k Hj _. exact Hj.
    + intros groups Hg. discriminate Hg.
Qed.

End AllParticleGroupsFacts.

Lemma do_levmarq_all_particle_groups_keeps_face_particles_witness :
  exists r s',
    do_levmarq_all_particle_groups Q Q Q unit (toyp_err 4) toyp_tile
      (toyp_eval_J 1) toy_jtj (toyp_grad 4) toyp_solve (2, 2, 2)%Z 3
      default_region_size false 4000000000 None (1 # 10) (2 # 10) 1 false 5
      default_grad_kwargs face_particle_state = Some (r, s')
    /\ nth_error (obj s') 0 = Some (mkParticle (0, 5, 5) 2 1).
Proof.
  assert (E : exists r s',
             do_levmarq_all_particle_groups Q Q Q unit (toyp_err 4) toyp_tile
               (toyp_eval_J 1) toy_jtj (toyp_grad 4) toyp_solve (2, 2, 2)%Z 3
               default_region_size false 4000000000 None (1 # 10) (2 # 10) 1
               false 5 default_grad_kwargs face_particle_state = Some (r, s')).
  { vm_compute. eexists. eexists. reflexivity. }
  destruct E as (r & s' & E). exists r, s'. split; [exact E|].
  destruct (do_levmarq_all_particle_groups_keeps_face_particles Q Q Q unit
              (toyp_err 4) toyp_tile (toyp_eval_J 1) toy_jtj (toyp_grad 4)
              toyp_solve (2, 2, 2)%Z 3%nat default_region_size 4000000000 None
              (1 # 10) (2 # 10) 1 false 5 default_grad_kwargs face_particle_state
              r s' E)
    as (_ & _ & _ & _ & Hface & _).
  apply (Hface 0%nat (mkParticle (0, 5, 5) 2 1) Ax0).
  - reflexivity.
  - vm_compute. discriminate.
Defined.

(** ** The region size [calc_region_size] settles on *)

Lemma fold_left_max_ge (l : list Z) : forall a, (a <= fold_left Z.max l a)%Z.
Proof.
  induction l as [|x l IH]; intro a; simpl; [lia|].
  specialize (IH (Z.max a x)). lia.
Qed.

(** The smallest extent of the image. *)
Definition min_extent (shape : zvec3) : Z :=
  let '(s0, s1, s2) := shape in Z.min s0 (Z.min s1 s2).

Section RegionSizeFacts.

Variable pad : zvec3.
Hypothesis pad_nonneg : forall k, (0 <= zcoord k pad)%Z.

Variable s : State.
Variable bounds : option (zvec3 * zvec3).

(** Some particle lies in the region searched. *)
Variable i0 : nat.
Variable pt0 : particle.
Hypothesis particle_in_region :
  nth_error (obj s) i0 = Some pt0
  /\ forall k, inject_Z (zcoord k (region_lower bounds)) < coord k (ppos pt0)
               /\ coord k (ppos pt0) <= inject_Z (zcoord k (region_upper s bounds)).

Lemma calc_mem_usage_positive n :
  (1 <= n)%Z ->
  exists m, calc_mem_usage pad s bounds (RsInt n) = Ok m /\ 0 < m.
Proof.
  intro Hn. destruct particle_in_region as [N Hin].
  assert (Hrs : forall k, (0 < zcoord k (region_step (RsInt n)))%Z)
    by (intros [| |]; simpl; lia).
  destruct (separate_particles_into_groups s (RsInt n) bounds) as [groups|e] eqn:Hsep.
  - destruct (separate_particles_exactly_once s (RsInt n) bounds groups i0 pt0
                Hsep Hrs N) as (_ & Hone & Hne).
    specialize (Hone Hin).
    unfold calc_mem_usage. rewrite Hsep. cbn [rbind].
    destruct groups as [|g rest]; [simpl in Hone; discriminate|].
    cbn [np_max_sizes rbind rs_vector].
    destruct pad as [[p0 p1] p2]. eexists. split; [reflexivity|].
    assert (Hg : (1 <= Z.of_nat (length g))%Z).
    { assert (g <> []) by (apply Hne; left; reflexivity).
      destruct g; [contradiction | simpl length; lia]. }
    pose proof (fold_left_max_ge (map (fun h => Z.of_nat (length h)) rest)
                  (Z.of_nat (length g))) as Hmax.
    pose proof (pad_nonneg Ax0) as P0. pose proof (pad_nonneg Ax1) as P1.
    pose proof (pad_nonneg Ax2) as P2. simpl in P0, P1, P2.
    assert (A : 1 <= inject_Z (fold_left Z.max
                        (map (fun h => Z.of_nat (length h)) rest)
                        (Z.of_nat (length g)))).
    { change 1 with (inject_Z 1). rewrite <- Zle_Qle. lia. }
    assert (B0 : 1 <= inject_Z (n + 2 * p0))
      by (change 1 with (inject_Z 1); rewrite <- Zle_Qle; lia).
    assert (B1 : 1 <= inject_Z (n + 2 * p1))
      by (change 1 with (inject_Z 1); rewrite <- Zle_Qle; lia).
    assert (B2 : 1 <= inject_Z (n + 2 * p2))
      by (change 1 with (inject_Z 1); rewrite <- Zle_Qle; lia).
    revert A B0 B1 B2.
    generalize (inject_Z (fold_left Z.max
                  (map (fun h => Z.of_nat (length h)) rest) (Z.of_nat (length g)))).
    generalize (inject_Z (n + 2 * p0)), (inject_Z (n + 2 * p1)),
               (inject_Z (n + 2 * p2)).
    intros a b c d A B0 B1 B2.
    assert (0 < a * b) by nra.
    assert (0 < a * b * c) by nra.
    assert (0 < 32 * (a * b * c)) by lra.
    apply Qmult_lt_0_compat; lra.
  - exfalso. unfold separate_particles_into_groups in Hsep.
    set (b := match bounds with None => ((0, 0, 0)%Z, image_shape s) | Some b => b end)
      in Hsep.
    simpl zcoord in Hsep.
    destruct (py_range_positive_step (zcoord Ax0 (fst b)) (zcoord Ax0 (snd b)) n
                ltac:(lia)) as (n0 & E0 & _).
    destruct (py_range_positive_step (zcoord Ax1 (fst b)) (zcoord Ax1 (snd b)) n
                ltac:(lia)) as (n1 & E1 & _).
    destruct (py_range_positive_step (zcoord Ax2 (fst b)) (zcoord Ax2 (snd b)) n
                ltac:(lia)) as (n2 & E2 & _).
    rewrite E0, E1, E2 in Hsep. discriminate Hsep.
Qed.

Lemma shrink_region_int fuel : forall n,
  (1 <= n)%Z -> (n <= Z.of_nat fuel + 2)%Z ->
  shrink_region pad fuel s bounds (RsInt n) = Some (Ok (RsInt (Z.min n 2))).
Proof.
  induction fuel as [|fuel IH]; intros n Hn Hf.
  - simpl. destruct (calc_mem_usage_positive n Hn) as (m & -> & Hm).
    assert (G : rs_any_gt (RsInt n) 2 = false).
    { unfold rs_any_gt. simpl.
      assert ((2 <? n)%Z = false) as -> by (apply Z.ltb_ge; lia). reflexivity. }
    rewrite G, andb_false_r. rewrite Z.min_l by lia. reflexivity.
  - simpl. destruct (calc_mem_usage_positive n Hn) as (m & -> & Hm).
    assert (Z0 : Qeq_bool m 0 = false).
    { destruct (Qeq_bool m 0) eqn:E; [|reflexivity].
      apply Qeq_bool_iff in E. lra. }
    rewrite Z0. simpl negb. simpl andb.
    destruct (rs_any_gt (RsInt n) 2) eqn:G.
    + unfold rs_any_gt in G. simpl in G.
      assert (Hgt : (2 < n)%Z).
      { destruct (2 <? n)%Z eqn:L; [apply Z.ltb_lt; exact L | discriminate G]. }
      simpl rs_add. rewrite IH by lia.
      rewrite (Z.min_r n 2), (Z.min_r (n + -1) 2) by lia. reflexivity.
    + unfold rs_any_gt in G. simpl in G.
      assert (Hle : (n <= 2)%Z).
      { destruct (2 <? n)%Z eqn:L; [discriminate G | apply Z.ltb_ge; exact L]. }
      rewrite Z.min_l by lia. reflexivity.
Qed.

Lemma rs_all_lt_int n shape :
  rs_all_lt (RsInt n) shape = (n <? min_extent shape)%Z.
Proof.
  destruct shape as [[s0 s1] s2]. unfold rs_all_lt, min_extent. simpl.
  destruct (n <? s0)%Z eqn:A, (n <? s1)%Z eqn:B, (n <? s2)%Z eqn:C; simpl;
    symmetry;
    rewrite ?Z.ltb_lt, ?Z.ltb_ge in *; try (apply Z.ltb_lt; lia);
    apply Z.ltb_ge; lia.
Qed.

Lemma grow_region_int fuel : forall n,
  (1 <= n)%Z -> (min_extent (image_shape s) <= n + Z.of_nat fuel)%Z ->
  grow_region pad fuel s bounds (RsInt n)
  = Some (Ok (RsInt (Z.max n (min_extent (image_shape s))))).
Proof.
  induction fuel as [|fuel IH]; intros n Hn Hf.
  - simpl. destruct (calc_mem_usage_positive n Hn) as (m & -> & Hm).
    rewrite rs_all_lt_int.
    assert ((n <? min_extent (image_shape s))%Z = false) as ->
      by (apply Z.ltb_ge; lia).
    rewrite andb_false_r. rewrite Z.max_l by lia. reflexivity.
  - simpl. destruct (calc_mem_usage_positive n Hn) as (m & -> & Hm).
    assert (Z0 : Qeq_bool m 0 = false).
    { destruct (Qeq_bool m 0) eqn:E; [|reflexivity].
      apply Qeq_bool_iff in E. lra. }
    rewrite Z0, rs_all_lt_int. simpl negb. simpl andb.
    destruct (n <? min_extent (image_shape s))%Z eqn:L.
    + apply Z.ltb_lt in L. simpl rs_add. rewrite IH by lia.
      rewrite (Z.max_r n), (Z.max_r (n + 1)) by lia. reflexivity.
    + apply Z.ltb_ge in L. rewrite Z.max_l by lia. reflexivity.
Qed.

End RegionSizeFacts.

(** X22.  What [calc_region_size] computes.  For an integer region size
    [n >= 1], a non-negative [s.pad] and at least one particle in the
    region, the memory estimate is positive and the region size settled
    on does not depend on how large [max_mem] is: when the first
    estimate exceeds [max_mem] the size is shrunk all the way to 2 (or
    left at [n] when that is smaller), and otherwise it is grown to one
    less than the smallest extent of the image (or left at [n - 1] when
    [n] is at least that extent); [max_mem] only decides between the
    two. *)
Theorem choose_region_size_ignores_how_much_memory
    pad s bounds i0 pt0 fuel n max_mem :
  (forall k, (0 <= zcoord k pad)%Z) ->
  nth_error (obj s) i0 = Some pt0 ->
  (forall k, inject_Z (zcoord k (region_lower bounds)) < coord k (ppos pt0)
             /\ coord k (ppos pt0) <= inject_Z (zcoord k (region_upper s bounds))) ->
  (1 <= n)%Z ->
  (Z.max n (min_extent (image_shape s)) <= Z.of_nat fuel)%Z ->
  exists m,
    calc_mem_usage pad s bounds (RsInt n) = Ok m
    /\ 0 < m
    /\ (max_mem < m ->
        choose_region_size pad fuel s bounds (RsInt n) true max_mem
        = Some (Ok (RsInt (Z.min n 2))))
    /\ (m <= max_mem ->
        choose_region_size pad fuel s bounds (RsInt n) true max_mem
        = Some (Ok (RsInt (Z.max n (min_extent (image_shape s)) - 1)))).
Proof.
  intros Hpad N Hin Hn Hf.
  destruct (calc_mem_usage_positive pad Hpad s bounds i0 pt0 (conj N Hin) n Hn)
    as (m & E & Hm).
  exists m. split; [exact E|]. split; [exact Hm|]. split.
  - intro Hgt. unfold choose_region_size. rewrite E.
    apply Qltb_lt in Hgt. rewrite Hgt.
    apply (shrink_region_int pad Hpad s bounds i0 pt0 (conj N Hin)); lia.
  - intro Hle. unfold choose_region_size. rewrite E.
    apply Qltb_ge in Hle. rewrite Hle.
    rewrite (grow_region_int pad Hpad s bounds i0 pt0 (conj N Hin)) by lia.
    reflexivity.
Qed.

Lemma choose_region_size_ignores_how_much_memory_witness :
  choose_region_size (2, 2, 2)%Z 100 three_particles None (RsInt 40) true 1000
    = Some (Ok (RsInt 2))
  /\ choose_region_size (2, 2, 2)%Z 100 three_particles None (RsInt 40) true
       4000000000 = Some (Ok (RsInt 99)).
Proof.
  destruct (choose_region_size_ignores_how_much_memory (2, 2, 2)%Z three_particles
              None 0%nat (mkParticle (10, 10, 10) 5 1) 100%nat 40 1000)
    as (m & E & _ & Hshrink & _).
  - intro k. destruct k; discriminate.
  - reflexivity.
  - intro k. destruct k; vm_compute; split; reflexivity || discriminate.
  - lia.
  - vm_compute. discriminate.
  - destruct (choose_region_size_ignores_how_much_memory (2, 2, 2)%Z
                three_particles None 0%nat (mkParticle (10, 10, 10) 5 1) 100%nat 40
                4000000000) as (m' & E' & _ & _ & Hgrow).
    + intro k. destruct k; discriminate.
    + reflexivity.
    + intro k. destruct k; vm_compute; split; reflexivity || discriminate.
    + lia.
    + vm_compute. discriminate.
    + split.
      * apply Hshrink. vm_compute in E. inversion E; subst m. reflexivity.
      * apply Hgrow. vm_compute in E'. inversion E'; subst m'.
        vm_compute. discriminate.
Defined.
